(** * Hibiki: the synchronization engine

    A shallow embedding of [hibiki/itunes.py], [hibiki/config.py] and
    [hibiki/core.py]: the track catalog, the filter sets, the persisted
    state store, the space accountant, the sync planner, the reconciler
    and the copy executor; then the listings of the catalog, the files
    the configuration keeps under the destination and the selection
    screens of [CLI.py] that drive them; followed by the properties of
    the engine and of these callers.

    Representation choices, used throughout:
    - a path is the list of its components; [os.path.join] of a directory
      and a relative path is concatenation, [os.path.relpath] strips the
      directory prefix again;
    - Python integers are [Z]; dictionaries are [gmap], sets are [gset];
      iteration over a dictionary follows [map_to_list];
    - the file system, the persisted documents and the callbacks' record
      live in a [World] that every operation threads explicitly;
    - an exception is an outcome of the state monad [M]; side effects made
      before the raise persist. *)

From stdpp Require Import gmap strings list fin_maps pretty sorting.
From Stdlib Require Import Ascii ZArith Lia.

#[global] Set Warnings "-clear-no-such-hyp".

Abbreviation path := (list string).

(** ** Exceptions ([hibiki/exceptions.py] and the built-in ones) *)

(** [OSError.errno], as far as the engine and its callers tell them apart. *)
Inductive errno :=
| ENOENT   (* 2: FileNotFoundError *)
| ENOSPC   (* 28: no space left on device *)
| EOTHER.  (* any other OSError *)

Inductive exn :=
| OSError (e : errno)
| UnboundLocalError (variable : string)
| InvalidConfigError (message : string)
| BadDestinationError (message : string)
| LoopFuelExhausted.
(* [LoopFuelExhausted] is not a Python exception: it marks the exhaustion of
   the fuel of the [while True] loop of [target_directory], and
   [target_directory_loop_fuel] shows that it never occurs. *)

Definition FileNotFoundError : exn := OSError ENOENT.

Definition is_FileNotFoundError (e : exn) : bool :=
  match e with OSError ENOENT => true | _ => false end.

Definition is_OSError (e : exn) : bool :=
  match e with OSError _ => true | _ => false end.

Inductive outcome (A : Type) :=
| Return (a : A)
| Raise (e : exn).
Arguments Return {A} a.
Arguments Raise {A} e.

(** ** [hibiki/itunes.py] *)

Module Itunes.

Record iTunesTrack := {
  track_id : Z;
  persistent_id : string;
  name : option string;
  artist : option string;
  album : option string;
  genre : option string;
  size : Z;
  location : path;
}.

(** [basename(self.location)] *)
Definition filename (t : iTunesTrack) : string :=
  default "" (last (location t)).

Record iTunesPlaylist := {
  playlist_name : string;
  items : list Z;
}.

(** The generator [iTunesPlaylist.tracks]. *)
Definition playlist_tracks (p : iTunesPlaylist) : list Z := items p.

Record iTunesLibrary := {
  _tracks : list iTunesTrack;
  _playlists : list iTunesPlaylist;
}.

(** The generators [iTunesLibrary.tracks] and [iTunesLibrary.playlists]:
    every access yields the whole catalog again, in catalog order. *)
Definition tracks (lib : iTunesLibrary) : list iTunesTrack := _tracks lib.
Definition playlists (lib : iTunesLibrary) : list iTunesPlaylist :=
  _playlists lib.

Fixpoint first_with_id (pid : string) (l : list iTunesTrack)
  : option iTunesTrack :=
  match l with
  | [] => None
  | track :: rest =>
      if bool_decide (persistent_id track = pid) then Some track
      else first_with_id pid rest
  end.

Definition track_by_persistent_id (lib : iTunesLibrary) (pid : string)
  : option iTunesTrack :=
  first_with_id pid (tracks lib).

End Itunes.

(** ** The world outside the engine: file system, documents, callbacks *)

Module Os.
Import Itunes.

(** The state file (the "library file"), as [json.load] sees it. *)
Inductive LibraryFile :=
| Blank                             (* the zero-byte file: no JSON value *)
| Corrupt                           (* any other text json.load rejects *)
| Document (data : gmap string path).

(** [json.load(file)]: [None] stands for the [ValueError] it raises. *)
Definition json_load (f : LibraryFile) : option (gmap string path) :=
  match f with
  | Document data => Some data
  | Blank | Corrupt => None
  end.

(** A filter persistence file, as [json.load] sees it. *)
Inductive FilterFile :=
| Malformed                         (* json.load raises ValueError *)
| Groups (data : gmap string (list string)).

(** What a callback is called with: a track, or a path. *)
Inductive subject :=
| OfTrack (track : iTunesTrack)
| OfPath (p : path).

(** The calls made to the caller's callbacks, oldest first. *)
Inductive Event :=
| before_copy (track : iTunesTrack)
| after_copy (track : iTunesTrack)
| before_delete (data : subject)
| error (data : subject) (e : exn).

Record World := {
  files : gmap path Z;                       (* regular files and st_size *)
  dirs : gset path;                          (* directories *)
  library_files : gmap path LibraryFile;     (* state files, by path *)
  filter_files : gmap path FilterFile;       (* filter files, by path *)
  f_bavail : Z;                              (* os.statvfs(destination) *)
  f_frsize : Z;
  log : list Event;
}.

Definition with_files (w : World) (fs : gmap path Z) : World :=
  {| files := fs; dirs := dirs w; library_files := library_files w;
     filter_files := filter_files w; f_bavail := f_bavail w;
     f_frsize := f_frsize w; log := log w |}.

Definition with_dirs (w : World) (ds : gset path) : World :=
  {| files := files w; dirs := ds; library_files := library_files w;
     filter_files := filter_files w; f_bavail := f_bavail w;
     f_frsize := f_frsize w; log := log w |}.

Definition with_library_files (w : World) (ls : gmap path LibraryFile)
  : World :=
  {| files := files w; dirs := dirs w; library_files := ls;
     filter_files := filter_files w; f_bavail := f_bavail w;
     f_frsize := f_frsize w; log := log w |}.

Definition with_log (w : World) (l : list Event) : World :=
  {| files := files w; dirs := dirs w; library_files := library_files w;
     filter_files := filter_files w; f_bavail := f_bavail w;
     f_frsize := f_frsize w; log := l |}.

(** The world between two runs: the same files and documents, and whatever
    free space the file system reports then. *)
Definition with_statvfs (w : World) (bavail frsize : Z) : World :=
  {| files := files w; dirs := dirs w; library_files := library_files w;
     filter_files := filter_files w; f_bavail := bavail; f_frsize := frsize;
     log := log w |}.

(** A callback is called: the call is recorded. *)
Definition call (w : World) (ev : Event) : World :=
  with_log w (log w ++ [ev]).

(** [os.path.join(directory, relative)] *)
Definition join (directory relative : path) : path := directory ++ relative.

(** [os.path.relpath(p, start)]: the common prefix is dropped, and each
    component left of [start] costs one step up. *)
Fixpoint relpath (p start : path) : path :=
  match start, p with
  | s :: start', x :: p' =>
      if bool_decide (s = x) then relpath p' start'
      else replicate (length start) ".." ++ p
  | _, _ => replicate (length start) ".." ++ p
  end.

(** [os.path.isdir] *)
Definition isdir (w : World) (p : path) : bool := bool_decide (p ∈ dirs w).

(** [os.makedirs]: the directory exists afterwards. *)
Definition makedirs (w : World) (p : path) : World :=
  with_dirs w ({[p]} ∪ dirs w).

(** The name of [p] inside [d], when [p] lies directly in [d]. *)
Fixpoint child_name (d p : path) : option string :=
  match d, p with
  | [], [n] => Some n
  | x :: d', y :: p' => if bool_decide (x = y) then child_name d' p' else None
  | _, _ => None
  end.

(** [os.listdir]: the names of the files and folders directly in [d]. *)
Definition listdir (w : World) (d : path) : list string :=
  omap (child_name d) (elements (dom (files w) ∪ dirs w)).

(** [os.stat(path).st_size]; [None] stands for [FileNotFoundError]. *)
Definition stat_size (w : World) (p : path) : option Z := files w !! p.

(** [os.remove]; [None] stands for [FileNotFoundError]. *)
Definition remove (w : World) (p : path) : option World :=
  match files w !! p with
  | Some _ => Some (with_files w (delete p (files w)))
  | None => None
  end.

(** What happens when the bytes of a track are copied: decided by the
    world (source readable, room on the destination), not by the engine. *)
Inductive copy_outcome :=
| Copied (bytes : Z)
    (* both files open, [bytes] bytes written *)
| SourceFails (e : errno)
    (* [open(track.path, 'rb')] raises: the destination is not touched *)
| DestinationFails (e : errno)
    (* [open(destination_path, 'wb')] raises: nothing is created *)
| WriteFails (e : errno) (written : Z).
    (* [shutil.copyfileobj] raises after [written] bytes: the destination
       file exists and is incomplete *)

End Os.

(** ** [hibiki/config.py] *)

Module Config.
Import Itunes Os.

(** [HibikiConfigFilters]: four sets of names and the derived set of track
    ids resolved from the playlists. *)
Record HibikiConfigFilters := {
  filter_filename : string;
  albums : gset string;
  artists : gset string;
  genres : gset string;
  playlists : gset string;
  tracks : gset Z;
}.

Definition new_filters (fname : string) : HibikiConfigFilters :=
  {| filter_filename := fname; albums := ∅; artists := ∅; genres := ∅;
     playlists := ∅; tracks := ∅ |}.

Definition add_tracks (f : HibikiConfigFilters) (ids : list Z)
  : HibikiConfigFilters :=
  {| filter_filename := filter_filename f; albums := albums f;
     artists := artists f; genres := genres f; playlists := playlists f;
     tracks := tracks f ∪ list_to_set ids |}.

Fixpoint get_playlist_tracks_loop (pls : list iTunesPlaylist)
    (f : HibikiConfigFilters) : HibikiConfigFilters :=
  match pls with
  | [] => f
  | playlist :: rest =>
      if bool_decide (playlist_name playlist ∈ playlists f)
      then get_playlist_tracks_loop rest
             (add_tracks f (playlist_tracks playlist))
      else get_playlist_tracks_loop rest f
  end.

Definition get_playlist_tracks (lib : iTunesLibrary)
    (f : HibikiConfigFilters) : HibikiConfigFilters :=
  get_playlist_tracks_loop (Itunes.playlists lib) f.

(** [x in s] for an attribute that is [None] when the catalog lacks it. *)
Definition name_in (x : option string) (s : gset string) : bool :=
  match x with
  | Some n => bool_decide (n ∈ s)
  | None => false
  end.

Definition is_filtered (f : HibikiConfigFilters) (track : iTunesTrack)
  : bool :=
  if name_in (album track) (albums f) then true
  else if name_in (artist track) (artists f) then true
  else if name_in (genre track) (genres f) then true
  else if bool_decide (track_id track ∈ tracks f) then true
  else false.

(** [setattr(self, group, set(items))] for the four groups in turn;
    [data.get(group, [])] is the empty list for an absent group. *)
Definition set_groups (f : HibikiConfigFilters)
    (data : gmap string (list string)) : HibikiConfigFilters :=
  let items group : gset string := list_to_set (default [] (data !! group)) in
  {| filter_filename := filter_filename f;
     albums := items "albums"; artists := items "artists";
     genres := items "genres"; playlists := items "playlists";
     tracks := tracks f |}.

Record HibikiConfig := {
  destination : path;
  _library_path : option path;
  excludes : HibikiConfigFilters;
  includes : HibikiConfigFilters;
  max_file_count : Z;
  random_fill : bool;
  use_subfolders : bool;
}.

(** The exceptions of [hibiki/exceptions.py]: the configuration errors. *)
Definition is_HibikiException (e : exn) : bool :=
  match e with
  | InvalidConfigError _ | BadDestinationError _ => true
  | _ => false
  end.

Definition config_folder (c : HibikiConfig) : path :=
  destination c ++ [".hibiki"].

Definition filters_path (c : HibikiConfig) (f : HibikiConfigFilters) : path :=
  config_folder c ++ [filter_filename f].

Definition set_library_path (c : HibikiConfig) (p : path) : HibikiConfig :=
  {| destination := destination c; _library_path := Some p;
     excludes := excludes c; includes := includes c;
     max_file_count := max_file_count c; random_fill := random_fill c;
     use_subfolders := use_subfolders c |}.

Definition set_filters (c : HibikiConfig) (ex inc : HibikiConfigFilters)
  : HibikiConfig :=
  {| destination := destination c; _library_path := _library_path c;
     excludes := ex; includes := inc;
     max_file_count := max_file_count c; random_fill := random_fill c;
     use_subfolders := use_subfolders c |}.


(** [HibikiConfigFilters.load_from_file]: the outcome and the filter object
    as the call leaves it. *)
Definition load_from_file (w : World) (c : HibikiConfig)
    (f : HibikiConfigFilters) (path_arg : option path)
  : outcome unit * HibikiConfigFilters :=
  let p := match path_arg with                      (* if not path: *)
           | Some (x :: l) => x :: l
           | _ => filters_path c f
           end in
  match filter_files w !! p with
  | None => (Raise FileNotFoundError, f)            (* open(path, 'r') *)
  | Some Malformed =>
      (Raise (InvalidConfigError "Filter file cannot be read"), f)
  | Some (Groups data) => (Return (), set_groups f data)
  end.

End Config.

(** ** [hibiki/core.py] *)

Module Core.
Import Itunes Os Config.

(** The attributes of a [Hibiki] object. *)
Record Hibiki := {
  _subfolder : nat;
  itunes : iTunesLibrary;
  tracks : gset string;
  config : HibikiConfig;
}.

(** [Hibiki.__init__], for a configuration and a parsed catalog. *)
Definition new (c : HibikiConfig) (lib : iTunesLibrary) : Hibiki :=
  {| _subfolder := 0; itunes := lib; tracks := ∅; config := c |}.

Definition with_subfolder (h : Hibiki) (n : nat) : Hibiki :=
  {| _subfolder := n; itunes := itunes h; tracks := tracks h;
     config := config h |}.

Definition with_tracks (h : Hibiki) (t : gset string) : Hibiki :=
  {| _subfolder := _subfolder h; itunes := itunes h; tracks := t;
     config := config h |}.

Definition with_config (h : Hibiki) (c : HibikiConfig) : Hibiki :=
  {| _subfolder := _subfolder h; itunes := itunes h; tracks := tracks h;
     config := c |}.

(** The object and the world it acts on. *)
Record Machine := {
  self : Hibiki;
  world : World;
}.

(** *** State and exceptions *)

Definition M (A : Type) : Type := Machine → outcome A * Machine.

#[export] Instance M_ret : MRet M := λ A a σ, (Return a, σ).

#[export] Instance M_bind : MBind M := λ A B f m σ,
  match m σ with
  | (Return a, σ') => f a σ'
  | (Raise e, σ') => (Raise e, σ')
  end.

Definition raise {A} (e : exn) : M A := λ σ, (Raise e, σ).

Definition get_self : M Hibiki := λ σ, (Return (self σ), σ).
Definition get_world : M World := λ σ, (Return (world σ), σ).

Definition put_self (h : Hibiki) : M unit :=
  λ σ, (Return (), {| self := h; world := world σ |}).
Definition put_world (w : World) : M unit :=
  λ σ, (Return (), {| self := self σ; world := w |}).

(** A callback that may be [None]: called when it is registered. *)
Definition callback (registered : bool) (ev : Event) : M unit :=
  if registered then w ← get_world; put_world (call w ev) else mret ().

(** [try: m] with the exception, if any, handed to the program. *)
Definition try {A} (m : M A) : M (outcome A) := λ σ,
  match m σ with
  | (r, σ') => (Return r, σ')
  end.

(** *** The planner's admission loops

    [space] and [plan] are the local variable [space] and the attribute
    [self.tracks]; [admitted] is a ghost record of the tracks admitted,
    oldest first, kept for the statements about the budget. *)

Record planning := {
  space : Z;
  plan : gset string;
  admitted : list iTunesTrack;
}.

(** The sum of the sizes of a list of tracks. *)
Definition total_size (l : list iTunesTrack) : Z :=
  foldr (λ track acc, size track + acc)%Z 0%Z l.

(** [if space >= track.size: space -= track.size; self.tracks.add(...)] *)
Definition admit_track (track : iTunesTrack) (st : planning) : planning :=
  if (space st >=? size track)%Z then
    {| space := space st - size track;
       plan := plan st ∪ {[persistent_id track]};
       admitted := admitted st ++ [track] |}
  else st.

(** The body of [for track in self.itunes.tracks]. *)
Definition consider (ex inc : HibikiConfigFilters) (track : iTunesTrack)
    (st : planning) : planning :=
  if is_filtered ex track then st                   (* continue *)
  else if is_filtered inc track then admit_track track st
  else st.

Fixpoint main_pass (ex inc : HibikiConfigFilters)
    (catalog : list iTunesTrack) (st : planning) : planning :=
  match catalog with
  | [] => st
  | track :: rest => main_pass ex inc rest (consider ex inc track st)
  end.

(** The body of the random-fill loop for the sampled [track]. *)
Definition consider_random (ex : HibikiConfigFilters) (track : iTunesTrack)
    (st : planning) : planning :=
  if negb (is_filtered ex track) then
    if negb (bool_decide (persistent_id track ∈ plan st))
    then admit_track track st
    else st
  else st.

(** [while len(music) > 0]: [random.sample(music, 1)[0]] is the element at
    index [sample (length music) mod length music], for a source of
    randomness [sample]; [music.remove(track)] removes that very element
    (the tracks of [music] are distinct objects). The loop is run with
    [length music] units of fuel, see [random_fill_loop_fuel]. *)
Fixpoint random_fill_loop (sample : nat → nat) (ex : HibikiConfigFilters)
    (fuel : nat) (music : list iTunesTrack) (st : planning) : planning :=
  match fuel with
  | O => st
  | S fuel' =>
      let i := (sample (length music) mod length music)%nat in
      match music !! i with
      | None => st                                  (* len(music) == 0 *)
      | Some track =>
          random_fill_loop sample ex fuel' (delete i music)
            (consider_random ex track st)
      end
  end.

(** The two admission phases of [generate_sync_list]. *)
Definition admission (sample : nat → nat) (c : HibikiConfig)
    (catalog : list iTunesTrack) (budget : Z) (tracks0 : gset string)
  : planning :=
  let st := main_pass (excludes c) (includes c) catalog
              {| space := budget; plan := tracks0; admitted := [] |} in
  if random_fill c
  then random_fill_loop sample (excludes c) (length catalog) catalog st
  else st.

(** *** Values passed as [end_signal] *)

(** [None], a [bool], or an object whose truth value another thread may
    change: [truth k] is what the [k]-th test of the object finds. *)
Inductive pyvalue :=
| PyNone
| PyBool (b : bool)
| PyObject (truth : nat → bool).

Definition truthy (v : pyvalue) (k : nat) : bool :=
  match v with
  | PyNone => false
  | PyBool b => b
  | PyObject truth => truth k
  end.

Section Engine.

(** [hibiki/constants.py] gives the place of the state file under the
    destination; its value is a parameter here. *)
Variable DEFAULT_LIBRARY_FILE_PATH : path.

(** What the world does with each track's bytes. *)
Variable transfer : iTunesTrack → copy_outcome.

(** [HibikiConfig.library_path]: the path is computed on the first
    access, and a blank file is generated if none exists then. *)
Definition library_path : M path :=
  h ← get_self;
  match _library_path (config h) with
  | Some p => mret p
  | None =>
      let p := destination (config h) ++ DEFAULT_LIBRARY_FILE_PATH in
      put_self (with_config h (set_library_path (config h) p));;
      w ← get_world;
      match library_files w !! p with
      | Some _ => mret p
      | None =>
          put_world (with_library_files w (<[p := Blank]> (library_files w)));;
          mret p
      end
  end.

(** The getter of [Hibiki.library_data]. *)
Definition library_data : M (gmap string path) :=
  p ← library_path;
  w ← get_world;
  match library_files w !! p with
  | None => raise FileNotFoundError               (* open(..., 'r') *)
  | Some file =>
      match json_load file with
      | Some data => mret data
      | None => mret ∅                            (* except ValueError *)
      end
  end.

(** The setter of [Hibiki.library_data]. *)
Definition set_library_data (value : gmap string path) : M unit :=
  p ← library_path;
  w ← get_world;
  put_world (with_library_files w (<[p := Document value]> (library_files w))).

(** [file[0] != '.'] *)
Definition visible (file : string) : bool :=
  match file with
  | String c _ => negb (bool_decide (c = "."%char))
  | EmptyString => true
  end.

Definition file_count (w : World) (directory : path) : Z :=
  Z.of_nat (length (filter (λ f, visible f = true) (listdir w directory))).

(** The [while True] loop of [target_directory], from subfolder [sub].
    It yields the subfolder it stops at, the directory and the world. *)
Fixpoint target_directory_loop (fuel : nat) (c : HibikiConfig)
    (w : World) (sub : nat) : option (nat * path * World) :=
  match fuel with
  | O => None
  | S fuel' =>
      let directory := join (destination c) [pretty sub] in
      if isdir w directory then
        if (file_count w directory <? max_file_count c)%Z
        then Some (sub, directory, w)
        else target_directory_loop fuel' c w (S sub)
      else Some (sub, directory, makedirs w directory)
  end.

(** The property [Hibiki.target_directory]. *)
Definition target_directory : M path :=
  h ← get_self;
  if use_subfolders (config h) then
    w ← get_world;
    match target_directory_loop (S (base.size (dirs w))) (config h) w
            (_subfolder h) with
    | Some (sub, directory, w') =>
        put_self (with_subfolder h sub);;
        put_world w';;
        mret directory
    | None => raise LoopFuelExhausted
    end
  else mret (destination (config h)).

(** [Hibiki._copy_file] *)
Definition _copy_file (track : iTunesTrack) : M path :=
  directory ← target_directory;
  let destination_path := join directory [filename track] in
  match transfer track with
  | Copied bytes =>
      w ← get_world;
      put_world (with_files w (<[destination_path := bytes]> (files w)));;
      mret destination_path
  | SourceFails e => raise (OSError e)
  | DestinationFails e => raise (OSError e)
  | WriteFails e written =>
      w ← get_world;
      put_world (with_files w (<[destination_path := written]> (files w)));;
      raise (OSError e)
  end.

(** The loop of [Hibiki._clean_sync_list] over [library.copy()]. *)
Fixpoint _clean_sync_list_loop (delete_callback error_callback : bool)
    (snapshot : list (string * path)) (library : gmap string path)
  : M (gmap string path) :=
  match snapshot with
  | [] => mret library
  | (track, rel) :: rest =>                       (* rel = library[track] *)
      h ← get_self;
      if bool_decide (track ∈ tracks h) then
        put_self (with_tracks h (tracks h ∖ {[track]}));;
        _clean_sync_list_loop delete_callback error_callback rest library
      else
        let p := join (destination (config h)) rel in
        w ← get_world;
        match remove w p with
        | None =>                                 (* FileNotFoundError *)
            callback error_callback (error (OfPath p) FileNotFoundError);;
            _clean_sync_list_loop delete_callback error_callback rest
              library                             (* continue *)
        | Some w' =>
            put_world w';;
            callback delete_callback
              (before_delete
                 match track_by_persistent_id (itunes h) track with
                 | Some data => OfTrack data
                 | None => OfPath rel
                 end);;
            _clean_sync_list_loop delete_callback error_callback rest
              (delete track library)
        end
  end.

Definition _clean_sync_list (delete_callback error_callback : bool)
  : M unit :=
  library ← library_data;
  library' ← _clean_sync_list_loop delete_callback error_callback
               (map_to_list library) library;
  set_library_data library'.

(** [Hibiki._mark_file] *)
Definition _mark_file (track : iTunesTrack) (destination_path : path)
  : M unit :=
  data ← library_data;
  h ← get_self;
  set_library_data
    (<[persistent_id track :=
         relpath destination_path (destination (config h))]> data).

(** [Hibiki.space_available] *)
Definition space_available (reserve : Z) : M Z :=
  w ← get_world;
  let space := (f_bavail w * f_frsize w)%Z in
  mret (space - reserve * 1024 * 1024)%Z.

(** [Hibiki.full_library_path] *)
Definition full_library_path (h : Hibiki) (track : path) : path :=
  join (destination (config h)) track.

(** The loop of [Hibiki.calculate_space] over [library.copy()]. *)
Fixpoint calculate_space_loop (h : Hibiki) (w : World)
    (snapshot : list (string * path)) (library : gmap string path)
    (available : Z) : gmap string path * Z :=
  match snapshot with
  | [] => (library, available)
  | (track, rel) :: rest =>                       (* rel = library[track] *)
      match stat_size w (full_library_path h rel) with
      | None =>                                   (* FileNotFoundError *)
          calculate_space_loop h w rest (delete track library) available
      | Some st_size =>
          calculate_space_loop h w rest library (available + st_size)%Z
      end
  end.

Definition calculate_space : M Z :=
  available ← space_available 5;
  library ← library_data;
  h ← get_self;
  w ← get_world;
  let '(library', available') :=
    calculate_space_loop h w (map_to_list library) library available in
  set_library_data library';;
  mret available'.

(** The [while not end_signal] loop of [Hibiki.copy_tracks].
    [tests] counts the tests of [end_signal] made so far; [destination]
    is the local variable of that name, [None] while it is unbound. *)
Fixpoint copy_tracks_loop
    (after_callback before_callback error_callback : bool)
    (end_signal : pyvalue) (tests : nat)
    (track_iterator : list iTunesTrack) (destination : option path)
  : M unit :=
  if truthy end_signal tests then mret ()
  else
    match track_iterator with
    | [] => mret ()                               (* StopIteration *)
    | track :: rest =>
        let continue destination :=
          copy_tracks_loop after_callback before_callback error_callback
            end_signal (S tests) rest destination in
        h ← get_self;
        if bool_decide (persistent_id track ∈ tracks h) then
          callback before_callback (before_copy track);;
          r ← try (_copy_file track);
          match r with
          | Return copied =>
              _mark_file track copied;;
              callback after_callback (after_copy track);;
              continue (Some copied)
          | Raise e =>
              if is_OSError e then                (* except OSError *)
                match destination with
                | None => raise (UnboundLocalError "destination")
                | Some previous =>
                    w ← get_world;
                    match remove w previous with
                    | None => raise FileNotFoundError
                    | Some w' =>
                        put_world w';;
                        if error_callback then
                          callback true (error (OfTrack track) e);;
                          continue destination
                        else
                          _mark_file track previous;;
                          callback after_callback (after_copy track);;
                          continue destination
                    end
                end
              else raise e
          end
        else continue destination
    end.

(** [Hibiki.copy_tracks] *)
Definition copy_tracks
    (after_callback before_callback error_callback : bool)
    (end_signal : pyvalue) : M unit :=
  h ← get_self;
  let track_iterator := Itunes.tracks (itunes h) in
  let end_signal :=
    if negb (truthy end_signal 0) then PyBool false else end_signal in
  copy_tracks_loop after_callback before_callback error_callback
    end_signal 1 track_iterator None.

(** [Hibiki.generate_sync_list] *)
Definition generate_sync_list (sample : nat → nat)
    (delete_callback error_callback : bool) : M unit :=
  space ← calculate_space;
  h ← get_self;
  let c := set_filters (config h)
             (get_playlist_tracks (itunes h) (excludes (config h)))
             (get_playlist_tracks (itunes h) (includes (config h))) in
  let st := admission sample c (Itunes.tracks (itunes h)) space (tracks h) in
  put_self (with_tracks (with_config h c) (plan st));;
  _clean_sync_list delete_callback error_callback.

End Engine.
End Core.

Import Itunes Os Config Core.

(** ** [hibiki/itunes.py]: the listings offered for selection *)

Module Listing.
Import Itunes.

Section Sorted.

(** [str.lower]; strings are compared as Python compares them, code point
    by code point (byte by byte on their UTF-8 form). *)
Variable lower : string → string.

(** [x.lower() <= y.lower()] *)
Definition key_le (x y : string) : bool := String.leb (lower x) (lower y).

(** [sorted(..., key=lambda x: x.lower())]: the sort is stable, so its
    result is that of an insertion that puts an item before the first one
    whose key is not smaller. *)
Fixpoint insert_by_key (x : string) (l : list string) : list string :=
  match l with
  | [] => [x]
  | y :: rest =>
      if key_le x y then x :: y :: rest else y :: insert_by_key x rest
  end.

Definition sorted (l : list string) : list string :=
  foldr insert_by_key [] l.

(** [items.add(item)] under [if item:], which lets neither [None] nor the
    empty string through. *)
Definition add_item (items : gset string) (item : option string)
  : gset string :=
  match item with
  | Some (String c s) => items ∪ {[String c s]}
  | Some EmptyString | None => items
  end.

(** [iTunesLibrary._get_all_track_info], for the attribute read by
    [getattr(track, name)]; [list(items)] lists the set in some order. *)
Definition _get_all_track_info (attribute : iTunesTrack → option string)
    (lib : iTunesLibrary) : list string :=
  let items := foldl (λ items track, add_item items (attribute track)) ∅
                 (tracks lib) in
  sorted (elements items).

Definition all_albums := _get_all_track_info album.
Definition all_artists := _get_all_track_info artist.
Definition all_genres := _get_all_track_info genre.

(** [iTunesLibrary.all_playlists] *)
Definition all_playlists (lib : iTunesLibrary) : list string :=
  let names : gset string :=
    foldl (λ names playlist, names ∪ {[playlist_name playlist]}) ∅
      (playlists lib) in
  sorted (elements names).

End Sorted.
End Listing.

(** ** [hibiki/config.py]: what is kept on the destination *)

Module Files.
Import Os.

(** [os.path.dirname] *)
Definition dirname (p : path) : path := removelast p.

Section Tree.

(** The directories and the regular files. *)
Variables directories regular : gset path.

(** A directory that can be entered: one that exists, or the one every
    relative path starts from. *)
Definition entered (dir : path) : bool :=
  bool_decide (dir = []) || bool_decide (dir ∈ directories).

(** The [errno] for a path under a directory that cannot be entered:
    ENOTDIR if the nearest ancestor that exists is a regular file, ENOENT
    if it is a directory, which then lacks the next component. [up] is
    the directory from its last component upwards. *)
Fixpoint blocked (up : list string) : errno :=
  match up with
  | [] => ENOENT
  | _ :: above =>
      if bool_decide (reverse up ∈ regular) then EOTHER
      else if bool_decide (reverse up ∈ directories) then ENOENT
      else blocked above
  end.

(** [open(path, 'w')]: [None] when the file is created or truncated,
    the [errno] of the [OSError] otherwise. *)
Definition open_for_writing (p : path) : option errno :=
  if bool_decide (p ∈ directories) then Some EOTHER       (* EISDIR *)
  else if entered (dirname p) then None
  else Some (blocked (reverse (dirname p))).

(** [os.path.exists] *)
Definition exists_ (p : path) : bool :=
  bool_decide (p ∈ directories) || bool_decide (p ∈ regular).

(** [os.mkdir]: the directories afterwards, or the [errno]. *)
Definition mkdir (p : path) : gset path + errno :=
  if exists_ p then inr EOTHER                            (* EEXIST *)
  else if entered (dirname p) then inl ({[p]} ∪ directories)
  else inr (blocked (reverse (dirname p))).

End Tree.

(** The regular files of the world of the engine. *)
Definition regular_files (w : World) : gset path :=
  dom (files w) ∪ dom (library_files w) ∪ dom (filter_files w).

Definition with_filter_files (w : World) (fs : gmap path FilterFile) : World :=
  {| files := files w; dirs := dirs w; library_files := library_files w;
     filter_files := fs; f_bavail := f_bavail w; f_frsize := f_frsize w;
     log := log w |}.

End Files.

Module Filters.
Import Itunes Os Config Files.

Definition with_albums (f : HibikiConfigFilters) (s : gset string)
  : HibikiConfigFilters :=
  {| filter_filename := filter_filename f; albums := s; artists := artists f;
     genres := genres f; playlists := playlists f; tracks := tracks f |}.

Definition with_artists (f : HibikiConfigFilters) (s : gset string)
  : HibikiConfigFilters :=
  {| filter_filename := filter_filename f; albums := albums f; artists := s;
     genres := genres f; playlists := playlists f; tracks := tracks f |}.

Definition with_genres (f : HibikiConfigFilters) (s : gset string)
  : HibikiConfigFilters :=
  {| filter_filename := filter_filename f; albums := albums f;
     artists := artists f; genres := s; playlists := playlists f;
     tracks := tracks f |}.

Definition with_playlists (f : HibikiConfigFilters) (s : gset string)
  : HibikiConfigFilters :=
  {| filter_filename := filter_filename f; albums := albums f;
     artists := artists f; genres := genres f; playlists := s;
     tracks := tracks f |}.

Definition add_album (f : HibikiConfigFilters) (name : string) :=
  with_albums f (albums f ∪ {[name]}).
Definition add_artist (f : HibikiConfigFilters) (name : string) :=
  with_artists f (artists f ∪ {[name]}).
Definition add_genre (f : HibikiConfigFilters) (name : string) :=
  with_genres f (genres f ∪ {[name]}).
Definition add_playlist (f : HibikiConfigFilters) (name : string) :=
  with_playlists f (playlists f ∪ {[name]}).

(** [HibikiConfigFilters.clear] *)
Definition clear (f : HibikiConfigFilters) : HibikiConfigFilters :=
  {| filter_filename := filter_filename f; albums := ∅; artists := ∅;
     genres := ∅; playlists := ∅; tracks := ∅ |}.

(** [HibikiConfigFilters.serialize]: the groups that are not empty, each
    as the list of its names in some order; the track ids resolved from
    the playlists are not part of it. *)
Definition serialize (f : HibikiConfigFilters) : gmap string (list string) :=
  foldl (λ (output : gmap string (list string))
           '((group, items) : string * gset string),
           if bool_decide (0 < base.size items)     (* len(items) > 0 *)
           then <[group := elements items]> output
           else output)
    ∅
    [("albums", albums f); ("artists", artists f); ("genres", genres f);
     ("playlists", playlists f)].

(** [HibikiConfigFilters.save_to_file] *)
Definition save_to_file (w : World) (c : HibikiConfig)
    (f : HibikiConfigFilters) (path_arg : option path)
  : outcome unit * World :=
  let p := match path_arg with                      (* if not path: *)
           | Some (x :: l) => x :: l
           | _ => filters_path c f
           end in
  match open_for_writing (dirs w) (regular_files w) p with
  | Some e => (Raise (OSError e), w)                (* open(path, 'w') *)
  | None =>
      (Return (),
       with_filter_files w (<[p := Groups (serialize f)]> (filter_files w)))
  end.

End Filters.

Module Destination.
Import Os Config.

(** The setter of [HibikiConfig.destination], for a value that is not
    [None]. *)
Definition set_destination (w : World) (c : HibikiConfig) (value : path)
  : outcome unit * HibikiConfig :=
  if isdir w value then
    (Return (),
     {| destination := value; _library_path := _library_path c;
        excludes := excludes c; includes := includes c;
        max_file_count := max_file_count c; random_fill := random_fill c;
        use_subfolders := use_subfolders c |})
  else (Raise (BadDestinationError "Destination not a directory"), c).

End Destination.

Module Settings.
Import Os Files.

#[local] Set Warnings "-register-all".

(** The values [json.load] produces and [json.dump] writes. *)
Inductive json :=
| JNull
| JBool (b : bool)
| JInt (n : Z)
| JFloat (repr : string)
| JString (s : string)
| JArray (items : list json)
| JObject (members : list (string * json)).

(** A regular file as [json.load] reads it. *)
Inductive ConfigFile :=
| Unreadable                        (* json.load raises ValueError *)
| NotAnObject                       (* a JSON value that has no [get] *)
| Object (data : gmap string json).

(** The directories, with the world of the engine, and the regular files
    as [json.load] reads them. *)
Record Disk := {
  world : World;
  config_files : gmap path ConfigFile;
}.

Definition with_dirs (d : Disk) (ds : gset path) : Disk :=
  {| world := Os.with_dirs (world d) ds; config_files := config_files d |}.

Definition with_config_files (d : Disk) (fs : gmap path ConfigFile) : Disk :=
  {| world := world d; config_files := fs |}.

(** What these methods raise besides the exceptions of the engine. *)
Inductive error :=
| Raised (e : exn)
| AttributeError (attribute : string)
| TypeError.

Inductive result (A : Type) :=
| Ok (a : A)
| Error (e : error).
Arguments Ok {A} a.
Arguments Error {A} e.

(** The attributes of a [HibikiConfig] that its file is about. A setting
    holds whatever was assigned to it or read from the file. *)
Record Settings := {
  destination : option path;
  itunes_path : json;
  max_file_count : json;
  random_fill : json;
  use_subfolders : json;
}.

(** [HibikiConfig.__init__] without a destination. *)
Definition initial : Settings :=
  {| destination := None; itunes_path := JNull; max_file_count := JInt 0;
     random_fill := JBool false; use_subfolders := JBool false |}.

Section Paths.

(** [hibiki/constants.py] gives the place of the config file under the
    destination; its value is a parameter here. *)
Variable DEFAULT_CONFIG_FILE_PATH : path.

(** [os.path.join(self.destination, ...)]: a [TypeError] while the
    destination is [None]. *)
Definition config_folder (s : Settings) : result path :=
  match destination s with
  | Some d => Ok (d ++ [".hibiki"])
  | None => Error TypeError
  end.

Definition config_path (s : Settings) : result path :=
  match destination s with
  | Some d => Ok (d ++ DEFAULT_CONFIG_FILE_PATH)
  | None => Error TypeError
  end.

(** [path] when it is given and not empty, [self.config_path] otherwise. *)
Definition path_or_default (s : Settings) (path_arg : option path)
  : result path :=
  match path_arg with
  | Some (x :: l) => Ok (x :: l)
  | _ => config_path s
  end.

Definition exists_ (d : Disk) (p : path) : bool :=
  Files.exists_ (dirs (world d)) (dom (config_files d)) p.

(** [HibikiConfig.config_exists] *)
Definition config_exists (d : Disk) (s : Settings) : result bool :=
  match config_path s with
  | Ok p => Ok (bool_decide (p ∈ dom (config_files d)))   (* os.path.isfile *)
  | Error e => Error e
  end.

(** [HibikiConfig.load_config_file]: the settings afterwards, or what is
    raised (the settings are then as they were). *)
Definition load_config_file (d : Disk) (s : Settings)
    (path_arg : option path) : result Settings :=
  match path_or_default s path_arg with
  | Error e => Error e
  | Ok p =>
      if negb (exists_ d p)
      then Error (Raised (InvalidConfigError "Config file does not exist"))
      else
        match config_files d !! p with
        | None => Error (Raised (OSError EOTHER))   (* open of a directory *)
        | Some Unreadable =>
            Error (Raised (InvalidConfigError "Config cannot be read"))
        | Some NotAnObject => Error (AttributeError "get")
        | Some (Object data) =>
            Ok {| destination := destination s;
                  itunes_path := default (itunes_path s) (data !! "itunes_path");
                  max_file_count :=
                    default (max_file_count s) (data !! "max_file_count");
                  random_fill := default (random_fill s) (data !! "random_fill");
                  use_subfolders :=
                    default (use_subfolders s) (data !! "use_subfolders") |}
        end
  end.

(** The dictionary [save_config_file] dumps. *)
Definition dumped (s : Settings) : gmap string json :=
  <["use_subfolders" := use_subfolders s]>
    (<["random_fill" := random_fill s]>
       (<["max_file_count" := max_file_count s]>
          (<["itunes_path" := itunes_path s]> ∅))).

(** [HibikiConfig.save_config_file]: what is raised, if anything, and the
    disk as the call leaves it. *)
Definition save_config_file (d : Disk) (s : Settings)
    (path_arg : option path) : result unit * Disk :=
  match path_or_default s path_arg with
  | Error e => (Error e, d)
  | Ok p =>
      match config_folder s with
      | Error e => (Error e, d)
      | Ok folder =>
          let made :=
            if exists_ d folder then inl (dirs (world d))
            else mkdir (dirs (world d)) (dom (config_files d)) folder in
          match made with
          | inr e => (Error (Raised (OSError e)), d)
          | inl ds =>
              let d1 := with_dirs d ds in
              match open_for_writing ds (dom (config_files d)) p with
              | Some e => (Error (Raised (OSError e)), d1)
              | None =>
                  (Ok (),
                   with_config_files d1
                     (<[p := Object (dumped s)]> (config_files d1)))
              end
          end
      end
  end.

End Paths.

End Settings.

(** ** [CLI.py]: the selection screens *)

Module Cli.
Import Itunes Os Config Files Filters Listing.

(** The two filter objects of the configuration and their four groups. *)
Inductive owner := Includes | Excludes.
Inductive group := Artists | Albums | Genres | Playlists.

#[export] Instance owner_eq_dec : EqDecision owner.
Proof. solve_decision. Defined.

#[export] Instance group_eq_dec : EqDecision group.
Proof. solve_decision. Defined.

Definition filters_of (c : HibikiConfig) (o : owner) : HibikiConfigFilters :=
  match o with Includes => includes c | Excludes => excludes c end.

Definition with_filters_of (c : HibikiConfig) (o : owner)
    (f : HibikiConfigFilters) : HibikiConfig :=
  match o with
  | Includes => set_filters c (excludes c) f
  | Excludes => set_filters c f (includes c)
  end.

(** The set an option was given as [source]: the attribute of the filter
    object, shared with it. *)
Definition source_of (c : HibikiConfig) (o : owner) (g : group)
  : gset string :=
  match g with
  | Artists => artists (filters_of c o)
  | Albums => albums (filters_of c o)
  | Genres => genres (filters_of c o)
  | Playlists => playlists (filters_of c o)
  end.

(** [options.source.clear()] *)
Definition clear_source (c : HibikiConfig) (o : owner) (g : group)
  : HibikiConfig :=
  with_filters_of c o
    match g with
    | Artists => with_artists (filters_of c o) ∅
    | Albums => with_albums (filters_of c o) ∅
    | Genres => with_genres (filters_of c o) ∅
    | Playlists => with_playlists (filters_of c o) ∅
    end.

(** [options.add(value)], through [add_artist], [add_album], [add_genre]
    or [add_playlist] of the filter object. *)
Definition add (c : HibikiConfig) (o : owner) (g : group) (value : string)
  : HibikiConfig :=
  with_filters_of c o
    match g with
    | Artists => add_artist (filters_of c o) value
    | Albums => add_album (filters_of c o) value
    | Genres => add_genre (filters_of c o) value
    | Playlists => add_playlist (filters_of c o) value
    end.

Record SelectionOption := {
  title : string;
  items : list string;
  of_owner : owner;
  of_group : group;
}.

(** A [urwid.CheckBox]: its label and its state. *)
Record CheckBox := {
  label : string;
  state : bool;
}.

(** A [SelectionPrompt], with the configuration and the files of the
    application it belongs to; [copies] counts the calls of
    [parent.open_copy()]. *)
Record SelectionPrompt := {
  index : nat;
  item_count : nat;
  options : list SelectionOption;
  selected : Z;
  body : list CheckBox;
  config : HibikiConfig;
  world : World;
  copies : nat;
}.

Definition with_world (p : SelectionPrompt) (w : World) : SelectionPrompt :=
  {| index := index p; item_count := item_count p; options := options p;
     selected := selected p; body := body p; config := config p;
     world := w; copies := copies p |}.

Inductive raised :=
| IndexError
| Other (e : exn).

Inductive returned (A : Type) :=
| Done (a : A)
| Raises (e : raised).
Arguments Done {A} a.
Arguments Raises {A} e.

(** [HibikiCLI.open_copy]: both filter objects are saved, then the copy
    screen is opened, which starts the thread that plans and copies. *)
Definition open_copy (p : SelectionPrompt) : returned unit * SelectionPrompt :=
  match save_to_file (world p) (config p) (includes (config p)) None with
  | (Raise e, w) => (Raises (Other e), with_world p w)
  | (Return _, w) =>
      match save_to_file w (config p) (excludes (config p)) None with
      | (Raise e, w') => (Raises (Other e), with_world p w')
      | (Return _, w') =>
          (Done (),
           {| index := index p; item_count := item_count p;
              options := options p; selected := selected p; body := body p;
              config := config p; world := w'; copies := S (copies p) |})
      end
  end.

Section Screens.
Variable lower : string → string.

(** [SelectionPrompt._init_options]: a filter file that is missing or
    malformed is passed over. *)
Definition load_or_pass (w : World) (c : HibikiConfig) (o : owner)
  : returned HibikiConfig :=
  match load_from_file w c (filters_of c o) None with
  | (Return _, f) => Done (with_filters_of c o f)
  | (Raise e, f) =>
      if is_FileNotFoundError e then Done (with_filters_of c o f)
      else match e with
           | InvalidConfigError _ => Done (with_filters_of c o f)
           | _ => Raises (Other e)
           end
  end.

Definition listed (lib : iTunesLibrary) : list SelectionOption :=
  [ {| title := "INCLUDE ARTISTS"; items := all_artists lower lib;
       of_owner := Includes; of_group := Artists |};
    {| title := "INCLUDE ALBUMS"; items := all_albums lower lib;
       of_owner := Includes; of_group := Albums |};
    {| title := "INCLUDE GENRES"; items := all_genres lower lib;
       of_owner := Includes; of_group := Genres |};
    {| title := "INCLUDE PLAYLISTS"; items := all_playlists lower lib;
       of_owner := Includes; of_group := Playlists |};
    {| title := "EXCLUDE ARTISTS"; items := all_artists lower lib;
       of_owner := Excludes; of_group := Artists |};
    {| title := "EXCLUDE ALBUMS"; items := all_albums lower lib;
       of_owner := Excludes; of_group := Albums |};
    {| title := "EXCLUDE GENRES"; items := all_genres lower lib;
       of_owner := Excludes; of_group := Genres |};
    {| title := "EXCLUDE PLAYLISTS"; items := all_playlists lower lib;
       of_owner := Excludes; of_group := Playlists |} ].

Definition _init_options (lib : iTunesLibrary) (p : SelectionPrompt)
  : returned unit * SelectionPrompt :=
  match load_or_pass (world p) (config p) Includes with
  | Raises e => (Raises e, p)
  | Done c1 =>
      match load_or_pass (world p) c1 Excludes with
      | Raises e => (Raises e, p)
      | Done c2 =>
          (Done (),
           {| index := index p; item_count := item_count p;
              options := options p ++ listed lib; selected := selected p;
              body := body p; config := c2; world := world p;
              copies := copies p |})
      end
  end.

End Screens.

(** The boxes [generate_checkboxes] makes for an option: one per item,
    checked when the item is in the option's source. *)
Definition boxes (c : HibikiConfig) (option : SelectionOption)
  : list CheckBox :=
  (λ choice,
     {| label := choice;
        state := bool_decide (choice ∈ source_of c (of_owner option)
                                          (of_group option)) |})
    <$> items option.

Definition checked (l : list CheckBox) : list CheckBox :=
  filter (λ box, state box = true) l.

(** [SelectionPrompt.generate_checkboxes] *)
Definition generate_checkboxes (p : SelectionPrompt)
  : returned unit * SelectionPrompt :=
  match options p !! index p with
  | None => open_copy p                             (* except IndexError *)
  | Some option =>
      let made := boxes (config p) option in
      (Done (),
       {| index := index p; item_count := length (items option);
          options := options p;
          selected := selected p + Z.of_nat (length (checked made));
          body := made;
          config := clear_source (config p) (of_owner option)
                      (of_group option);
          world := world p; copies := copies p |})
  end.

(** [SelectionPrompt.save] *)
Definition save (p : SelectionPrompt) : returned unit * SelectionPrompt :=
  match checked (body p), options p !! index p with
  | _ :: _, None => (Raises IndexError, p)          (* self.options[...] *)
  | ticked, current =>
      let c := match current with
               | Some option =>
                   foldl (λ c box, add c (of_owner option) (of_group option)
                                     (label box))
                     (config p) ticked
               | None => config p
               end in
      generate_checkboxes
        {| index := S (index p); item_count := item_count p;
           options := options p; selected := 0; body := body p;
           config := c; world := world p; copies := copies p |}
  end.

(** [SelectionPrompt.skip]: [while True], with [fuel] turns at most;
    [None] when the loop is still running after them. *)
Fixpoint skip (fuel : nat) (p : SelectionPrompt)
  : option (returned unit * SelectionPrompt) :=
  match fuel with
  | O => None
  | S fuel' =>
      match save p with
      | (Raises IndexError, p') => Some (Done (), p')     (* break *)
      | (Raises e, p') => Some (Raises e, p')
      | (Done _, p') => skip fuel' p'
      end
  end.

(** [SelectionPrompt.__init__] for the application's configuration and
    files and the catalog of [hibiki.itunes]. *)
Definition new (lower : string → string) (lib : iTunesLibrary)
    (c : HibikiConfig) (w : World) : returned unit * SelectionPrompt :=
  let p := {| index := 0; item_count := 0; options := []; selected := 0;
              body := []; config := c; world := w; copies := 0 |} in
  match _init_options lower lib p with
  | (Raises e, p') => (Raises e, p')
  | (Done _, p') => generate_checkboxes p'
  end.

End Cli.

(** * Concrete catalogs, configurations and worlds *)

Module Scenario.
Local Open Scope Z_scope.

Definition track (id : Z) (pid : string) (by_artist : string) (bytes : Z)
    (file : string) : iTunesTrack :=
  {| track_id := id; persistent_id := pid; name := Some pid;
     artist := Some by_artist; album := None; genre := None;
     size := bytes; location := ["Music"; by_artist; file] |}.

Definition track1 := track 1 "id1" "Ayumi" 600 "one.mp3".
Definition track2 := track 2 "id2" "Ayumi" 500 "two.mp3".
Definition track3 := track 3 "id3" "Ayumi" 100 "three.mp3".
Definition other1 := track 4 "id4" "Boris" 600 "four.mp3".
Definition other2 := track 5 "id5" "Boris" 600 "five.mp3".
Definition banned := track 6 "id6" "Ayumi" 10 "six.mp3".

Definition filters (fname : string) (by_artist : list string)
    (ids : list Z) : HibikiConfigFilters :=
  {| filter_filename := fname; albums := ∅;
     artists := list_to_set by_artist; genres := ∅; playlists := ∅;
     Config.tracks := list_to_set ids |}.

Definition configuration (ex inc : HibikiConfigFilters) (subfolders : bool)
    (per_folder : Z) (fill : bool) : HibikiConfig :=
  {| destination := ["mnt"]; _library_path := None;
     excludes := ex; includes := inc; max_file_count := per_folder;
     random_fill := fill; use_subfolders := subfolders |}.

(** Everything by Ayumi is included, nothing is excluded. *)
Definition flat : HibikiConfig :=
  configuration (filters "excludes" [] []) (filters "includes" ["Ayumi"] [])
    false 0 false.

(** The same with numbered subfolders of at most two files. *)
Definition subfoldered : HibikiConfig :=
  configuration (filters "excludes" [] []) (filters "includes" ["Ayumi"] [])
    true 2 false.

(** Nothing is included, the plan is filled at random. *)
Definition filling : HibikiConfig :=
  configuration (filters "excludes" [] []) (filters "includes" [] [])
    false 0 true.

(** Everything by Ayumi is included, track 6 is excluded. *)
Definition excluding : HibikiConfig :=
  configuration (filters "excludes" [] [6]) (filters "includes" ["Ayumi"] [])
    false 0 true.

Definition state_file : path := [".hibiki"; "library"].

(** An empty destination with [free] bytes available beyond the reserve. *)
Definition empty_world (free : Z) : World :=
  {| files := ∅; dirs := {[ ["mnt"] ]}; library_files := ∅;
     filter_files := ∅; f_bavail := 5 * 1024 * 1024 + free; f_frsize := 1;
     log := [] |}.

(** A destination that holds the files of [store] and records them. *)
Definition synced_world (free : Z) (present : list (path * Z))
    (store : list (string * path)) : World :=
  {| files := list_to_map present; dirs := {[ ["mnt"] ]};
     library_files := {[ ["mnt"; ".hibiki"; "library"] :=
                           Document (list_to_map store) ]};
     filter_files := ∅; f_bavail := 5 * 1024 * 1024 + free; f_frsize := 1;
     log := [] |}.

Definition catalog (l : list iTunesTrack) : iTunesLibrary :=
  {| _tracks := l; _playlists := [] |}.

Definition machine (c : HibikiConfig) (l : list iTunesTrack) (w : World)
  : Machine :=
  {| self := Core.new c (catalog l); world := w |}.

(** Every copy succeeds and writes as many bytes as the catalog says. *)
Definition all_copied (t : iTunesTrack) : copy_outcome := Copied (size t).

(** The copy of the track with persistent id [pid] fails as [how]. *)
Definition failing (pid : string) (how : copy_outcome) (t : iTunesTrack)
  : copy_outcome :=
  if bool_decide (persistent_id t = pid) then how else Copied (size t).

End Scenario.

(** * The planner *)

Section Planner.
Local Open Scope Z_scope.

Lemma total_size_app l1 l2 :
  total_size (l1 ++ l2) = total_size l1 + total_size l2.
Proof.
  induction l1 as [|t l1 IH]; simpl; [done|]. rewrite IH. lia.
Qed.

(** Induction principles: a property of the planning state that every
    considered track preserves holds when the loops end. *)
Lemma main_pass_ind (P : planning → Prop) ex inc catalog st :
  P st →
  (∀ t st', t ∈ catalog → P st' → P (consider ex inc t st')) →
  P (main_pass ex inc catalog st).
Proof.
  revert st. induction catalog as [|t rest IH]; intros st Hst Hstep; simpl.
  - done.
  - apply IH.
    + apply Hstep; [left|done].
    + intros t' st' Hin. apply Hstep. by right.
Qed.

Lemma random_fill_loop_ind (P : planning → Prop) sample ex fuel music st :
  P st →
  (∀ t st', t ∈ music → P st' → P (consider_random ex t st')) →
  P (random_fill_loop sample ex fuel music st).
Proof.
  revert music st. induction fuel as [|fuel IH]; intros music st Hst Hstep.
  - done.
  - simpl. destruct (music !! _) as [t|] eqn:Hi; [|done].
    apply IH.
    + apply Hstep; [|done]. by eapply list_elem_of_lookup_2.
    + intros t' st' Hin. apply Hstep.
      by eapply list_elem_of_delete_inv.
Qed.

Lemma admission_ind (P : planning → Prop) sample c catalog budget tracks0 :
  P {| space := budget; plan := tracks0; admitted := [] |} →
  (∀ t st, t ∈ catalog → P st → P (consider (excludes c) (includes c) t st)) →
  (∀ t st, t ∈ catalog → P st → P (consider_random (excludes c) t st)) →
  P (admission sample c catalog budget tracks0).
Proof.
  intros H0 Hmain Hrand. unfold admission.
  destruct (random_fill c).
  - apply random_fill_loop_ind; [|done]. by apply main_pass_ind.
  - by apply main_pass_ind.
Qed.

(** The random-fill loop leaves when [music] is empty, not when the fuel
    is: more fuel than [length music] changes nothing. *)
Lemma random_fill_loop_fuel sample ex music st extra :
  random_fill_loop sample ex (length music + extra) music st
  = random_fill_loop sample ex (length music) music st.
Proof.
  remember (length music) as n eqn:Hn. revert music st Hn.
  induction n as [|n IH]; intros music st Hn.
  - destruct music; [|done]. by destruct extra.
  - simpl. destruct (music !! _) as [t|] eqn:Hi; [|done].
    apply IH. rewrite length_delete; [lia|]. by eexists.
Qed.

(** What the planner keeps true of the budget. *)
Definition budget_kept (budget : Z) (tracks0 : gset string) (st : planning)
  : Prop :=
  space st = budget - total_size (admitted st)
  ∧ plan st = tracks0 ∪ list_to_set (persistent_id <$> admitted st)
  ∧ (∀ before t after, admitted st = before ++ t :: after →
       size t ≤ budget - total_size before)
  ∧ (admitted st = [] ∨ 0 ≤ space st).

Lemma budget_kept_admitting budget tracks0 t st :
  budget_kept budget tracks0 st → budget_kept budget tracks0 (admit_track t st).
Proof.
  intros (Hspace & Hplan & Hguard & Hpos). unfold admit_track.
  destruct (space st >=? size t) eqn:Hge; [|done].
  apply Z.geb_le in Hge. repeat split; simpl.
  - rewrite total_size_app. simpl. lia.
  - rewrite Hplan, fmap_app, list_to_set_app_L. simpl. set_solver +.
  - intros before t' after Heq.
    destruct (decide (after = [])) as [->|Hne].
    + apply app_inj_tail in Heq as [<- <-]. lia.
    + destruct (exists_last Hne) as (after' & t'' & ->).
      rewrite app_comm_cons, app_assoc in Heq.
      apply app_inj_tail in Heq as [Heq _]. by eapply Hguard.
  - right. lia.
Qed.

Lemma budget_kept_admission sample c catalog budget tracks0 :
  budget_kept budget tracks0 (admission sample c catalog budget tracks0).
Proof.
  apply admission_ind.
  - repeat split; simpl.
    + lia.
    + set_solver +.
    + intros [|??] ??; discriminate.
    + by left.
  - intros t st _ Hst. unfold consider.
    destruct (is_filtered (excludes c) t); [done|].
    destruct (is_filtered (includes c) t); [|done].
    by apply budget_kept_admitting.
  - intros t st _ Hst. unfold consider_random.
    destruct (negb (is_filtered (excludes c) t)); [|done].
    destruct (negb (bool_decide _)); [|done].
    by apply budget_kept_admitting.
Qed.

(** Only tracks of the catalog that the exclude filters let through are
    ever admitted. *)
Lemma admitted_not_excluded sample c catalog budget tracks0 t :
  t ∈ admitted (admission sample c catalog budget tracks0) →
  t ∈ catalog ∧ is_filtered (excludes c) t = false.
Proof.
  revert t. apply admission_ind.
  - simpl. intros t Hin. by apply elem_of_nil in Hin.
  - intros t st Hin Hst t'. unfold consider, admit_track.
    destruct (is_filtered (excludes c) t) eqn:Hex; [apply Hst|].
    destruct (is_filtered (includes c) t); [|apply Hst].
    destruct (space st >=? size t); [|apply Hst]. simpl.
    rewrite elem_of_app, list_elem_of_singleton. intros [?| ->]; auto.
  - intros t st Hin Hst t'. unfold consider_random, admit_track.
    destruct (is_filtered (excludes c) t) eqn:Hex; simpl; [apply Hst|].
    destruct (negb (bool_decide _)); [|apply Hst].
    destruct (space st >=? size t); [|apply Hst]. simpl.
    rewrite elem_of_app, list_elem_of_singleton. intros [?| ->]; auto.
Qed.

End Planner.

(** * C1: the budget *)

Section Budget.
Local Open Scope Z_scope.

(** Scenario A, for any two tracks of these sizes that are included and
    not excluded, with or without random fill. *)
Lemma scenario_A sample c t1 t2 :
  size t1 = 600 → size t2 = 500 →
  is_filtered (excludes c) t1 = false → is_filtered (excludes c) t2 = false →
  is_filtered (includes c) t1 = true → is_filtered (includes c) t2 = true →
  admission sample c [t1; t2] 1000 ∅
  = {| space := 400; plan := ∅ ∪ {[persistent_id t1]}; admitted := [] ++ [t1] |}.
Proof.
  intros Hs1 Hs2 Hx1 Hx2 Hi1 Hi2.
  assert (Hmain : main_pass (excludes c) (includes c) [t1; t2]
                    {| space := 1000; plan := ∅; admitted := [] |}
                  = {| space := 400; plan := ∅ ∪ {[persistent_id t1]};
                       admitted := [] ++ [t1] |}).
  { simpl. unfold consider, admit_track. simpl. rewrite Hx1, Hi1, Hs1. simpl.
    rewrite Hx2, Hi2, Hs2. done. }
  unfold admission. rewrite Hmain. destruct (random_fill c); [|done].
  apply random_fill_loop_ind; [done|].
  intros t st' Hin ->. unfold consider_random, admit_track. simpl.
  apply elem_of_cons in Hin as [->|Hin].
  - rewrite Hx1. simpl. rewrite bool_decide_true; [done|]. set_solver +.
  - apply list_elem_of_singleton in Hin as ->. rewrite Hx2. simpl.
    destruct (negb (bool_decide _)); [|done]. by rewrite Hs2.
Qed.

End Budget.

(** C1, as stated, fails: with a destination whose free space is below the
    reserve the effective budget is negative, nothing is admitted, and the
    sum of the admitted sizes, 0, exceeds the budget. Here 4 MiB are free
    on an empty destination: [calculate_space] returns -1048576. *)
Lemma admitted_sum_exceeds_negative_budget :
  let σ := Scenario.machine Scenario.flat [Scenario.track1; Scenario.track2]
             (Scenario.empty_world (-1048576)) in
  let st := admission (λ _, 0) Scenario.flat
              [Scenario.track1; Scenario.track2] (-1048576) ∅ in
  (calculate_space Scenario.state_file σ).1 = Return (-1048576)%Z
  ∧ admitted st = []
  ∧ ¬ (total_size (admitted st) ≤ -1048576)%Z.
Proof.
  intros σ st. split; [vm_compute; reflexivity|].
  split; [vm_compute; reflexivity|].
  vm_compute. intros H. by apply H.
Qed.

(** C1, amended. For every catalog and every initial effective budget: a
    track is admitted only if the budget remaining when it is considered is
    at least its size; each admission takes exactly that size off the budget
    (the remaining budget is the initial one minus the admitted sizes); at
    every admission the sum of the sizes admitted so far is at most the
    initial budget; and the sum of all admitted sizes never exceeds the
    budget when the budget is not negative or something was admitted (it
    never exceeds the larger of the budget and 0). With budget 1000 and two
    included tracks of sizes 600 then 500 only the first is admitted and 400
    remains. *)
Theorem planner_budget :
  (∀ sample c catalog (budget : Z) tracks0,
     let st := admission sample c catalog budget tracks0 in
     (∀ before t after, admitted st = before ++ t :: after →
        (size t ≤ budget - total_size before)%Z
        ∧ (total_size (before ++ [t]) ≤ budget)%Z)
     ∧ space st = (budget - total_size (admitted st))%Z
     ∧ plan st = tracks0 ∪ list_to_set (persistent_id <$> admitted st)
     ∧ (total_size (admitted st) ≤ Z.max budget 0)%Z
     ∧ ((0 ≤ budget)%Z ∨ admitted st ≠ [] →
        (total_size (admitted st) ≤ budget)%Z))
  ∧ (∀ sample c t1 t2,
       size t1 = 600%Z → size t2 = 500%Z →
       is_filtered (excludes c) t1 = false →
       is_filtered (excludes c) t2 = false →
       is_filtered (includes c) t1 = true →
       is_filtered (includes c) t2 = true →
       let st := admission sample c [t1; t2] 1000 ∅ in
       admitted st = [t1] ∧ space st = 400%Z ∧ plan st = {[persistent_id t1]}).
Proof.
  split.
  - intros sample c catalog budget tracks0 st.
    destruct (budget_kept_admission sample c catalog budget tracks0)
      as (Hspace & Hplan & Hguard & Hpos).
    fold st in Hspace, Hplan, Hguard, Hpos.
    repeat split; try done.
    + by eapply Hguard.
    + rewrite total_size_app. simpl. specialize (Hguard _ _ _ H). lia.
    + destruct Hpos as [->|Hpos]; simpl; lia.
    + intros [Hb|Hne]; destruct Hpos as [Hnil|Hpos]; try lia.
      * rewrite Hnil. simpl. lia.
      * done.
  - intros sample c t1 t2 Hs1 Hs2 Hx1 Hx2 Hi1 Hi2 st. unfold st.
    rewrite (scenario_A sample c t1 t2) by done. simpl.
    repeat split. by rewrite (left_id_L ∅ (∪)).
Qed.

(** Scenario A on a concrete catalog. *)
Lemma planner_budget_witness :
  let st := admission (λ _, 0) Scenario.flat
              [Scenario.track1; Scenario.track2] 1000 ∅ in
  admitted st = [Scenario.track1] ∧ space st = 400%Z
  ∧ plan st = {[persistent_id Scenario.track1]}.
Proof.
  apply (proj2 planner_budget (λ _, 0) Scenario.flat
           Scenario.track1 Scenario.track2); reflexivity.
Defined.

(** * C4: exclusion *)

(** C4. A track that the exclude filters match (whether or not the include
    filters match it too) is never admitted, in the main pass or in the
    random fill: considering it leaves the plan as it is, it is not among
    the admitted tracks, and its identifier is in the plan only if it was
    there before the planner ran or if it is also the identifier of a track
    of the catalog that is not excluded. *)
Theorem exclusion_dominates sample c catalog budget tracks0 t :
  is_filtered (excludes c) t = true →
  let st := admission sample c catalog budget tracks0 in
  (∀ st', consider (excludes c) (includes c) t st' = st'
          ∧ consider_random (excludes c) t st' = st')
  ∧ (t ∉ admitted st)
  ∧ (persistent_id t ∈ plan st →
     persistent_id t ∈ tracks0
     ∨ ∃ t', t' ∈ catalog ∧ is_filtered (excludes c) t' = false
             ∧ persistent_id t' = persistent_id t).
Proof.
  intros Hex st. split; [|split].
  - intros st'. unfold consider, consider_random. by rewrite Hex.
  - intros Hin. apply admitted_not_excluded in Hin as [_ Hin]. congruence.
  - destruct (budget_kept_admission sample c catalog budget tracks0)
      as (_ & Hplan & _). fold st in Hplan. rewrite Hplan.
    rewrite elem_of_union, elem_of_list_to_set, list_elem_of_fmap.
    intros [?|(t' & Hid & Hin)]; [by left|right].
    apply admitted_not_excluded in Hin as [??]. by exists t'.
Qed.

(** A track by an included artist that is excluded by its id. *)
Lemma exclusion_dominates_witness :
  is_filtered (includes Scenario.excluding) Scenario.banned = true
  ∧ Scenario.banned ∉ admitted
      (admission (λ _, 0) Scenario.excluding
         [Scenario.track1; Scenario.banned] 1000 ∅).
Proof.
  split; [reflexivity|].
  apply (exclusion_dominates (λ _, 0) Scenario.excluding
           [Scenario.track1; Scenario.banned] 1000 ∅ Scenario.banned).
  reflexivity.
Defined.

(** * The state store *)

Section StateStore.
Variable DEFAULT_LIBRARY_FILE_PATH : path.

(** Where [library_path] finds the state file of a [Hibiki] object. *)
Definition state_path (h : Hibiki) : path :=
  default (destination (config h) ++ DEFAULT_LIBRARY_FILE_PATH)
    (_library_path (config h)).

(** The store as the getter of [library_data] reads it from a world. *)
Definition store_at (σ : Machine) : gmap string path :=
  default ∅ (library_files (world σ) !! state_path (self σ) ≫= json_load).

(** The machine once [library_path] has been read. *)
Definition opened (σ : Machine) : Machine :=
  (library_path DEFAULT_LIBRARY_FILE_PATH σ).2.

(** The state file can be opened: it exists, or no access has fixed its
    path yet (the first access creates it). *)
Definition state_file_reachable (σ : Machine) : Prop :=
  is_Some (library_files (world σ) !! state_path (self σ))
  ∨ _library_path (config (self σ)) = None.

(** The state file is in place: its path is fixed and the file exists. *)
Definition state_file_ready (σ : Machine) : Prop :=
  _library_path (config (self σ)) = Some (state_path (self σ))
  ∧ is_Some (library_files (world σ) !! state_path (self σ)).

Lemma library_path_opened σ :
  library_path DEFAULT_LIBRARY_FILE_PATH σ
  = (Return (state_path (self σ)), opened σ).
Proof.
  unfold opened, library_path, state_path, mbind, M_bind, get_self,
    get_world, put_self, put_world, mret, M_ret. simpl.
  destruct (_library_path (config (self σ))); simpl; [done|].
  by destruct (library_files (world σ) !! _).
Qed.

Lemma opened_self σ :
  _subfolder (self (opened σ)) = _subfolder (self σ)
  ∧ itunes (self (opened σ)) = itunes (self σ)
  ∧ tracks (self (opened σ)) = tracks (self σ)
  ∧ state_path (self (opened σ)) = state_path (self σ)
  ∧ destination (config (self (opened σ))) = destination (config (self σ))
  ∧ excludes (config (self (opened σ))) = excludes (config (self σ))
  ∧ includes (config (self (opened σ))) = includes (config (self σ))
  ∧ max_file_count (config (self (opened σ)))
    = max_file_count (config (self σ))
  ∧ random_fill (config (self (opened σ))) = random_fill (config (self σ))
  ∧ use_subfolders (config (self (opened σ)))
    = use_subfolders (config (self σ)).
Proof.
  unfold opened, library_path, state_path, mbind, M_bind, get_self,
    get_world, put_self, put_world, mret, M_ret. simpl.
  destruct (_library_path (config (self σ))) eqn:Hp; simpl.
  - rewrite Hp. repeat split.
  - destruct (library_files (world σ) !! _); simpl; repeat split.
Qed.

Lemma opened_world σ :
  files (world (opened σ)) = files (world σ)
  ∧ dirs (world (opened σ)) = dirs (world σ)
  ∧ filter_files (world (opened σ)) = filter_files (world σ)
  ∧ f_bavail (world (opened σ)) = f_bavail (world σ)
  ∧ f_frsize (world (opened σ)) = f_frsize (world σ)
  ∧ log (world (opened σ)) = log (world σ).
Proof.
  unfold opened, library_path, state_path, mbind, M_bind, get_self,
    get_world, put_self, put_world, mret, M_ret. simpl.
  destruct (_library_path (config (self σ))) eqn:Hp; simpl; [done|].
  destruct (library_files (world σ) !! _); simpl; repeat split.
Qed.

(** The state file after the access: the one that was there, or a blank
    one when this first access found none. *)
Lemma opened_file σ :
  library_files (world (opened σ)) !! state_path (self σ)
  = match library_files (world σ) !! state_path (self σ) with
    | Some f => Some f
    | None => match _library_path (config (self σ)) with
              | None => Some Blank
              | Some _ => None
              end
    end.
Proof.
  unfold opened, library_path, state_path, mbind, M_bind, get_self,
    get_world, put_self, put_world, mret, M_ret. simpl.
  destruct (_library_path (config (self σ))) eqn:Hp; simpl.
  - by destruct (library_files (world σ) !! _).
  - destruct (library_files (world σ) !! _) eqn:Hf; simpl; [done|].
    by rewrite lookup_insert_eq.
Qed.

Lemma opened_ready σ : state_file_reachable σ → state_file_ready (opened σ).
Proof.
  intros Hr. unfold state_file_ready.
  destruct (opened_self σ) as (_ & _ & _ & -> & _). split.
  - unfold opened, library_path, state_path, mbind, M_bind, get_self,
      get_world, put_self, put_world, mret, M_ret. simpl.
    destruct (_library_path (config (self σ))) eqn:Hp; simpl; [done|].
    by destruct (library_files (world σ) !! _).
  - rewrite opened_file. destruct Hr as [[f ->]| ->]; [by eexists|].
    destruct (library_files (world σ) !! _); by eexists.
Qed.

Lemma opened_idem σ : state_file_ready σ → opened σ = σ.
Proof.
  intros [Hp _]. unfold opened, library_path, mbind, M_bind, get_self.
  simpl. by rewrite Hp.
Qed.

Lemma opened_store σ : state_file_reachable σ → store_at (opened σ) = store_at σ.
Proof.
  intros Hr. unfold store_at.
  destruct (opened_self σ) as (_ & _ & _ & -> & _). rewrite opened_file.
  destruct Hr as [[f ->]| ->]; [done|].
  by destruct (library_files (world σ) !! _).
Qed.

(** The getter, on a reachable state file: whatever [json.load] rejects
    reads as the empty store. *)
Lemma library_data_reachable σ :
  state_file_reachable σ →
  library_data DEFAULT_LIBRARY_FILE_PATH σ = (Return (store_at σ), opened σ).
Proof.
  intros Hr. unfold library_data, mbind at 1, M_bind at 1.
  rewrite library_path_opened.
  unfold mbind, M_bind, get_world. simpl.
  rewrite <- (opened_store σ Hr). unfold store_at.
  destruct (opened_self σ) as (_ & _ & _ & -> & _).
  destruct (opened_ready σ Hr) as [_ [f Hf]].
  destruct (opened_self σ) as (_ & _ & _ & Hsp & _). rewrite Hsp in Hf.
  rewrite Hf. simpl. by destruct (json_load f).
Qed.

(** The machine once [value] has been written to the state file. *)
Definition written (value : gmap string path) (σ : Machine) : Machine :=
  {| self := self (opened σ);
     world := with_library_files (world (opened σ))
                (<[state_path (self σ) := Document value]>
                   (library_files (world (opened σ)))) |}.

Lemma set_library_data_written value σ :
  set_library_data DEFAULT_LIBRARY_FILE_PATH value σ
  = (Return (), written value σ).
Proof.
  unfold set_library_data, mbind at 1, M_bind at 1.
  by rewrite library_path_opened.
Qed.

Lemma written_ready value σ :
  state_file_reachable σ → state_file_ready (written value σ).
Proof.
  intros Hr. destruct (opened_ready σ Hr) as [Hp _].
  destruct (opened_self σ) as (_ & _ & _ & Hsp & _).
  unfold state_file_ready, written. simpl.
  rewrite Hsp in Hp |- *. split; [done|].
  rewrite lookup_insert_eq. by eexists.
Qed.

Lemma written_store value σ :
  state_file_reachable σ → store_at (written value σ) = value.
Proof.
  intros Hr. destruct (opened_ready σ Hr) as [Hp _].
  destruct (opened_self σ) as (_ & _ & _ & Hsp & _).
  unfold store_at, written. simpl.
  rewrite Hsp. by rewrite lookup_insert_eq.
Qed.

(** *** C10: an unreadable state file *)


(** *** C6: the space accountant *)

(** The destination file of a store entry exists. *)
Definition present (σ : Machine) (rel : path) : Prop :=
  is_Some (files (world σ) !! full_library_path (self σ) rel).

(** The sizes of the destination files of a list of store entries; an
    entry without a file adds nothing. *)
Definition sizes_on_disk (σ : Machine) (entries : list (string * path)) : Z :=
  foldr (λ kv acc,
           default 0 (files (world σ) !! full_library_path (self σ) kv.2)
           + acc)%Z 0%Z entries.

Lemma calculate_space_loop_available h w l library available :
  (calculate_space_loop h w l library available).2
  = (available + sizes_on_disk {| self := h; world := w |} l)%Z.
Proof.
  revert library available.
  induction l as [|[k v] l IH]; intros library available; simpl.
  - lia.
  - unfold stat_size. destruct (files w !! _) eqn:Hf; rewrite IH; simpl; lia.
Qed.

Lemma calculate_space_loop_pruned h w l library available k v :
  (k, v) ∈ l → files w !! full_library_path h v = None →
  (calculate_space_loop h w l library available).1 !! k = None.
Proof.
  assert (Hgone : ∀ l library available,
             library !! k = None →
             (calculate_space_loop h w l library available).1 !! k = None).
  { clear. intros l. induction l as [|[k' v'] l IH]; intros library a Hk.
    - done.
    - simpl. destruct (stat_size w _); apply IH; [done|].
      rewrite lookup_delete. by case_decide. }
  revert library available.
  induction l as [|[k' v'] l IH]; intros library available Hin Hf.
  - by apply elem_of_nil in Hin.
  - apply elem_of_cons in Hin as [[= <- <-]|Hin]; simpl.
    + unfold stat_size. rewrite Hf. apply Hgone, lookup_delete_eq.
    + destruct (stat_size w _); by apply IH.
Qed.

Lemma calculate_space_loop_kept h w l library available k :
  (∀ v, (k, v) ∈ l → is_Some (files w !! full_library_path h v)) →
  (calculate_space_loop h w l library available).1 !! k = library !! k.
Proof.
  revert library available.
  induction l as [|[k' v'] l IH]; intros library available Hin.
  - done.
  - simpl. unfold stat_size.
    destruct (files w !! full_library_path h v') eqn:Hf.
    + apply IH. intros v Hv. apply Hin. by right.
    + rewrite IH by (intros v Hv; apply Hin; by right).
      apply lookup_delete_ne. intros ->.
      destruct (Hin v') as [? Hs]; [by left|]. congruence.
Qed.

(** The budget [calculate_space] returns. *)
Definition effective_budget (σ : Machine) : Z :=
  (f_bavail (world σ) * f_frsize (world σ) - 5 * 1024 * 1024
   + sizes_on_disk σ (map_to_list (store_at σ)))%Z.

(** The store with the entries whose files are gone left out. *)
Definition pruned (σ : Machine) : gmap string path :=
  filter (λ kv, present σ kv.2) (store_at σ).

Lemma calculate_space_run σ :
  state_file_reachable σ →
  calculate_space DEFAULT_LIBRARY_FILE_PATH σ
  = (Return (effective_budget σ), written (pruned σ) (opened σ)).
Proof.
  intros Hr.
  pose proof (opened_ready σ Hr) as Hready.
  assert (Hr' : state_file_reachable (opened σ)) by (left; apply Hready).
  destruct (opened_world σ) as (Hfiles & _ & _ & Hbavail & Hfrsize & Hlog).
  destruct (opened_self σ) as (_ & _ & _ & Hsp & Hdest & _).
  set (r := calculate_space_loop (self (opened σ)) (world (opened σ))
              (map_to_list (store_at σ)) (store_at σ)
              (f_bavail (world σ) * f_frsize (world σ) - 5 * 1024 * 1024)).
  assert (Hrun : calculate_space DEFAULT_LIBRARY_FILE_PATH σ
                 = (Return r.2, written r.1 (opened σ))).
  { unfold calculate_space, space_available.
    unfold mbind at 1 2, M_bind at 1 2, get_world at 1. simpl.
    unfold mbind at 1, M_bind at 1. rewrite library_data_reachable by done.
    unfold mbind at 1 2, M_bind at 1 2, get_self, get_world. simpl.
    fold r. destruct r as [library' available']. simpl.
    unfold mbind, M_bind. by rewrite set_library_data_written. }
  assert (Hpruned : r.1 = pruned σ).
  { apply map_eq. intros k. unfold pruned.
    destruct (store_at σ !! k) as [v|] eqn:Hk.
    - destruct (decide (present σ v)) as [Hv|Hv].
      + transitivity (Some v).
        * unfold r. rewrite calculate_space_loop_kept; [done|].
          intros v' Hin. apply elem_of_map_to_list in Hin.
          assert (v' = v) as -> by congruence.
          unfold full_library_path. rewrite Hfiles, Hdest. apply Hv.
        * symmetry. by apply map_lookup_filter_Some.
      + transitivity (@None path).
        * unfold r. eapply calculate_space_loop_pruned.
          -- by apply elem_of_map_to_list.
          -- unfold full_library_path. rewrite Hfiles, Hdest.
             by apply eq_None_not_Some.
        * symmetry. apply map_lookup_filter_None. right.
          intros v' Hv'. simpl. congruence.
    - transitivity (@None path).
      + unfold r. rewrite calculate_space_loop_kept; [done|].
        intros v Hin. apply elem_of_map_to_list in Hin. congruence.
      + symmetry. apply map_lookup_filter_None. by left. }
  rewrite Hrun, <- Hpruned. do 2 f_equal. unfold r, effective_budget.
  rewrite calculate_space_loop_available. f_equal.
  unfold sizes_on_disk, full_library_path. simpl.
  by rewrite Hfiles, Hdest.
Qed.


End StateStore.



(** * C9: loading the filter rules *)



(** * What every operation of the engine preserves *)

Section Frame.
Variable DEFAULT_LIBRARY_FILE_PATH : path.
Variable transfer : iTunesTrack → copy_outcome.

(** A relation between the object before and after an operation that is
    closed under the updates the engine makes. *)
Variable R : Hibiki → Hibiki → Prop.
Hypothesis R_refl : ∀ h, R h h.
Hypothesis R_trans : ∀ h1 h2 h3, R h1 h2 → R h2 h3 → R h1 h3.
Hypothesis R_library_path :
  ∀ h p, R h (with_config h (set_library_path (config h) p)).
Hypothesis R_subfolder :
  ∀ h sub, _subfolder h ≤ sub → R h (with_subfolder h sub).
Hypothesis R_tracks : ∀ h t, R h (with_tracks h t).

Definition preserves {A} (m : M A) : Prop := ∀ σ, R (self σ) (self (m σ).2).

Lemma preserves_ret {A} (a : A) : preserves (mret a).
Proof. intros σ. apply R_refl. Qed.

Lemma preserves_raise {A} e : preserves (@raise A e).
Proof. intros σ. apply R_refl. Qed.

Lemma preserves_bind {A B} (m : M A) (f : A → M B) :
  preserves m → (∀ a, preserves (f a)) → preserves (m ≫= f).
Proof.
  intros Hm Hf σ. unfold mbind, M_bind. specialize (Hm σ).
  destruct (m σ) as [[a|e] σ1]; simpl in *; [|done].
  eapply R_trans; [done|]. apply Hf.
Qed.

Lemma preserves_try {A} (m : M A) : preserves m → preserves (try m).
Proof.
  intros Hm σ. unfold try. specialize (Hm σ). by destruct (m σ).
Qed.

Lemma preserves_get_self : preserves get_self.
Proof. intros σ. apply R_refl. Qed.

Lemma preserves_get_world : preserves get_world.
Proof. intros σ. apply R_refl. Qed.

Lemma preserves_put_world w : preserves (put_world w).
Proof. intros σ. apply R_refl. Qed.

Lemma preserves_callback registered ev : preserves (callback registered ev).
Proof.
  unfold callback. destruct registered; [|apply preserves_ret].
  apply preserves_bind; [apply preserves_get_world|].
  intros w. apply preserves_put_world.
Qed.

Lemma preserves_library_path : preserves (library_path DEFAULT_LIBRARY_FILE_PATH).
Proof.
  intros σ. rewrite library_path_opened. simpl.
  unfold opened, library_path, mbind, M_bind, get_self, get_world, put_self,
    put_world, mret, M_ret. simpl.
  destruct (_library_path (config (self σ))); simpl; [apply R_refl|].
  destruct (library_files (world σ) !! _); simpl; apply R_library_path.
Qed.

Lemma preserves_library_data : preserves (library_data DEFAULT_LIBRARY_FILE_PATH).
Proof.
  apply preserves_bind; [apply preserves_library_path|]. intros p.
  apply preserves_bind; [apply preserves_get_world|]. intros w.
  destruct (library_files w !! p) as [f|]; [|apply preserves_raise].
  destruct (json_load f); apply preserves_ret.
Qed.

Lemma preserves_set_library_data value :
  preserves (set_library_data DEFAULT_LIBRARY_FILE_PATH value).
Proof.
  apply preserves_bind; [apply preserves_library_path|]. intros p.
  apply preserves_bind; [apply preserves_get_world|]. intros w.
  apply preserves_put_world.
Qed.

Lemma target_directory_loop_advances fuel c w sub sub' directory w' :
  target_directory_loop fuel c w sub = Some (sub', directory, w') →
  sub ≤ sub'.
Proof.
  revert sub. induction fuel as [|fuel IH]; intros sub; simpl; [done|].
  destruct (isdir w _).
  - destruct (_ <? _)%Z.
    + intros [= <- _ _]. lia.
    + intros H. apply IH in H. lia.
  - intros [= <- _ _]. lia.
Qed.

Lemma preserves_target_directory : preserves target_directory.
Proof.
  intros σ. unfold target_directory, mbind, M_bind, get_self, get_world,
    put_self, put_world, mret, M_ret, raise.
  cbn -[target_directory_loop].
  destruct (use_subfolders (config (self σ))); [|apply R_refl].
  destruct (target_directory_loop _ _ _ _) as [[[sub directory] w']|] eqn:Hl;
    cbn -[target_directory_loop]; [|apply R_refl].
  apply R_subfolder. by eapply target_directory_loop_advances.
Qed.

Lemma preserves_copy_file track : preserves (_copy_file transfer track).
Proof.
  apply preserves_bind; [apply preserves_target_directory|]. intros d.
  destruct (transfer track); try apply preserves_raise.
  - apply preserves_bind; [apply preserves_get_world|]. intros w.
    apply preserves_bind; [apply preserves_put_world|]. intros _.
    apply preserves_ret.
  - apply preserves_bind; [apply preserves_get_world|]. intros w.
    apply preserves_bind; [apply preserves_put_world|]. intros _.
    apply preserves_raise.
Qed.

Lemma preserves_mark_file track d :
  preserves (_mark_file DEFAULT_LIBRARY_FILE_PATH track d).
Proof.
  apply preserves_bind; [apply preserves_library_data|]. intros data.
  apply preserves_bind; [apply preserves_get_self|]. intros h.
  apply preserves_set_library_data.
Qed.

Lemma preserves_clean_sync_list_loop delete_callback error_callback l library :
  preserves (_clean_sync_list_loop delete_callback error_callback l library).
Proof.
  revert library. induction l as [|[track rel] l IH]; intros library.
  - apply preserves_ret.
  - intros σ. simpl. unfold mbind at 1, M_bind at 1, get_self at 1.
    destruct (bool_decide (track ∈ tracks (self σ))).
    + unfold mbind at 1, M_bind at 1, put_self at 1.
      eapply R_trans; [|apply IH]. simpl. apply R_tracks.
    + unfold mbind at 1, M_bind at 1, get_world at 1.
      destruct (remove (world σ) _) as [w'|].
      * apply (preserves_bind (put_world w')); [apply preserves_put_world|].
        intros _. apply preserves_bind; [apply preserves_callback|].
        intros _. apply IH.
      * apply (preserves_bind (callback error_callback _));
          [apply preserves_callback|].
        intros _. apply IH.
Qed.

Lemma preserves_clean_sync_list delete_callback error_callback :
  preserves (_clean_sync_list DEFAULT_LIBRARY_FILE_PATH delete_callback
               error_callback).
Proof.
  apply preserves_bind; [apply preserves_library_data|]. intros library.
  apply preserves_bind; [apply preserves_clean_sync_list_loop|]. intros ?.
  apply preserves_set_library_data.
Qed.

Lemma preserves_calculate_space :
  preserves (calculate_space DEFAULT_LIBRARY_FILE_PATH).
Proof.
  apply preserves_bind.
  { apply preserves_bind; [apply preserves_get_world|]. intros w.
    apply preserves_ret. }
  intros available.
  apply preserves_bind; [apply preserves_library_data|]. intros library.
  apply preserves_bind; [apply preserves_get_self|]. intros h.
  apply preserves_bind; [apply preserves_get_world|]. intros w.
  destruct (calculate_space_loop _ _ _ _ _) as [library' available'].
  apply preserves_bind; [apply preserves_set_library_data|]. intros _.
  apply preserves_ret.
Qed.

Lemma preserves_copy_tracks_loop after_callback before_callback error_callback
    end_signal tests l destination :
  preserves (copy_tracks_loop DEFAULT_LIBRARY_FILE_PATH transfer
               after_callback before_callback error_callback end_signal
               tests l destination).
Proof.
  revert tests destination.
  induction l as [|track l IH]; intros tests destination; simpl.
  - destruct (truthy end_signal tests); apply preserves_ret.
  - destruct (truthy end_signal tests); [apply preserves_ret|].
    apply preserves_bind; [apply preserves_get_self|]. intros h.
    destruct (bool_decide _); [|apply IH].
    apply preserves_bind; [apply preserves_callback|]. intros _.
    apply preserves_bind; [apply preserves_try, preserves_copy_file|].
    intros [copied|e].
    + apply preserves_bind; [apply preserves_mark_file|]. intros _.
      apply preserves_bind; [apply preserves_callback|]. intros _. apply IH.
    + destruct (is_OSError e); [|apply preserves_raise].
      destruct destination as [previous|]; [|apply preserves_raise].
      apply preserves_bind; [apply preserves_get_world|]. intros w.
      destruct (remove w previous) as [w'|]; [|apply preserves_raise].
      apply preserves_bind; [apply preserves_put_world|]. intros _.
      destruct error_callback.
      * apply (preserves_bind (callback true (error (OfTrack track) e)));
          [apply preserves_callback|].
        intros _. apply IH.
      * apply preserves_bind; [apply preserves_mark_file|]. intros _.
        apply preserves_bind; [apply preserves_callback|]. intros _. apply IH.
Qed.

Lemma preserves_copy_tracks after_callback before_callback error_callback
    end_signal :
  preserves (copy_tracks DEFAULT_LIBRARY_FILE_PATH transfer after_callback
               before_callback error_callback end_signal).
Proof.
  apply preserves_bind; [apply preserves_get_self|]. intros h.
  apply preserves_copy_tracks_loop.
Qed.

Lemma preserves_generate_sync_list sample delete_callback error_callback :
  (∀ h ex inc t,
     R h (with_tracks (with_config h (set_filters (config h) ex inc)) t)) →
  preserves (generate_sync_list DEFAULT_LIBRARY_FILE_PATH sample
               delete_callback error_callback).
Proof.
  intros R_filters.
  apply preserves_bind; [apply preserves_calculate_space|]. intros space.
  intros σ. unfold mbind at 1, M_bind at 1, get_self at 1.
  unfold mbind at 1, M_bind at 1, put_self at 1.
  eapply R_trans; [|apply preserves_clean_sync_list]. simpl.
  apply R_filters.
Qed.

End Frame.

(** * C8: the destination directory policy *)

Section Subfolders.
Local Open Scope Z_scope.

Definition numbered (c : HibikiConfig) (sub : nat) : path :=
  join (destination c) [pretty sub].

(** A numbered folder that exists and holds the maximum of visible files,
    or more. *)
Definition full (c : HibikiConfig) (w : World) (sub : nat) : Prop :=
  isdir w (numbered c sub) = true
  ∧ max_file_count c ≤ file_count w (numbered c sub).

Lemma numbered_inj c : Inj (=) (=) (numbered c).
Proof.
  intros i j Heq. unfold numbered, join in Heq.
  apply app_inv_head in Heq. injection Heq as Heq. by apply (inj pretty).
Qed.

(** What the loop returns: the folder of the index it stops at, every
    index passed on the way being a full folder. *)
Lemma target_directory_loop_spec fuel c w sub sub' directory w' :
  target_directory_loop fuel c w sub = Some (sub', directory, w') →
  directory = numbered c sub'
  ∧ (sub ≤ sub')%nat
  ∧ (∀ i, (sub ≤ i < sub')%nat → full c w i)
  ∧ ((isdir w directory = true
      ∧ file_count w directory < max_file_count c ∧ w' = w)
     ∨ (isdir w directory = false ∧ w' = makedirs w directory)).
Proof.
  revert sub. induction fuel as [|fuel IH]; intros sub; simpl; [done|].
  fold (numbered c sub).
  destruct (isdir w (numbered c sub)) eqn:Hdir.
  - destruct (file_count w (numbered c sub) <? max_file_count c) eqn:Hcount.
    + intros [= <- <- <-]. apply Z.ltb_lt in Hcount.
      split; [done|]. split; [lia|]. split; [intros; lia|]. by left.
    + intros Hrec. apply IH in Hrec as (-> & Hle & Hfull & Hend).
      apply Z.ltb_ge in Hcount.
      split; [done|]. split; [lia|]. split; [|done].
      intros i Hi. destruct (decide (i = sub)) as [->|Hne].
      * by split.
      * apply Hfull. lia.
  - intros [= <- <- <-].
    split; [done|]. split; [lia|]. split; [intros; lia|]. by right.
Qed.

(** The loop ends: the folders are finitely many, and each index passed is
    one more of them. *)
Lemma target_directory_loop_fuel (c : HibikiConfig) (w : World)
    (fuel sub : nat) (passed : gset path) :
  passed ⊆ dirs w →
  (∀ i, (sub ≤ i)%nat → numbered c i ∉ passed) →
  (base.size (dirs w) < fuel + base.size passed)%nat →
  is_Some (target_directory_loop fuel c w sub).
Proof.
  revert sub passed.
  induction fuel as [|fuel IH]; intros sub passed Hsub Hfresh Hsize.
  - apply subseteq_size in Hsub. lia.
  - simpl. fold (numbered c sub).
    destruct (isdir w (numbered c sub)) eqn:Hdir; [|by eexists].
    destruct (_ <? _); [by eexists|].
    apply bool_decide_eq_true in Hdir.
    apply (IH (S sub) ({[numbered c sub]} ∪ passed)).
    + apply union_subseteq. split; [|done]. by apply singleton_subseteq_l.
    + intros i Hi. rewrite not_elem_of_union, not_elem_of_singleton. split.
      * intros Heq. apply numbered_inj in Heq. lia.
      * apply Hfresh. lia.
    + rewrite size_union, size_singleton; [lia|].
      apply disjoint_singleton_l, Hfresh. lia.
Qed.

Lemma target_directory_returns σ :
  use_subfolders (config (self σ)) = true →
  ∃ sub directory w',
    target_directory_loop (S (base.size (dirs (world σ)))) (config (self σ))
      (world σ) (_subfolder (self σ)) = Some (sub, directory, w')
    ∧ target_directory σ
      = (Return directory,
         {| self := with_subfolder (self σ) sub; world := w' |}).
Proof.
  intros Hsub.
  destruct (target_directory_loop_fuel (config (self σ)) (world σ)
              (S (base.size (dirs (world σ)))) (_subfolder (self σ)) ∅)
    as [[[sub directory] w'] Hloop].
  { apply empty_subseteq. }
  { intros i _. apply not_elem_of_empty. }
  { rewrite size_empty. lia. }
  exists sub, directory, w'. split; [done|].
  unfold target_directory, mbind, M_bind, get_self, get_world.
  cbn -[target_directory_loop]. rewrite Hsub.
  cbn -[target_directory_loop]. by rewrite Hloop.
Qed.

(** Everything the destination volume holds: files and folders. *)
Definition entries (w : World) : gset path := dom (files w) ∪ dirs w.

Lemma child_name_Some d p n : child_name d p = Some n ↔ p = d ++ [n].
Proof.
  revert p. induction d as [|x d IH]; intros p; simpl.
  - destruct p as [|y [|z p]]; split; intros H; try discriminate H;
      by simplify_eq.
  - destruct p as [|y p]; [split; intros H; discriminate H|].
    case_bool_decide as Hxy.
    + subst y. rewrite IH. split; intros H; by simplify_eq.
    + split; [done|]. intros H. by simplify_eq.
Qed.

Lemma elem_of_listdir w d n : n ∈ listdir w d ↔ d ++ [n] ∈ entries w.
Proof.
  unfold listdir. fold (entries w). rewrite list_elem_of_omap. split.
  - intros (p & Hp & Hn). apply child_name_Some in Hn as ->.
    by apply elem_of_elements in Hp.
  - intros Hp. exists (d ++ [n]). split; [by apply elem_of_elements|].
    by apply child_name_Some.
Qed.

Lemma NoDup_listdir w d : NoDup (listdir w d).
Proof.
  unfold listdir. generalize (NoDup_elements (dom (files w) ∪ dirs w)).
  induction (elements (dom (files w) ∪ dirs w)) as [|p l IH]; simpl.
  - constructor.
  - intros [Hp Hl]%NoDup_cons.
    destruct (child_name d p) as [n|] eqn:Hn; [|by apply IH].
    apply NoDup_cons. split; [|by apply IH].
    intros (p' & Hp' & Hn')%list_elem_of_omap.
    apply child_name_Some in Hn, Hn'. congruence.
Qed.

(** The count of visible files of a folder whose content is known. *)
Lemma file_count_names w d (names : list string) :
  NoDup names →
  (∀ n, d ++ [n] ∈ entries w ↔ n ∈ names) →
  file_count w d = Z.of_nat (length (filter (λ f, visible f = true) names)).
Proof.
  intros Hnodup Hnames. unfold file_count. f_equal.
  apply Permutation_length, filter_Permutation.
  apply NoDup_Permutation; [apply NoDup_listdir|done|].
  intros n. by rewrite elem_of_listdir.
Qed.

(** Nothing on the volume lies at or under the numbered folder [sub]. *)
Definition untouched (c : HibikiConfig) (w : World) (sub : nat) : Prop :=
  ∀ p, p ∈ entries w → ¬ numbered c sub `prefix_of` p.

Lemma untouched_not_dir c w sub :
  untouched c w sub → isdir w (numbered c sub) = false.
Proof.
  intros Hun. apply bool_decide_eq_false. intros Hin.
  apply (Hun (numbered c sub)); [|done]. by apply elem_of_union_r.
Qed.

Lemma untouched_no_child c w sub n :
  untouched c w sub → numbered c sub ++ [n] ∉ entries w.
Proof. intros Hun Hin. apply (Hun _ Hin). by eexists. Qed.

(** [_copy_file] with subfolders, when the bytes get through. *)
Lemma copy_file_subfolder transfer track bytes σ :
  use_subfolders (config (self σ)) = true →
  transfer track = Copied bytes →
  ∃ sub w',
    (_subfolder (self σ) ≤ sub)%nat
    ∧ (∀ i, (_subfolder (self σ) ≤ i < sub)%nat →
            full (config (self σ)) (world σ) i)
    ∧ ((isdir (world σ) (numbered (config (self σ)) sub) = true
        ∧ file_count (world σ) (numbered (config (self σ)) sub)
          < max_file_count (config (self σ))
        ∧ w' = world σ)
       ∨ (isdir (world σ) (numbered (config (self σ)) sub) = false
          ∧ w' = makedirs (world σ) (numbered (config (self σ)) sub)))
    ∧ _copy_file transfer track σ
      = (Return (numbered (config (self σ)) sub ++ [filename track]),
         {| self := with_subfolder (self σ) sub;
            world := with_files w'
                       (<[numbered (config (self σ)) sub ++ [filename track]
                          := bytes]> (files w')) |}).
Proof.
  intros Hsub Hcopied.
  destruct (target_directory_returns σ Hsub)
    as (sub & directory & w' & Hloop & Hrun).
  apply target_directory_loop_spec in Hloop as (-> & Hle & Hfull & Hend).
  exists sub, w'. split; [done|]. split; [done|]. split; [done|].
  unfold _copy_file. rewrite Hcopied.
  unfold mbind at 1, M_bind at 1. rewrite Hrun.
  unfold mbind, M_bind, get_world, put_world, mret, M_ret. done.
Qed.

(** Scenario C, for any three tracks: with at most 2 files per folder, on
    a destination that holds nothing at or under the folders 0 and 1, the
    files of three tracks copied in sequence (the first two under different,
    visible names) land in the folders 0, 0 and 1. *)
Lemma three_copies transfer σ t1 t2 t3 b1 b2 b3 :
  use_subfolders (config (self σ)) = true →
  max_file_count (config (self σ)) = 2 →
  _subfolder (self σ) = 0%nat →
  untouched (config (self σ)) (world σ) 0 →
  untouched (config (self σ)) (world σ) 1 →
  transfer t1 = Copied b1 → transfer t2 = Copied b2 →
  transfer t3 = Copied b3 →
  visible (filename t1) = true → visible (filename t2) = true →
  filename t1 ≠ filename t2 →
  ∃ σ1 σ2 σ3,
    _copy_file transfer t1 σ
    = (Return (destination (config (self σ)) ++ ["0"; filename t1]), σ1)
    ∧ _copy_file transfer t2 σ1
      = (Return (destination (config (self σ)) ++ ["0"; filename t2]), σ2)
    ∧ _copy_file transfer t3 σ2
      = (Return (destination (config (self σ)) ++ ["1"; filename t3]), σ3)
    ∧ _subfolder (self σ3) = 1%nat.
Proof.
  intros Hsub Hmax Hstart Hun0 Hun1 Hc1 Hc2 Hc3 Hv1 Hv2 Hne.
  set (c := config (self σ)) in *. set (w := world σ) in *.
  set (d0 := numbered c 0). set (d1 := numbered c 1).
  assert (Hd01 : d1 ≠ d0) by (intros Heq; by apply numbered_inj in Heq).
  assert (Hpath : ∀ sub n,
            numbered c sub ++ [n] = destination c ++ [pretty sub; n]).
  { intros sub n. unfold numbered, join. by rewrite <- (assoc_L (++)). }
  assert (Hself : ∀ (d : path) (n : string), d ++ [n] ≠ d).
  { intros d n Heq. apply (f_equal length) in Heq.
    rewrite length_app in Heq. simpl in Heq. lia. }
  (* the first copy creates folder 0 *)
  destruct (copy_file_subfolder transfer t1 b1 σ Hsub Hc1)
    as (sub1 & w1' & _ & Hfull1 & Hend1 & Hrun1).
  fold c w in Hfull1, Hend1, Hrun1.
  assert (sub1 = 0%nat) as ->.
  { destruct sub1 as [|sub1]; [done|]. exfalso.
    destruct (Hfull1 0%nat) as [Hdir _]; [lia|].
    pose proof (untouched_not_dir c w 0 Hun0). congruence. }
  fold d0 in Hend1, Hrun1.
  destruct Hend1 as [(Hdir & _)|[_ ->]].
  { pose proof (untouched_not_dir c w 0 Hun0). unfold d0 in Hdir. congruence. }
  set (σ1 := {| self := with_subfolder (self σ) 0;
                world := with_files (makedirs w d0)
                           (<[d0 ++ [filename t1] := b1]>
                              (files (makedirs w d0))) |}) in *.
  assert (He1 : ∀ p, p ∈ entries (world σ1)
                     ↔ p = d0 ++ [filename t1] ∨ p = d0 ∨ p ∈ entries w).
  { intros p. unfold entries. simpl.
    rewrite dom_insert_L, !elem_of_union, !elem_of_singleton. tauto. }
  assert (Hcount1 : file_count (world σ1) d0 = 1).
  { rewrite (file_count_names _ _ [filename t1]).
    - by rewrite filter_cons_True, filter_nil by done.
    - apply NoDup_singleton.
    - intros n. rewrite He1, list_elem_of_singleton. split.
      + intros [Heq|[Heq|Hin]].
        * by apply app_inv_head in Heq as [= ->].
        * by apply Hself in Heq.
        * by apply (untouched_no_child c w 0 n) in Hin.
      + intros ->. by left. }
  (* the second copy finds room in folder 0 *)
  destruct (copy_file_subfolder transfer t2 b2 σ1 Hsub Hc2)
    as (sub2 & w2' & _ & Hfull2 & Hend2 & Hrun2).
  change (config (self σ1)) with c in Hfull2, Hend2, Hrun2.
  change (_subfolder (self σ1)) with 0%nat in Hfull2.
  assert (sub2 = 0%nat) as ->.
  { destruct sub2 as [|sub2]; [done|]. exfalso.
    destruct (Hfull2 0%nat) as [_ Hcount]; [lia|].
    fold d0 in Hcount. rewrite Hcount1, Hmax in Hcount. lia. }
  fold d0 in Hend2, Hrun2.
  assert (Hdir1 : isdir (world σ1) d0 = true).
  { apply bool_decide_eq_true. simpl. apply elem_of_union_l.
    by apply elem_of_singleton. }
  destruct Hend2 as [(_ & _ & ->)|[Hno _]]; [|congruence].
  set (σ2 := {| self := with_subfolder (self σ1) 0;
                world := with_files (world σ1)
                           (<[d0 ++ [filename t2] := b2]>
                              (files (world σ1))) |}) in *.
  assert (He2 : ∀ p, p ∈ entries (world σ2)
                     ↔ p = d0 ++ [filename t2] ∨ p ∈ entries (world σ1)).
  { intros p. unfold entries. simpl.
    rewrite !dom_insert_L, !elem_of_union, !elem_of_singleton. tauto. }
  assert (Hcount2 : file_count (world σ2) d0 = 2).
  { rewrite (file_count_names _ _ [filename t1; filename t2]).
    - by rewrite !filter_cons_True, filter_nil by done.
    - apply NoDup_cons. split; [|apply NoDup_singleton].
      by intros Heq%list_elem_of_singleton.
    - intros n. rewrite He2, He1, elem_of_cons, list_elem_of_singleton. split.
      + intros [Heq|[Heq|[Heq|Hin]]].
        * apply app_inv_head in Heq as [= ->]. by right.
        * apply app_inv_head in Heq as [= ->]. by left.
        * by apply Hself in Heq.
        * by apply (untouched_no_child c w 0 n) in Hin.
      + intros [->| ->]; [right; by left|by left]. }
  (* the third copy passes folder 0 and creates folder 1 *)
  destruct (copy_file_subfolder transfer t3 b3 σ2 Hsub Hc3)
    as (sub3 & w3' & _ & Hfull3 & Hend3 & Hrun3).
  change (config (self σ2)) with c in Hfull3, Hend3, Hrun3.
  change (_subfolder (self σ2)) with 0%nat in Hfull3.
  assert (Hdir2 : ∀ p, isdir (world σ2) p = true → p = d0 ∨ p ∈ dirs w).
  { intros p Hp. apply bool_decide_eq_true in Hp. simpl in Hp.
    apply elem_of_union in Hp as [?%elem_of_singleton|?]; [by left|by right]. }
  assert (Hno1 : isdir (world σ2) d1 = false).
  { destruct (isdir (world σ2) d1) eqn:Hdir; [|done]. exfalso.
    destruct (Hdir2 d1 Hdir) as [?|Hin]; [done|].
    apply (Hun1 d1); [|done]. by apply elem_of_union_r. }
  assert (sub3 = 1%nat) as ->.
  { destruct sub3 as [|[|sub3]]; [exfalso|done|exfalso].
    - fold d0 in Hend3. destruct Hend3 as [(_ & Hcount & _)|[Hno _]].
      + rewrite Hcount2, Hmax in Hcount. lia.
      + assert (isdir (world σ2) d0 = true); [|congruence].
        apply bool_decide_eq_true. simpl. apply elem_of_union_l.
        by apply elem_of_singleton.
    - destruct (Hfull3 1%nat) as [Hdir _]; [lia|].
      fold d1 in Hdir. congruence. }
  fold d1 in Hend3, Hrun3.
  destruct Hend3 as [(Hdir & _)|[_ ->]]; [congruence|].
  assert (H0 : pretty 0%nat = "0") by (vm_compute; reflexivity).
  assert (H1 : pretty 1%nat = "1") by (vm_compute; reflexivity).
  eexists σ1, σ2, _. split; [|split; [|split]].
  - rewrite Hrun1. unfold d0. by rewrite Hpath, H0.
  - rewrite Hrun2. unfold d0. by rewrite Hpath, H0.
  - rewrite Hrun3. unfold d1. by rewrite Hpath, H1.
  - done.
Qed.

Definition subfolder_le (h h' : Hibiki) : Prop :=
  (_subfolder h ≤ _subfolder h')%nat.

End Subfolders.



(** * C3: reconciliation *)

Section Reconciler.
Variable DEFAULT_LIBRARY_FILE_PATH : path.
Variables delete_callback error_callback : bool.

Abbreviation clean_loop :=
  (_clean_sync_list_loop delete_callback error_callback).

Lemma callback_run registered ev σ :
  callback registered ev σ
  = (Return (),
     {| self := self σ;
        world := if registered then call (world σ) ev else world σ |}).
Proof. destruct σ. by destruct registered. Qed.

(** One turn of the loop, by cases. *)
Lemma clean_loop_wanted k rel l library σ :
  k ∈ tracks (self σ) →
  clean_loop ((k, rel) :: l) library σ
  = clean_loop l library
      {| self := with_tracks (self σ) (tracks (self σ) ∖ {[k]});
         world := world σ |}.
Proof.
  intros Hk. simpl. unfold mbind at 1, M_bind at 1, get_self at 1.
  by rewrite bool_decide_true.
Qed.

Lemma clean_loop_missing k rel l library σ :
  k ∉ tracks (self σ) →
  files (world σ) !! join (destination (config (self σ))) rel = None →
  clean_loop ((k, rel) :: l) library σ
  = clean_loop l library
      {| self := self σ;
         world := if error_callback
                  then call (world σ)
                         (error (OfPath (join (destination (config (self σ)))
                                           rel)) FileNotFoundError)
                  else world σ |}.
Proof.
  intros Hk Hf. simpl. unfold mbind at 1, M_bind at 1, get_self at 1.
  rewrite bool_decide_false by done.
  unfold mbind at 1, M_bind at 1, get_world at 1. unfold remove. rewrite Hf.
  unfold mbind at 1, M_bind at 1. by rewrite callback_run.
Qed.

Lemma clean_loop_removed k rel l library σ size :
  k ∉ tracks (self σ) →
  files (world σ) !! join (destination (config (self σ))) rel = Some size →
  ∃ w', files w'
        = delete (join (destination (config (self σ))) rel) (files (world σ))
        ∧ dirs w' = dirs (world σ)
        ∧ library_files w' = library_files (world σ)
        ∧ clean_loop ((k, rel) :: l) library σ
          = clean_loop l (delete k library) {| self := self σ; world := w' |}.
Proof.
  intros Hk Hf. simpl. unfold mbind at 1, M_bind at 1, get_self at 1.
  rewrite bool_decide_false by done.
  unfold mbind at 1, M_bind at 1, get_world at 1. unfold remove. rewrite Hf.
  unfold mbind at 1 2, M_bind at 1 2, put_world at 1. rewrite callback_run.
  simpl. eexists. split; [|split; [|split; [|done]]].
  - by destruct delete_callback.
  - by destruct delete_callback.
  - by destruct delete_callback.
Qed.

(** The unwanted entries of a list of store entries, for a plan. *)
Definition unwanted (plan : gset string) (l : list (string * path))
  : list (string * path) :=
  filter (λ kv, kv.1 ∉ plan) l.

(** The loop returns; it only touches [self.tracks], the files and the
    callbacks' record. *)
Lemma clean_loop_returns l : ∀ library σ,
  ∃ library' σ',
    clean_loop l library σ = (Return library', σ')
    ∧ self σ' = with_tracks (self σ) (tracks (self σ'))
    ∧ dirs (world σ') = dirs (world σ)
    ∧ library_files (world σ') = library_files (world σ).
Proof.
  induction l as [|[k rel] l IH]; intros library σ.
  - exists library, σ. by destruct σ as [[] ?].
  - destruct (decide (k ∈ tracks (self σ))) as [Hk|Hk].
    + rewrite clean_loop_wanted by done.
      destruct (IH library {| self := with_tracks (self σ)
                                        (tracks (self σ) ∖ {[k]});
                              world := world σ |})
        as (library' & σ' & -> & Hself & Hd & Hl).
      exists library', σ'. by rewrite Hself at 1.
    + destruct (files (world σ) !! join (destination (config (self σ))) rel)
        as [size|] eqn:Hf.
      * destruct (clean_loop_removed k rel l library σ size Hk Hf)
          as (w' & Hfiles & Hdirs & Hlib & ->).
        destruct (IH (delete k library) {| self := self σ; world := w' |})
          as (library' & σ' & -> & Hself & Hd & Hl).
        exists library', σ'. simpl in *. by rewrite Hd, Hl.
      * rewrite clean_loop_missing by done.
        destruct (IH library
                    {| self := self σ;
                       world := if error_callback
                                then call (world σ)
                                       (error (OfPath (join (destination
                                          (config (self σ))) rel))
                                          FileNotFoundError)
                                else world σ |})
          as (library' & σ' & -> & Hself & Hd & Hl).
        exists library', σ'. simpl in *. rewrite Hd, Hl.
        by destruct error_callback.
Qed.

(** The destination paths of the unwanted entries. *)
Definition targets (h : Hibiki) (l : list (string * path)) : list path :=
  (λ kv, join (destination (config h)) kv.2) <$> unwanted (tracks h) l.

Lemma elem_of_targets h l p :
  p ∈ targets h l
  ↔ ∃ k rel, (k, rel) ∈ l ∧ (k ∉ tracks h)
             ∧ p = join (destination (config h)) rel.
Proof.
  unfold targets, unwanted. rewrite list_elem_of_fmap. split.
  - intros ([k rel] & -> & Hin). apply list_elem_of_filter in Hin as [??].
    by exists k, rel.
  - intros (k & rel & Hin & Hk & ->). exists (k, rel). split; [done|].
    by apply list_elem_of_filter.
Qed.

Lemma join_inj d : Inj (=) (=) (join d).
Proof. intros a b. apply app_inv_head. Qed.

(** What the loop does, for a snapshot without repeated keys:
    - the keys of the snapshot leave [self.tracks];
    - the files at the destinations of the unwanted entries are gone, and
      no other file is touched;
    - an entry of the library is the same afterwards, or it is deleted and
      was unwanted with its file in place;
    - an unwanted entry whose file is in place, and whose path no other
      unwanted entry shares, is deleted. *)
Lemma clean_loop_spec l : NoDup l.*1 → ∀ library σ library' σ',
  clean_loop l library σ = (Return library', σ') →
  tracks (self σ') = tracks (self σ) ∖ list_to_set l.*1
  ∧ (∀ p, files (world σ') !! p
          = if bool_decide (p ∈ targets (self σ) l) then None
            else files (world σ) !! p)
  ∧ (∀ k, library' !! k = library !! k
          ∨ (library' !! k = None
             ∧ ∃ rel, (k, rel) ∈ l ∧ (k ∉ tracks (self σ))
                      ∧ is_Some (files (world σ)
                                 !! join (destination (config (self σ))) rel)))
  ∧ (∀ k rel,
       (k, rel) ∈ l → k ∉ tracks (self σ) →
       is_Some (files (world σ) !! join (destination (config (self σ))) rel) →
       (∀ k' rel', (k', rel') ∈ l → k' ∉ tracks (self σ) → k' ≠ k →
                   rel' ≠ rel) →
       library' !! k = None).
Proof.
  induction l as [|[k0 r0] l IH]; intros Hnodup library σ library' σ' Hrun.
  { injection Hrun as <- <-. simpl. split; [set_solver +|].
    split; [done|]. split; [by left|]. intros k rel Hin.
    by apply elem_of_nil in Hin. }
  simpl in Hnodup. apply NoDup_cons in Hnodup as [Hk0 Hnodup].
  assert (Hfresh : ∀ rel, (k0, rel) ∉ l).
  { intros rel Hin. apply Hk0. apply list_elem_of_fmap. by exists (k0, rel). }
  destruct (decide (k0 ∈ tracks (self σ))) as [Hwanted|Hunwanted].
  - (* the entry is in the plan *)
    rewrite clean_loop_wanted in Hrun by done.
    apply (IH Hnodup) in Hrun as (Htracks & Hfiles & Hlib & Hdel).
    simpl in *.
    assert (Hsame : ∀ k rel, (k, rel) ∈ l →
              (k ∉ tracks (self σ) ∖ {[k0]} ↔ k ∉ tracks (self σ))).
    { intros k rel Hin. assert (k ≠ k0) by (intros ->; by eapply Hfresh).
      set_solver. }
    assert (Htargets : ∀ p,
              p ∈ targets (with_tracks (self σ) (tracks (self σ) ∖ {[k0]})) l
              ↔ p ∈ targets (self σ) ((k0, r0) :: l)).
    { intros p. rewrite !elem_of_targets. simpl. split.
      - intros (k & rel & Hin & Hk & ->). exists k, rel.
        split; [by right|]. split; [|done]. by eapply Hsame.
      - intros (k & rel & Hin & Hk & ->).
        apply elem_of_cons in Hin as [[= -> ->]|Hin]; [done|].
        exists k, rel. split; [done|]. split; [|done]. by eapply Hsame. }
    split; [|split; [|split]].
    + rewrite Htracks. set_solver +.
    + intros p. rewrite Hfiles.
      by rewrite (bool_decide_ext _ _ (Htargets p)).
    + intros k. destruct (Hlib k) as [?|[Hnone (rel & Hin & Hk & Hf)]];
        [by left|right].
      split; [done|]. exists rel. split; [by right|]. split; [|done].
      by eapply Hsame.
    + intros k rel Hin Hk Hf Hothers.
      apply elem_of_cons in Hin as [[= -> ->]|Hin]; [done|].
      apply (Hdel k rel); [done| |done|].
      * by eapply Hsame.
      * intros k' rel' Hin' Hk' Hne. apply (Hothers k' rel'); [by right| |done].
        by eapply (Hsame k' rel').
  - destruct (files (world σ) !! join (destination (config (self σ))) r0)
      as [size|] eqn:Hf0.
    + (* the entry is unwanted and its file is removed *)
      destruct (clean_loop_removed k0 r0 l library σ size Hunwanted Hf0)
        as (w' & Hw' & _ & _ & Hstep).
      rewrite Hstep in Hrun.
      apply (IH Hnodup) in Hrun as (Htracks & Hfiles & Hlib & Hdel).
      simpl in *.
      assert (Htargets : ∀ p,
                p ∈ targets (self σ) ((k0, r0) :: l)
                ↔ p = join (destination (config (self σ))) r0
                  ∨ p ∈ targets (self σ) l).
      { intros p. rewrite !elem_of_targets. split.
        - intros (k & rel & Hin & Hk & ->).
          apply elem_of_cons in Hin as [[= -> ->]|Hin]; [by left|right].
          by exists k, rel.
        - intros [->|(k & rel & Hin & Hk & ->)].
          + exists k0, r0. split; [by left|done].
          + exists k, rel. split; [by right|done]. }
      split; [|split; [|split]].
      * rewrite Htracks. set_solver.
      * intros p. rewrite Hfiles, Hw'.
        destruct (decide (p = join (destination (config (self σ))) r0))
          as [->|Hne].
        -- rewrite lookup_delete_eq.
           rewrite (bool_decide_true (_ ∈ targets _ (_ :: _)))
             by (apply Htargets; by left).
           by case_bool_decide.
        -- rewrite lookup_delete_ne by done.
           destruct (decide (p ∈ targets (self σ) l)) as [Hin|Hnin].
           ++ rewrite (bool_decide_true (p ∈ targets (self σ) l)) by done.
              by rewrite (bool_decide_true (p ∈ targets _ (_ :: l)))
                by (apply Htargets; by right).
           ++ rewrite (bool_decide_false (p ∈ targets (self σ) l)) by done.
              by rewrite (bool_decide_false (p ∈ targets _ (_ :: l)))
                by (intros [?|?]%Htargets; done).
      * intros k. destruct (decide (k = k0)) as [->|Hne].
        -- right. split.
           ++ destruct (Hlib k0) as [->|[? _]]; [apply lookup_delete_eq|done].
           ++ exists r0. split; [by left|]. split; [done|]. by eexists.
        -- destruct (Hlib k) as [->|[Hnone (rel & Hin & Hk & Hf)]].
           ++ left. by apply lookup_delete_ne.
           ++ right. split; [done|]. exists rel. split; [by right|].
              split; [done|]. rewrite Hw' in Hf.
              destruct Hf as [x Hx]. apply lookup_delete_Some in Hx as [_ Hx].
              by eexists.
      * intros k rel Hin Hk Hf Hothers.
        apply elem_of_cons in Hin as [[= -> ->]|Hin].
        -- destruct (Hlib k0) as [->|[? _]]; [apply lookup_delete_eq|done].
        -- assert (k ≠ k0) by (intros ->; by eapply Hfresh).
           apply (Hdel k rel); [done|done| |].
           ++ rewrite Hw'. destruct Hf as [x Hx]. exists x.
              apply lookup_delete_Some. split; [|done].
              intros Heq. apply join_inj in Heq.
              apply (Hothers k0 r0); [by left|done|done|done].
           ++ intros k' rel' Hin' Hk' Hne.
              apply (Hothers k' rel'); [by right|done|done].
    + (* the entry is unwanted and its file is not there *)
      rewrite clean_loop_missing in Hrun by done.
      apply (IH Hnodup) in Hrun as (Htracks & Hfiles & Hlib & Hdel).
      simpl in *.
      assert (Hsamefiles :
                files (if error_callback
                       then call (world σ)
                              (error (OfPath (join (destination
                                 (config (self σ))) r0)) FileNotFoundError)
                       else world σ) = files (world σ))
        by (by destruct error_callback).
      rewrite Hsamefiles in *.
      split; [|split; [|split]].
      * rewrite Htracks. set_solver.
      * intros p. rewrite Hfiles.
        case_bool_decide as H1; case_bool_decide as H2; try done.
        -- exfalso. apply H2. apply elem_of_targets in H1
             as (k & rel & Hin & Hk & ->).
           apply elem_of_targets. exists k, rel. split; [by right|done].
        -- apply elem_of_targets in H2 as (k & rel & Hin & Hk & ->).
           apply elem_of_cons in Hin as [[= -> ->]|Hin]; [done|].
           exfalso. apply H1. apply elem_of_targets. by exists k, rel.
      * intros k. destruct (Hlib k) as [?|[Hnone (rel & Hin & Hk & Hf)]];
          [by left|right].
        split; [done|]. exists rel. split; [by right|done].
      * intros k rel Hin Hk Hf Hothers.
        apply elem_of_cons in Hin as [[= -> ->]|Hin].
        -- destruct Hf as [x Hx]. congruence.
        -- apply (Hdel k rel); [done|done|done|].
           intros k' rel' Hin' Hk' Hne.
           apply (Hothers k' rel'); [by right|done|done].
Qed.

(** [_clean_sync_list] on a state file that can be opened: the getter, the
    loop over the store, the setter. *)
Lemma clean_sync_list_run σ :
  state_file_reachable DEFAULT_LIBRARY_FILE_PATH σ →
  ∃ library' σl,
    clean_loop (map_to_list (store_at DEFAULT_LIBRARY_FILE_PATH σ))
      (store_at DEFAULT_LIBRARY_FILE_PATH σ)
      (opened DEFAULT_LIBRARY_FILE_PATH σ) = (Return library', σl)
    ∧ _clean_sync_list DEFAULT_LIBRARY_FILE_PATH delete_callback
        error_callback σ
      = (Return (), written DEFAULT_LIBRARY_FILE_PATH library' σl)
    ∧ state_file_ready DEFAULT_LIBRARY_FILE_PATH
        (written DEFAULT_LIBRARY_FILE_PATH library' σl)
    ∧ store_at DEFAULT_LIBRARY_FILE_PATH
        (written DEFAULT_LIBRARY_FILE_PATH library' σl) = library'
    ∧ self (written DEFAULT_LIBRARY_FILE_PATH library' σl) = self σl
    ∧ files (world (written DEFAULT_LIBRARY_FILE_PATH library' σl))
      = files (world σl)
    ∧ dirs (world (written DEFAULT_LIBRARY_FILE_PATH library' σl))
      = dirs (world σ).
Proof.
  intros Hr.
  destruct (clean_loop_returns
              (map_to_list (store_at DEFAULT_LIBRARY_FILE_PATH σ))
              (store_at DEFAULT_LIBRARY_FILE_PATH σ)
              (opened DEFAULT_LIBRARY_FILE_PATH σ))
    as (library' & σl & Hloop & Hself & Hdirs & Hlib).
  exists library', σl.
  pose proof (opened_ready _ σ Hr) as [Hp [f Hf]].
  assert (Hsp : state_path DEFAULT_LIBRARY_FILE_PATH (self σl)
                = state_path DEFAULT_LIBRARY_FILE_PATH
                    (self (opened DEFAULT_LIBRARY_FILE_PATH σ))).
  { rewrite Hself. done. }
  assert (Hready : state_file_ready DEFAULT_LIBRARY_FILE_PATH σl).
  { split.
    - rewrite Hsp, <- Hp. by rewrite Hself.
    - rewrite Hsp, Hlib. by eexists. }
  assert (Hr' : state_file_reachable DEFAULT_LIBRARY_FILE_PATH σl)
    by (left; apply Hready).
  split; [done|]. split; [|split; [|split; [|split; [|split]]]].
  - unfold _clean_sync_list. unfold mbind at 1, M_bind at 1.
    rewrite library_data_reachable by done.
    unfold mbind at 1, M_bind at 1. rewrite Hloop.
    by rewrite set_library_data_written.
  - by apply written_ready.
  - by apply written_store.
  - unfold written. simpl. by rewrite (opened_idem _ σl).
  - unfold written. simpl. by rewrite (opened_idem _ σl).
  - unfold written. simpl. rewrite (opened_idem _ σl) by done.
    rewrite Hdirs. apply opened_world.
Qed.


End Reconciler.



(** * C2: a copy that fails *)

(** The machine that [generate_sync_list] leaves for a flat, empty
    destination with room for every track of the catalog. *)
Definition planned (catalog : list iTunesTrack) : Machine :=
  (generate_sync_list Scenario.state_file (λ _, 0) true true
     (Scenario.machine Scenario.flat catalog (Scenario.empty_world 2000))).2.

(** An [error] call is on record. *)
Definition is_error (ev : Event) : bool :=
  match ev with
  | error _ _ => true
  | _ => false
  end.

Definition reports_error (σ : Machine) : bool :=
  existsb is_error (log (world σ)).

(** C2 does not hold of [copy_tracks]: the handler removes [destination],
    which the failed [_copy_file] never bound, instead of the file being
    written, and only skips [_mark_file] when an error callback is given.
    (1) The first copy of a run fails (source not found), an error callback
    is registered: [UnboundLocalError] leaves the pipeline and no error is
    reported. (2) The second copy fails (no space left) after 100 bytes,
    an error callback is registered: the incomplete file stays, the file of
    the first track, copied before, is removed while the store keeps its
    entry. (3) The same without an error callback: no error is reported
    and the store gains an entry for the failed track, at the path of the
    first one. *)
Theorem copy_failure_mishandled :
  (let r := copy_tracks Scenario.state_file
              (Scenario.failing "id1" (SourceFails ENOENT)) true true true
              PyNone (planned [Scenario.track1]) in
   r.1 = Raise (UnboundLocalError "destination")
   ∧ reports_error r.2 = false)
  ∧ (let r := copy_tracks Scenario.state_file
                (Scenario.failing "id2" (WriteFails ENOSPC 100)) true true true
                PyNone (planned [Scenario.track1; Scenario.track2]) in
     r.1 = Return ()
     ∧ files (world r.2) !! ["mnt"; "two.mp3"] = Some 100%Z
     ∧ files (world r.2) !! ["mnt"; "one.mp3"] = None
     ∧ store_at Scenario.state_file r.2 !! "id1" = Some ["one.mp3"]
     ∧ store_at Scenario.state_file r.2 !! "id2" = None
     ∧ reports_error r.2 = true)
  ∧ (let r := copy_tracks Scenario.state_file
                (Scenario.failing "id2" (WriteFails ENOSPC 100)) true true false
                PyNone (planned [Scenario.track1; Scenario.track2]) in
     r.1 = Return ()
     ∧ files (world r.2) !! ["mnt"; "two.mp3"] = Some 100%Z
     ∧ files (world r.2) !! ["mnt"; "one.mp3"] = None
     ∧ store_at Scenario.state_file r.2 !! "id2" = Some ["one.mp3"]
     ∧ reports_error r.2 = false
     ∧ last (log (world r.2)) = Some (after_copy Scenario.track2)).
Proof.
  split; [|split].
  - intros r. split; vm_compute; reflexivity.
  - intros r.
    split; [|split; [|split; [|split; [|split]]]]; vm_compute; reflexivity.
  - intros r.
    split; [|split; [|split; [|split; [|split]]]]; vm_compute; reflexivity.
Qed.

(** * C7: the end signal *)

(** C7 does not hold of [copy_tracks]: the loop tests a local variable that
    nothing can change once the call has begun. An [end_signal] that is not
    true when the call begins (None, False, or any object that is false
    then, whatever it becomes later) is replaced by [False], and the run is
    the run without any end signal; an [end_signal] that is true when the
    call begins, and at the first test of the loop, stops the loop before
    any track. *)
Theorem end_signal_not_observed :
  (∀ state_file transfer after_callback before_callback error_callback
     end_signal σ,
     truthy end_signal 0 = false →
     copy_tracks state_file transfer after_callback before_callback
       error_callback end_signal σ
     = copy_tracks state_file transfer after_callback before_callback
         error_callback PyNone σ)
  ∧ (∀ state_file transfer after_callback before_callback error_callback
       end_signal σ,
       truthy end_signal 0 = true → truthy end_signal 1 = true →
       copy_tracks state_file transfer after_callback before_callback
         error_callback end_signal σ = (Return (), σ)).
Proof.
  split.
  - intros state_file transfer after_callback before_callback error_callback
      end_signal σ Hfalse.
    unfold copy_tracks. by rewrite Hfalse.
  - intros state_file transfer after_callback before_callback error_callback
      end_signal σ Hcall Hloop.
    unfold copy_tracks, mbind, M_bind, get_self. rewrite Hcall. simpl.
    destruct (Itunes.tracks (itunes (self σ))); simpl; by rewrite Hloop.
Qed.

(** The flag is raised right after the call has begun (every test from the
    first test of the loop on would find it true): both tracks are copied
    all the same. *)
Lemma end_signal_not_observed_witness :
  let raised_after_the_call := PyObject (λ k, bool_decide (1 ≤ k)) in
  let r := copy_tracks Scenario.state_file Scenario.all_copied true true true
             raised_after_the_call
             (planned [Scenario.track1; Scenario.track2]) in
  truthy raised_after_the_call 1 = true
  ∧ r.1 = Return ()
  ∧ store_at Scenario.state_file r.2 !! "id1" = Some ["one.mp3"]
  ∧ store_at Scenario.state_file r.2 !! "id2" = Some ["two.mp3"].
Proof.
  intros flag r. unfold r.
  rewrite (proj1 end_signal_not_observed Scenario.state_file
             Scenario.all_copied true true true flag
             (planned [Scenario.track1; Scenario.track2]))
    by (vm_compute; reflexivity).
  split; [|split; [|split]]; vm_compute; reflexivity.
Defined.

(** * C5: running the pipeline twice *)

Section Pipeline.
Variable DEFAULT_LIBRARY_FILE_PATH : path.

Abbreviation ready := (state_file_ready DEFAULT_LIBRARY_FILE_PATH).
Abbreviation store := (store_at DEFAULT_LIBRARY_FILE_PATH).

(** The machine with [value] in its state file. *)
Definition stored (value : gmap string path) (σ : Machine) : Machine :=
  {| self := self σ;
     world := with_library_files (world σ)
                (<[state_path DEFAULT_LIBRARY_FILE_PATH (self σ)
                   := Document value]> (library_files (world σ))) |}.

Lemma written_stored value σ :
  ready σ → written DEFAULT_LIBRARY_FILE_PATH value σ = stored value σ.
Proof.
  intros Hready. unfold written, stored.
  by rewrite (opened_idem _ σ).
Qed.

Lemma stored_ready value σ : ready σ → ready (stored value σ).
Proof.
  intros [Hp _]. split; [done|]. simpl. rewrite lookup_insert_eq. by eexists.
Qed.

Lemma stored_store value σ : store (stored value σ) = value.
Proof. unfold store_at, stored. simpl. by rewrite lookup_insert_eq. Qed.

Lemma stored_self value σ : self (stored value σ) = self σ.
Proof. done. Qed.

(** Two machines with the same configuration and the same state files. *)
Definition same_store (σ σ' : Machine) : Prop :=
  config (self σ') = config (self σ)
  ∧ library_files (world σ') = library_files (world σ).

Lemma same_store_ready σ σ' : same_store σ σ' → ready σ → ready σ'.
Proof.
  intros [Hc Hl] [Hp Hf]. unfold state_file_ready, state_path.
  rewrite Hc, Hl. by split.
Qed.

Lemma same_store_store σ σ' : same_store σ σ' → store σ' = store σ.
Proof.
  intros [Hc Hl]. unfold store_at, state_path. by rewrite Hc, Hl.
Qed.

Lemma library_data_ready_run σ :
  ready σ →
  library_data DEFAULT_LIBRARY_FILE_PATH σ = (Return (store σ), σ).
Proof.
  intros Hready. rewrite library_data_reachable by (left; apply Hready).
  by rewrite opened_idem.
Qed.

Lemma set_library_data_ready_run value σ :
  ready σ →
  set_library_data DEFAULT_LIBRARY_FILE_PATH value σ
  = (Return (), stored value σ).
Proof.
  intros Hready. rewrite set_library_data_written. by rewrite written_stored.
Qed.

(** Every entry of the store has its file. *)
Definition consistent (σ : Machine) : Prop :=
  ∀ k rel, store σ !! k = Some rel →
           is_Some (files (world σ)
                    !! join (destination (config (self σ))) rel).

Lemma relpath_join start rel : relpath (join start rel) start = rel.
Proof.
  unfold join. induction start as [|s start IH]; simpl.
  - by destruct rel.
  - by rewrite bool_decide_true.
Qed.

(** [_mark_file] once the state file is in place. *)
Lemma mark_file_run track rel σ :
  ready σ →
  _mark_file DEFAULT_LIBRARY_FILE_PATH track
    (join (destination (config (self σ))) rel) σ
  = (Return (), stored (<[persistent_id track := rel]> (store σ)) σ).
Proof.
  intros Hready. unfold _mark_file. unfold mbind at 1, M_bind at 1.
  rewrite library_data_ready_run by done.
  unfold mbind at 1, M_bind at 1, get_self.
  rewrite set_library_data_ready_run by done. by rewrite relpath_join.
Qed.


(** *** The copy phase when every copy succeeds *)

Section Copies.
Variable transfer : iTunesTrack → copy_outcome.
Variables after_callback before_callback error_callback : bool.

(** [_copy_file] when the bytes get through: the file is at the returned
    path, which lies under the destination. *)
Lemma copy_file_copied track bytes σ :
  transfer track = Copied bytes →
  ∃ rel σ',
    _copy_file transfer track σ
    = (Return (join (destination (config (self σ))) rel), σ')
    ∧ files (world σ')
      = <[join (destination (config (self σ))) rel := bytes]> (files (world σ))
    ∧ library_files (world σ') = library_files (world σ)
    ∧ log (world σ') = log (world σ)
    ∧ config (self σ') = config (self σ)
    ∧ tracks (self σ') = tracks (self σ)
    ∧ itunes (self σ') = itunes (self σ).
Proof.
  intros Hcopied. unfold _copy_file. rewrite Hcopied.
  destruct (use_subfolders (config (self σ))) eqn:Hsub.
  - destruct (target_directory_returns σ Hsub)
      as (sub & directory & w' & Hloop & Hrun).
    apply target_directory_loop_spec in Hloop as (-> & _ & _ & Hend).
    exists [pretty sub; filename track]. eexists.
    unfold mbind at 1, M_bind at 1. rewrite Hrun.
    unfold mbind, M_bind, get_world, put_world, mret, M_ret. simpl.
    assert (Hpath : join (numbered (config (self σ)) sub) [filename track]
                    = join (destination (config (self σ)))
                        [pretty sub; filename track]).
    { unfold numbered, join. by rewrite <- (assoc_L (++)). }
    rewrite Hpath. split; [reflexivity|]. simpl.
    assert (Hw' : files w' = files (world σ)
                  ∧ library_files w' = library_files (world σ)
                  ∧ log w' = log (world σ)).
    { by destruct Hend as [(_ & _ & ->)|[_ ->]]. }
    by destruct Hw' as (-> & -> & ->).
  - exists [filename track]. eexists.
    unfold target_directory, mbind, M_bind, get_self, get_world, put_world,
      mret, M_ret. simpl. rewrite Hsub. simpl. done.
Qed.

Abbreviation copy_loop :=
  (copy_tracks_loop DEFAULT_LIBRARY_FILE_PATH transfer after_callback
     before_callback error_callback (PyBool false)).

Lemma copy_loop_skip track rest tests previous σ :
  persistent_id track ∉ tracks (self σ) →
  copy_loop tests (track :: rest) previous σ
  = copy_loop (S tests) rest previous σ.
Proof.
  intros Hout. simpl. unfold mbind at 1, M_bind at 1, get_self at 1.
  by rewrite bool_decide_false.
Qed.

(** One turn of the loop for a track of the plan whose copy succeeds. *)
Lemma copy_loop_copy track bytes rest tests previous σ :
  persistent_id track ∈ tracks (self σ) →
  ready σ →
  transfer track = Copied bytes →
  ∃ rel σ',
    copy_loop tests (track :: rest) previous σ
    = copy_loop (S tests) rest
        (Some (join (destination (config (self σ))) rel)) σ'
    ∧ ready σ'
    ∧ store σ' = <[persistent_id track := rel]> (store σ)
    ∧ files (world σ')
      = <[join (destination (config (self σ))) rel := bytes]> (files (world σ))
    ∧ config (self σ') = config (self σ)
    ∧ tracks (self σ') = tracks (self σ)
    ∧ itunes (self σ') = itunes (self σ).
Proof.
  intros Hin Hready Hcopied.
  set (σa := {| self := self σ;
                world := if before_callback
                         then call (world σ) (before_copy track)
                         else world σ |}).
  assert (Hsa : same_store σ σa) by (split; simpl; [done|]; by destruct before_callback).
  destruct (copy_file_copied track bytes σa Hcopied)
    as (rel & σb & Hcopy & Hfiles & Hlib & Hlog & Hconfig & Htracks & Hitunes).
  assert (Hsb : same_store σa σb) by done.
  assert (Hrb : ready σb).
  { eapply same_store_ready; [exact Hsb|]. by eapply same_store_ready. }
  set (σc := stored (<[persistent_id track := rel]> (store σb)) σb).
  set (σd := {| self := self σc;
                world := if after_callback
                         then call (world σc) (after_copy track)
                         else world σc |}).
  assert (Hsd : same_store σc σd) by (split; simpl; [done|]; by destruct after_callback).
  exists rel, σd. split; [|split; [|split; [|split; [|split; [|split]]]]].
  - simpl. unfold mbind at 1, M_bind at 1, get_self at 1.
    rewrite bool_decide_true by done.
    unfold mbind at 1, M_bind at 1. rewrite callback_run. fold σa.
    unfold mbind at 1, M_bind at 1, try. rewrite Hcopy.
    unfold mbind at 1, M_bind at 1.
    replace (destination (config (self σa)))
      with (destination (config (self σb))) by (by rewrite Hconfig).
    rewrite (mark_file_run track rel σb Hrb).
    fold σc. unfold mbind at 1, M_bind at 1. rewrite callback_run. fold σd.
    by rewrite Hconfig.
  - eapply same_store_ready; [exact Hsd|]. by apply stored_ready.
  - rewrite (same_store_store σc σd Hsd). unfold σc.
    rewrite stored_store. f_equal.
    rewrite (same_store_store σa σb Hsb).
    by rewrite (same_store_store σ σa Hsa).
  - transitivity (files (world σb)); [by destruct after_callback|].
    rewrite Hfiles. simpl. by destruct before_callback.
  - simpl. by rewrite Hconfig.
  - simpl. by rewrite Htracks.
  - simpl. by rewrite Hitunes.
Qed.

(** The loop, when every copy succeeds: nothing is raised, every entry of
    the store keeps a file, and the store gains the tracks of the plan. *)
Lemma copy_loop_copied l : ∀ tests previous σ,
  ready σ → consistent σ →
  (∀ t, t ∈ l → ∃ bytes, transfer t = Copied bytes) →
  ∃ σ',
    copy_loop tests l previous σ = (Return (), σ')
    ∧ ready σ' ∧ consistent σ'
    ∧ config (self σ') = config (self σ)
    ∧ tracks (self σ') = tracks (self σ)
    ∧ itunes (self σ') = itunes (self σ)
    ∧ (∀ k, is_Some (store σ !! k) → is_Some (store σ' !! k))
    ∧ (∀ t, t ∈ l → persistent_id t ∈ tracks (self σ) →
            is_Some (store σ' !! persistent_id t))
    ∧ (∀ k, is_Some (store σ' !! k) →
            is_Some (store σ !! k)
            ∨ (k ∈ tracks (self σ) ∧ ∃ t, t ∈ l ∧ persistent_id t = k)).
Proof.
  induction l as [|track rest IH]; intros tests previous σ Hready Hcons Hall.
  - exists σ. split; [done|]. split; [done|]. split; [done|].
    split; [done|]. split; [done|]. split; [done|]. split; [done|].
    split; [|by left]. intros t Hin. by apply elem_of_nil in Hin.
  - assert (Hrest : ∀ t, t ∈ rest → ∃ bytes, transfer t = Copied bytes)
      by (intros t Ht; apply Hall; by right).
    destruct (decide (persistent_id track ∈ tracks (self σ))) as [Hin|Hout].
    + destruct (Hall track) as [bytes Hcopied]; [by left|].
      destruct (copy_loop_copy track bytes rest tests previous σ
                  Hin Hready Hcopied)
        as (rel & σ1 & Hstep & Hr1 & Hs1 & Hf1 & Hc1 & Ht1 & Hi1).
      assert (Hcons1 : consistent σ1).
      { intros k rel' Hk. rewrite Hs1 in Hk. rewrite Hf1, Hc1.
        apply lookup_insert_is_Some.
        destruct (decide (k = persistent_id track)) as [->|Hne].
        - rewrite lookup_insert_eq in Hk. injection Hk as <-. by left.
        - rewrite lookup_insert_ne in Hk by done.
          destruct (decide (join (destination (config (self σ))) rel
                            = join (destination (config (self σ))) rel'));
            [by left|right]. split; [done|]. by eapply Hcons. }
      destruct (IH (S tests)
                  (Some (join (destination (config (self σ))) rel)) σ1
                  Hr1 Hcons1 Hrest)
        as (σ' & Hrun & Hr' & Hcons' & Hc' & Ht' & Hi' & Hkeep & Hnew & Hold).
      exists σ'. rewrite Hstep.
      split; [done|]. split; [done|]. split; [done|].
      split; [congruence|]. split; [congruence|]. split; [congruence|].
      split; [|split].
      * intros k Hk. apply Hkeep. rewrite Hs1.
        apply lookup_insert_is_Some'. by right.
      * intros t Ht Hplan. apply elem_of_cons in Ht as [->|Ht].
        -- apply Hkeep. rewrite Hs1. apply lookup_insert_is_Some'. by left.
        -- apply Hnew; [done|]. by rewrite Ht1.
      * intros k Hk. apply Hold in Hk as [Hk|[Hk (t & Ht & <-)]].
        -- rewrite Hs1 in Hk. apply lookup_insert_is_Some' in Hk as [<-|Hk];
             [right|by left].
           split; [done|]. exists track. split; [by left|done].
        -- right. rewrite Ht1 in Hk. split; [done|]. exists t.
           split; [by right|done].
    + rewrite copy_loop_skip by done.
      destruct (IH (S tests) previous σ Hready Hcons Hrest)
        as (σ' & Hrun & Hr' & Hcons' & Hc' & Ht' & Hi' & Hkeep & Hnew & Hold).
      exists σ'. split; [done|]. split; [done|]. split; [done|].
      split; [done|]. split; [done|]. split; [done|]. split; [done|].
      split.
      * intros t Ht Hplan. apply elem_of_cons in Ht as [->|Ht]; [done|].
        by apply Hnew.
      * intros k Hk. apply Hold in Hk as [Hk|[Hk (t & Ht & <-)]]; [by left|].
        right. split; [done|]. exists t. split; [by right|done].
Qed.

End Copies.
(** With an empty tracks-to-copy set the copy phase does nothing, whatever
    the outcome of a copy would be and whatever the end signal. *)
Lemma copy_tracks_nothing transfer after_callback before_callback
    error_callback end_signal σ :
  tracks (self σ) = ∅ →
  copy_tracks DEFAULT_LIBRARY_FILE_PATH transfer after_callback
    before_callback error_callback end_signal σ = (Return (), σ).
Proof.
  intros Hempty. unfold copy_tracks, mbind, M_bind, get_self.
  generalize (if negb (truthy end_signal 0) then PyBool false else end_signal).
  generalize 1. generalize (@None path).
  induction (Itunes.tracks (itunes (self σ))) as [|track rest IH];
    intros previous tests signal; simpl.
  - by destruct (truthy signal tests).
  - destruct (truthy signal tests); [done|].
    unfold mbind at 1, M_bind at 1, get_self at 1.
    rewrite bool_decide_false; [apply IH|].
    rewrite Hempty. apply not_elem_of_empty.
Qed.

(** Reconciliation when every entry of the store is in the plan: nothing
    is deleted, no callback is called. *)
Lemma clean_loop_all_wanted delete_callback error_callback l :
  NoDup l.*1 → ∀ library σ,
  (∀ k rel, (k, rel) ∈ l → k ∈ tracks (self σ)) →
  _clean_sync_list_loop delete_callback error_callback l library σ
  = (Return library,
     {| self := with_tracks (self σ) (tracks (self σ) ∖ list_to_set l.*1);
        world := world σ |}).
Proof.
  induction l as [|[k0 r0] l IH]; intros Hnodup library σ Hall.
  - simpl. unfold mret, M_ret. destruct σ as [[] ?]. simpl.
    by rewrite difference_empty_L.
  - simpl in Hnodup. apply NoDup_cons in Hnodup as [Hk0 Hnodup].
    rewrite clean_loop_wanted by (eapply Hall; by left).
    rewrite IH; [|done|].
    + simpl. do 3 f_equal. set_solver +.
    + simpl. intros k rel Hin. apply elem_of_difference. split.
      * eapply Hall. by right.
      * intros ->%elem_of_singleton. apply Hk0.
        apply list_elem_of_fmap. by exists (k0, rel).
Qed.

(** *** Planning twice *)

(** The track ids of the playlists whose names are selected. *)
Fixpoint selected (pls : list iTunesPlaylist) (names : gset string) : gset Z :=
  match pls with
  | [] => ∅
  | playlist :: rest =>
      (if bool_decide (playlist_name playlist ∈ names)
       then list_to_set (playlist_tracks playlist) else ∅)
      ∪ selected rest names
  end.

Lemma get_playlist_tracks_loop_selected pls : ∀ f,
  get_playlist_tracks_loop pls f
  = {| filter_filename := filter_filename f; albums := albums f;
       artists := artists f; genres := genres f; playlists := playlists f;
       Config.tracks := Config.tracks f ∪ selected pls (playlists f) |}.
Proof.
  induction pls as [|playlist rest IH]; intros f; simpl.
  - destruct f. simpl. by rewrite (right_id_L ∅ (∪)).
  - destruct (bool_decide _); rewrite IH; simpl; f_equal.
    + by rewrite (assoc_L (∪)).
    + by rewrite (left_id_L ∅ (∪)).
Qed.

Lemma get_playlist_tracks_idem lib f :
  get_playlist_tracks lib (get_playlist_tracks lib f)
  = get_playlist_tracks lib f.
Proof.
  unfold get_playlist_tracks. rewrite !get_playlist_tracks_loop_selected.
  simpl. f_equal. rewrite <- (assoc_L (∪)). f_equal. apply (idemp_L (∪)).
Qed.

(** The configuration with its playlist rules resolved, as
    [generate_sync_list] leaves it. *)
Definition resolved (lib : iTunesLibrary) (c : HibikiConfig) : HibikiConfig :=
  set_filters c (get_playlist_tracks lib (excludes c))
    (get_playlist_tracks lib (includes c)).

Lemma resolved_idem lib c : resolved lib (resolved lib c) = resolved lib c.
Proof.
  unfold resolved, set_filters. simpl.
  by rewrite !get_playlist_tracks_idem.
Qed.

(** What the main pass admits depends on the budget, not on the plan. *)
Lemma main_pass_admitted ex inc catalog : ∀ st1 st2,
  space st1 = space st2 →
  ∃ more,
    admitted (main_pass ex inc catalog st1) = admitted st1 ++ more
    ∧ admitted (main_pass ex inc catalog st2) = admitted st2 ++ more.
Proof.
  induction catalog as [|t rest IH]; intros st1 st2 Hspace; simpl.
  - exists []. by rewrite !(right_id_L [] (++)).
  - unfold consider. destruct (is_filtered ex t); [by apply IH|].
    destruct (is_filtered inc t); [|by apply IH].
    unfold admit_track. rewrite Hspace.
    destruct (space st2 >=? size t)%Z; [|by apply IH].
    edestruct (IH {| space := space st2 - size t;
                     plan := plan st1 ∪ {[persistent_id t]};
                     admitted := admitted st1 ++ [t] |}
                  {| space := space st2 - size t;
                     plan := plan st2 ∪ {[persistent_id t]};
                     admitted := admitted st2 ++ [t] |})
      as (more & H1 & H2); [done|].
    exists (t :: more). rewrite H1, H2. simpl.
    by rewrite <- !(assoc_L (++)).
Qed.

(** Without random fill the plan is the tracks that were in
    [self.tracks] and the tracks the budget admits. *)
Lemma admission_plan sample1 sample2 c catalog budget tracks2 :
  random_fill c = false →
  plan (admission sample2 c catalog budget tracks2)
  = tracks2 ∪ plan (admission sample1 c catalog budget ∅).
Proof.
  intros Hfill.
  destruct (budget_kept_admission sample1 c catalog budget ∅)
    as (_ & Hplan1 & _).
  destruct (budget_kept_admission sample2 c catalog budget tracks2)
    as (_ & Hplan2 & _).
  assert (Hsame : admitted (admission sample1 c catalog budget ∅)
                  = admitted (admission sample2 c catalog budget tracks2)).
  { unfold admission. rewrite Hfill.
    destruct (main_pass_admitted (excludes c) (includes c) catalog
                {| space := budget; plan := ∅; admitted := [] |}
                {| space := budget; plan := tracks2; admitted := [] |})
      as (more & H1 & H2); [done|]. simpl in H1, H2. congruence. }
  rewrite Hplan2, Hplan1, Hsame. by rewrite (left_id_L ∅ (∪)).
Qed.

(** [generate_sync_list]: the budget, the plan, the reconciliation. *)
Lemma generate_sync_list_run sample delete_callback error_callback σ :
  state_file_reachable DEFAULT_LIBRARY_FILE_PATH σ →
  let σa := written DEFAULT_LIBRARY_FILE_PATH
              (pruned DEFAULT_LIBRARY_FILE_PATH σ)
              (opened DEFAULT_LIBRARY_FILE_PATH σ) in
  let c := resolved (itunes (self σa)) (config (self σa)) in
  generate_sync_list DEFAULT_LIBRARY_FILE_PATH sample delete_callback
    error_callback σ
  = _clean_sync_list DEFAULT_LIBRARY_FILE_PATH delete_callback error_callback
      {| self := with_tracks (with_config (self σa) c)
                   (plan (admission sample c (Itunes.tracks (itunes (self σa)))
                            (effective_budget DEFAULT_LIBRARY_FILE_PATH σ)
                            (tracks (self σa))));
         world := world σa |}.
Proof.
  intros Hr σa c. unfold generate_sync_list.
  unfold mbind at 1, M_bind at 1. rewrite calculate_space_run by done.
  unfold mbind at 1 2, M_bind at 1 2, get_self, put_self. done.
Qed.

(** *** Reconciliation of a store whose entries all have their files *)

Lemma pruned_consistent σ :
  consistent σ → pruned DEFAULT_LIBRARY_FILE_PATH σ = store σ.
Proof.
  intros Hcons. apply map_eq. intros k. unfold pruned.
  destruct (store σ !! k) as [rel|] eqn:Hk.
  - apply map_lookup_filter_Some. split; [done|]. by eapply Hcons.
  - apply map_lookup_filter_None. by left.
Qed.

(** When no two entries share a path and every entry has its file, the
    store after reconciliation is the store restricted to the plan, and
    every entry left has its file. *)
Lemma clean_sync_list_consistent delete_callback error_callback σ :
  ready σ → consistent σ →
  (∀ k k' rel, store σ !! k = Some rel → store σ !! k' = Some rel → k = k') →
  ∃ σ',
    _clean_sync_list DEFAULT_LIBRARY_FILE_PATH delete_callback
      error_callback σ = (Return (), σ')
    ∧ ready σ' ∧ consistent σ'
    ∧ config (self σ') = config (self σ)
    ∧ itunes (self σ') = itunes (self σ)
    ∧ tracks (self σ') = tracks (self σ) ∖ dom (store σ)
    ∧ (∀ k, is_Some (store σ' !! k)
            ↔ is_Some (store σ !! k) ∧ k ∈ tracks (self σ)).
Proof.
  intros Hready Hcons Hinj.
  assert (Hr : state_file_reachable DEFAULT_LIBRARY_FILE_PATH σ)
    by (left; apply Hready).
  destruct (clean_sync_list_run DEFAULT_LIBRARY_FILE_PATH delete_callback
              error_callback σ Hr)
    as (library' & σl & Hloop & Hrun & Hready' & Hstore & Hself & Hfiles & _).
  rewrite (opened_idem _ σ Hready) in Hloop.
  destruct (clean_loop_returns delete_callback error_callback
              (map_to_list (store σ)) (store σ) σ)
    as (library'' & σl' & Hloop' & Hshape & _).
  rewrite Hloop in Hloop'. injection Hloop' as <- <-.
  apply clean_loop_spec in Hloop as (Htracks & Hfs & Hlib & Hdel);
    [|apply NoDup_fst_map_to_list].
  set (σ' := written DEFAULT_LIBRARY_FILE_PATH library' σl) in *.
  assert (Hconfig : config (self σ') = config (self σ))
    by (by rewrite Hself, Hshape).
  assert (Hentry : ∀ k rel,
            library' !! k = Some rel
            ↔ store σ !! k = Some rel ∧ k ∈ tracks (self σ)).
  { intros k rel. split.
    - intros Hk. destruct (Hlib k) as [Heq|[Hnone _]]; [|congruence].
      rewrite Heq in Hk. split; [done|].
      destruct (decide (k ∈ tracks (self σ))) as [|Hout]; [done|].
      exfalso. rewrite (Hdel k rel) in Heq; first congruence.
      + by apply elem_of_map_to_list.
      + done.
      + by eapply Hcons.
      + intros k' rel' Hin' _ Hne ->. apply Hne.
        apply elem_of_map_to_list in Hin'. by eapply Hinj.
    - intros [Hk Hin]. destruct (Hlib k) as [->|[_ (? & _ & ? & _)]]; done. }
  exists σ'. split; [done|]. split; [done|].
  split; [|split; [done|split; [|split]]].
  - intros k rel Hk. rewrite Hstore in Hk. apply Hentry in Hk as [Hk Hin].
    rewrite Hfiles, Hconfig, Hfs. rewrite bool_decide_false; [by eapply Hcons|].
    intros (k' & rel' & Hin' & Hout' & Heq)%elem_of_targets.
    apply join_inj in Heq as <-. apply elem_of_map_to_list in Hin'.
    assert (k' = k) as -> by (by eapply Hinj). done.
  - by rewrite Hself, Hshape.
  - rewrite Hself, Htracks. apply set_eq. intros k.
    rewrite !elem_of_difference, elem_of_list_to_set, elem_of_dom.
    rewrite list_elem_of_fmap. split; intros [? Hn]; (split; [done|]).
    + intros [rel Hk]. apply Hn. exists (k, rel). split; [done|].
      by apply elem_of_map_to_list.
    + intros ([k' rel] & -> & Hin). apply Hn. exists rel.
      by apply elem_of_map_to_list.
  - intros k. rewrite Hstore. split.
    + intros [rel Hk]. apply Hentry in Hk as [??]. split; [by eexists|done].
    + intros [[rel Hk] Hin]. exists rel. by apply Hentry.
Qed.

(** When every entry of the store is in the plan, reconciliation deletes
    nothing and calls nothing. *)
Lemma clean_sync_list_satisfied delete_callback error_callback σ :
  ready σ →
  (∀ k, is_Some (store σ !! k) → k ∈ tracks (self σ)) →
  _clean_sync_list DEFAULT_LIBRARY_FILE_PATH delete_callback error_callback σ
  = (Return (),
     stored (store σ)
       {| self := with_tracks (self σ) (tracks (self σ) ∖ dom (store σ));
          world := world σ |}).
Proof.
  intros Hready Hall. unfold _clean_sync_list.
  unfold mbind at 1, M_bind at 1. rewrite library_data_ready_run by done.
  unfold mbind at 1, M_bind at 1.
  rewrite clean_loop_all_wanted; [|apply NoDup_fst_map_to_list|].
  - rewrite set_library_data_ready_run.
    + do 4 f_equal. apply set_eq. intros k.
      rewrite !elem_of_difference, elem_of_list_to_set, elem_of_dom.
      rewrite list_elem_of_fmap. split; intros [? Hn]; (split; [done|]).
      * intros [rel Hk]. apply Hn. exists (k, rel). split; [done|].
        by apply elem_of_map_to_list.
      * intros ([k' rel] & -> & Hin). apply Hn. exists rel.
        by apply elem_of_map_to_list.
    + by destruct Hready.
  - intros k rel Hin. apply Hall. exists rel. by apply elem_of_map_to_list.
Qed.

(** *** Two runs in a row *)


End Pipeline.



Section PlannerCoverage.
Local Open Scope Z_scope.

(** A track the planner may admit under configuration [c]: no exclude rule
    matches it, and an include rule matches it or the random fill is on. *)
Definition eligible (c : HibikiConfig) (t : iTunesTrack) : Prop :=
  is_filtered (excludes c) t = false
  ∧ (is_filtered (includes c) t = true ∨ random_fill c = true).

#[global] Instance eligible_dec c t : Decision (eligible c t).
Proof. unfold eligible. apply _. Defined.

Definition sized (l : list iTunesTrack) : Prop := ∀ t, t ∈ l → 0 ≤ size t.

Lemma admit_track_cases t st :
  (space st < size t ∧ admit_track t st = st)
  ∨ (size t ≤ space st
     ∧ space (admit_track t st) = space st - size t
     ∧ plan (admit_track t st) = plan st ∪ {[persistent_id t]}
     ∧ admitted (admit_track t st) = admitted st ++ [t]).
Proof.
  unfold admit_track. destruct (space st >=? size t) eqn:Hge.
  - right. apply Z.geb_le in Hge. done.
  - left. split; [|done]. rewrite Z.geb_leb in Hge. apply Z.leb_gt in Hge. lia.
Qed.

(** The plan only grows and, when no size is negative, the space only
    shrinks. *)
Definition grows (st st' : planning) : Prop :=
  plan st ⊆ plan st' ∧ space st' ≤ space st.

Lemma grows_refl st : grows st st.
Proof. by split. Qed.

Lemma grows_trans st1 st2 st3 : grows st1 st2 → grows st2 st3 → grows st1 st3.
Proof. intros [??] [??]. split; [set_solver|lia]. Qed.

Lemma admit_track_grows t st : 0 ≤ size t → grows st (admit_track t st).
Proof.
  intros Hs. destruct (admit_track_cases t st) as [[_ ->]|(? & Hsp & Hpl & _)].
  - apply grows_refl.
  - split; [rewrite Hpl; set_solver +|lia].
Qed.

Lemma consider_grows ex inc t st : 0 ≤ size t → grows st (consider ex inc t st).
Proof.
  intros Hs. unfold consider.
  destruct (is_filtered ex t); [apply grows_refl|].
  destruct (is_filtered inc t); [by apply admit_track_grows|apply grows_refl].
Qed.

Lemma consider_random_grows ex t st :
  0 ≤ size t → grows st (consider_random ex t st).
Proof.
  intros Hs. unfold consider_random.
  destruct (negb (is_filtered ex t)); [|apply grows_refl].
  destruct (negb (bool_decide _)); [by apply admit_track_grows|apply grows_refl].
Qed.

Lemma main_pass_grows ex inc catalog st :
  sized catalog → grows st (main_pass ex inc catalog st).
Proof.
  intros Hs. apply main_pass_ind; [apply grows_refl|].
  intros t st' Hin Hst'. eapply grows_trans; [done|].
  apply consider_grows. by apply Hs.
Qed.

Lemma random_fill_loop_grows sample ex fuel music st :
  sized music → grows st (random_fill_loop sample ex fuel music st).
Proof.
  intros Hs. apply random_fill_loop_ind; [apply grows_refl|].
  intros t st' Hin Hst'. eapply grows_trans; [done|].
  apply consider_random_grows. by apply Hs.
Qed.

(** *** Soundness: what enters the plan *)

Lemma admitted_eligible sample c catalog budget tracks0 t :
  t ∈ admitted (admission sample c catalog budget tracks0) →
  t ∈ catalog ∧ eligible c t.
Proof.
  unfold admission.
  assert (Hmain : ∀ t, t ∈ admitted
                        (main_pass (excludes c) (includes c) catalog
                           {| space := budget; plan := tracks0; admitted := [] |}) →
                       t ∈ catalog ∧ is_filtered (excludes c) t = false
                       ∧ is_filtered (includes c) t = true).
  { apply main_pass_ind.
    - simpl. intros t' Hin. by apply elem_of_nil in Hin.
    - intros t' st Hin Hst t''. unfold consider.
      destruct (is_filtered (excludes c) t') eqn:Hex; [apply Hst|].
      destruct (is_filtered (includes c) t') eqn:Hinc; [|apply Hst].
      destruct (admit_track_cases t' st) as [[_ ->]|(_ & _ & _ & ->)];
        [apply Hst|].
      rewrite elem_of_app, list_elem_of_singleton. intros [?| ->]; auto. }
  destruct (random_fill c) eqn:Hfill.
  - revert t. apply random_fill_loop_ind.
    + intros t Hin. apply Hmain in Hin as (? & ? & ?). split; [done|].
      split; [done|by right].
    + intros t' st Hin Hst t''. unfold consider_random.
      destruct (is_filtered (excludes c) t') eqn:Hex; simpl; [apply Hst|].
      destruct (negb (bool_decide _)); [|apply Hst].
      destruct (admit_track_cases t' st) as [[_ ->]|(_ & _ & _ & ->)];
        [apply Hst|].
      rewrite elem_of_app, list_elem_of_singleton. intros [?| ->]; [auto|].
      split; [done|]. split; [done|by right].
  - intros Hin. apply Hmain in Hin as (? & ? & ?). split; [done|].
    split; [done|by left].
Qed.


(** *** Greediness: what is left out does not fit *)

Lemma main_pass_greedy ex inc catalog : ∀ st t,
  sized catalog → t ∈ catalog →
  is_filtered ex t = false → is_filtered inc t = true →
  persistent_id t ∈ plan (main_pass ex inc catalog st)
  ∨ space (main_pass ex inc catalog st) < size t.
Proof.
  induction catalog as [|t0 rest IH]; intros st t Hs Hin Hex Hinc.
  - by apply elem_of_nil in Hin.
  - assert (Hrest : sized rest) by (intros t' Ht'; apply Hs; by right).
    simpl. apply elem_of_cons in Hin as [->|Hin]; [|by apply IH].
    destruct (main_pass_grows ex inc rest (consider ex inc t0 st) Hrest)
      as [Hplan Hspace].
    unfold consider in *. rewrite Hex, Hinc in *.
    destruct (admit_track_cases t0 st) as [[Hlt Heq]|(_ & _ & Hpl & _)].
    + right. rewrite Heq in Hspace |- *. lia.
    + left. apply Hplan. rewrite Hpl. set_solver +.
Qed.

Lemma random_fill_loop_greedy sample ex : ∀ fuel music st t,
  (length music ≤ fuel)%nat → sized music → t ∈ music →
  is_filtered ex t = false →
  persistent_id t ∈ plan (random_fill_loop sample ex fuel music st)
  ∨ space (random_fill_loop sample ex fuel music st) < size t.
Proof.
  induction fuel as [|fuel IH]; intros music st t Hlen Hs Hin Hex.
  - destruct music; [by apply elem_of_nil in Hin|simpl in Hlen; lia].
  - simpl. set (i := (sample (length music) mod length music)%nat).
    assert (Hi : (i < length music)%nat).
    { apply Nat.mod_upper_bound. destruct music; [|done].
      by apply elem_of_nil in Hin. }
    destruct (lookup_lt_is_Some_2 music i Hi) as [track Htrack].
    rewrite Htrack.
    pose proof (delete_Permutation music i track Htrack) as Hperm.
    assert (Hrest : sized (delete i music)).
    { intros t' Ht'. apply Hs. rewrite Hperm. by right. }
    rewrite Hperm in Hin. apply elem_of_cons in Hin as [->|Hin].
    + destruct (random_fill_loop_grows sample ex fuel (delete i music)
                  (consider_random ex track st) Hrest) as [Hplan Hspace].
      unfold consider_random in *. rewrite Hex in *. simpl in *.
      destruct (bool_decide (persistent_id track ∈ plan st)) eqn:Hp; simpl in *.
      * left. apply Hplan. by apply bool_decide_eq_true in Hp.
      * destruct (admit_track_cases track st) as [[Hlt Heq]|(_ & _ & Hpl & _)].
        -- right. rewrite Heq in Hspace |- *. lia.
        -- left. apply Hplan. rewrite Hpl. set_solver +.
    + apply IH; [|done|done|done].
      rewrite length_delete by (by eexists). lia.
Qed.

(** *** Completeness: with room for all, all is planned *)

Lemma total_size_Permutation l1 l2 :
  l1 ≡ₚ l2 → total_size l1 = total_size l2.
Proof. induction 1; simpl; lia. Qed.

Lemma total_size_nonneg l : sized l → 0 ≤ total_size l.
Proof.
  induction l as [|t l IH]; intros Hs; simpl; [lia|].
  assert (0 ≤ size t) by (apply Hs; by left).
  assert (0 ≤ total_size l) by (apply IH; intros t' ?; apply Hs; by right).
  lia.
Qed.

Lemma sized_filter (P : iTunesTrack → Prop) `{∀ t, Decision (P t)} l :
  sized l → sized (filter P l).
Proof. intros Hs t Hin. apply list_elem_of_filter in Hin as [_ Hin]. by apply Hs. Qed.

Lemma total_size_filter_mono (P Q : iTunesTrack → Prop)
    `{∀ t, Decision (P t)} `{∀ t, Decision (Q t)} l :
  sized l → (∀ t, t ∈ l → P t → Q t) →
  total_size (filter P l) ≤ total_size (filter Q l).
Proof.
  induction l as [|t l IH]; intros Hs HPQ; [simpl; lia|].
  assert (0 ≤ size t) by (apply Hs; by left).
  assert (total_size (filter P l) ≤ total_size (filter Q l)).
  { apply IH; [intros t' ?; apply Hs; by right|].
    intros t' ?. apply HPQ. by right. }
  rewrite !filter_cons.
  destruct (decide (P t)) as [Hp|Hp]; destruct (decide (Q t)) as [Hq|Hq];
    simpl; try lia.
  exfalso. apply Hq, HPQ; [by left|done].
Qed.

(** Two disjoint selections of a list weigh no more than a selection that
    contains both. *)
Lemma total_size_filter_split (P Q R : iTunesTrack → Prop)
    `{∀ t, Decision (P t)} `{∀ t, Decision (Q t)} `{∀ t, Decision (R t)} l :
  sized l →
  (∀ t, t ∈ l → P t → Q t → False) →
  (∀ t, t ∈ l → P t → R t) → (∀ t, t ∈ l → Q t → R t) →
  total_size (filter P l) + total_size (filter Q l) ≤ total_size (filter R l).
Proof.
  induction l as [|t l IH]; intros Hs Hdis HP HQ; [simpl; lia|].
  assert (0 ≤ size t) by (apply Hs; by left).
  assert (total_size (filter P l) + total_size (filter Q l)
          ≤ total_size (filter R l)).
  { apply IH.
    - intros t' ?. apply Hs. by right.
    - intros t' ?. apply Hdis. by right.
    - intros t' ?. apply HP. by right.
    - intros t' ?. apply HQ. by right. }
  rewrite !filter_cons.
  destruct (decide (P t)) as [Hp|Hp]; destruct (decide (Q t)) as [Hq|Hq];
    destruct (decide (R t)) as [Hr|Hr]; simpl; try lia.
  - exfalso. eapply Hdis; [by left|done|done].
  - exfalso. eapply Hdis; [by left|done|done].
  - exfalso. apply Hr, HP; [by left|done].
  - exfalso. apply Hr, HQ; [by left|done].
Qed.

Lemma main_pass_complete ex inc catalog : ∀ st,
  sized catalog →
  total_size (filter (λ t, is_filtered ex t = false ∧ is_filtered inc t = true)
                catalog) ≤ space st →
  (∀ t, t ∈ catalog → is_filtered ex t = false → is_filtered inc t = true →
        persistent_id t ∈ plan (main_pass ex inc catalog st))
  ∧ space (main_pass ex inc catalog st)
    = space st
      - total_size (filter (λ t, is_filtered ex t = false
                                 ∧ is_filtered inc t = true) catalog).
Proof.
  induction catalog as [|t0 rest IH]; intros st Hs Hfit.
  - split; [|simpl; lia]. intros t Hin. by apply elem_of_nil in Hin.
  - assert (Hrest : sized rest) by (intros t' Ht'; apply Hs; by right).
    assert (H0 : 0 ≤ size t0) by (apply Hs; by left).
    pose proof (total_size_nonneg _
                  (sized_filter (λ t, is_filtered ex t = false
                                      ∧ is_filtered inc t = true) rest Hrest))
      as Hpos.
    simpl. rewrite filter_cons in Hfit |- *.
    destruct (decide (is_filtered ex t0 = false ∧ is_filtered inc t0 = true))
      as [[Hex Hinc]|Hno].
    + simpl in Hfit.
      assert (Hc : consider ex inc t0 st = admit_track t0 st).
      { unfold consider. by rewrite Hex, Hinc. }
      rewrite Hc.
      destruct (admit_track_cases t0 st) as [[Hlt _]|(_ & Hsp & Hpl & _)];
        [lia|].
      destruct (IH (admit_track t0 st) Hrest) as [Hall Hspace]; [lia|].
      split.
      * intros t Hin Hext Hinct. apply elem_of_cons in Hin as [->|Hin].
        -- apply (main_pass_grows ex inc rest _ Hrest). rewrite Hpl.
           set_solver +.
        -- by apply Hall.
      * rewrite Hspace, Hsp. simpl. lia.
    + assert (Hsame : consider ex inc t0 st = st).
      { unfold consider. destruct (is_filtered ex t0); [done|].
        destruct (is_filtered inc t0); [|done]. exfalso. by apply Hno. }
      rewrite Hsame. destruct (IH st Hrest Hfit) as [Hall Hspace].
      split; [|done].
      intros t Hin Hext Hinct. apply elem_of_cons in Hin as [->|Hin];
        [exfalso; by apply Hno|by apply Hall].
Qed.

Lemma random_fill_loop_complete sample ex : ∀ fuel music st,
  (length music ≤ fuel)%nat → sized music →
  total_size (filter (λ t, is_filtered ex t = false
                           ∧ persistent_id t ∉ plan st) music) ≤ space st →
  ∀ t, t ∈ music → is_filtered ex t = false →
       persistent_id t ∈ plan (random_fill_loop sample ex fuel music st).
Proof.
  induction fuel as [|fuel IH]; intros music st Hlen Hs Hfit t Hin Hex.
  - destruct music; [by apply elem_of_nil in Hin|simpl in Hlen; lia].
  - simpl. set (i := (sample (length music) mod length music)%nat).
    assert (Hi : (i < length music)%nat).
    { apply Nat.mod_upper_bound. destruct music; [|done].
      by apply elem_of_nil in Hin. }
    destruct (lookup_lt_is_Some_2 music i Hi) as [track Htrack].
    rewrite Htrack.
    pose proof (delete_Permutation music i track Htrack) as Hperm.
    assert (Hrest : sized (delete i music)).
    { intros t' Ht'. apply Hs. rewrite Hperm. by right. }
    assert (H0 : 0 ≤ size track).
    { apply Hs. rewrite Hperm. by left. }
    assert (Hlen' : (length (delete i music) ≤ fuel)%nat).
    { rewrite length_delete by (by eexists). lia. }
    rewrite (total_size_Permutation _ _
               (filter_Permutation _ _ _ Hperm)) in Hfit.
    rewrite filter_cons in Hfit.
    set (st' := consider_random ex track st).
    assert (Hnext : total_size
                      (filter (λ t, is_filtered ex t = false
                                    ∧ persistent_id t ∉ plan st')
                         (delete i music)) ≤ space st'
                    ∧ (is_filtered ex track = false →
                       persistent_id track ∈ plan st')).
    { unfold st', consider_random.
      destruct (is_filtered ex track) eqn:Hext; simpl.
      { split; [|done]. rewrite decide_False in Hfit by (intros [? _]; done).
        done. }
      destruct (bool_decide (persistent_id track ∈ plan st)) eqn:Hp; simpl.
      { apply bool_decide_eq_true in Hp. split; [|done].
        rewrite decide_False in Hfit by (intros [_ ?]; done). done. }
      apply bool_decide_eq_false in Hp.
      rewrite decide_True in Hfit by done. simpl in Hfit.
      pose proof (total_size_nonneg _
                    (sized_filter (λ t, is_filtered ex t = false
                                        ∧ persistent_id t ∉ plan st)
                       (delete i music) Hrest)) as Hpos.
      destruct (admit_track_cases track st) as [[Hlt _]|(_ & Hsp & Hpl & _)];
        [lia|].
      split; [|intros _; rewrite Hpl; set_solver +].
      rewrite Hsp.
      assert (total_size
                (filter (λ t, is_filtered ex t = false
                              ∧ persistent_id t ∉ plan (admit_track track st))
                   (delete i music))
              ≤ total_size
                  (filter (λ t, is_filtered ex t = false
                                ∧ persistent_id t ∉ plan st) (delete i music))).
      { apply total_size_filter_mono; [done|].
        intros t' _ [? Hnot]. split; [done|]. rewrite Hpl in Hnot.
        set_solver. }
      lia. }
    destruct Hnext as [Hfit' Htrack'].
    rewrite Hperm in Hin. apply elem_of_cons in Hin as [->|Hin].
    + apply (random_fill_loop_grows sample ex fuel (delete i music) st' Hrest).
      by apply Htrack'.
    + by apply IH.
Qed.

End PlannerCoverage.

(** X1. Whatever the budget, the order of the random samples and the plan
    left by an earlier call, the planner admits only tracks of the catalog
    that no exclude rule matches and that an include rule matches (or any
    such track when the random fill is on), and the identifiers in the plan
    are those that were there before and those of the admitted tracks. *)
Theorem plan_within_eligible sample c catalog budget tracks0 :
  let st := admission sample c catalog budget tracks0 in
  Forall (λ t, t ∈ catalog ∧ eligible c t) (admitted st)
  ∧ plan st
    ⊆ tracks0 ∪ list_to_set (persistent_id <$> filter (eligible c) catalog).
Proof.
  intros st.
  assert (Hadm : Forall (λ t, t ∈ catalog ∧ eligible c t) (admitted st)).
  { apply Forall_forall. intros t Hin. by eapply admitted_eligible. }
  split; [done|].
  destruct (budget_kept_admission sample c catalog budget tracks0)
    as (_ & Hplan & _). fold st in Hplan. rewrite Hplan.
  apply union_mono_l. intros k.
  rewrite !elem_of_list_to_set, !list_elem_of_fmap.
  intros (t & -> & Hin). exists t. split; [done|].
  rewrite Forall_forall in Hadm. destruct (Hadm t Hin).
  by apply list_elem_of_filter.
Qed.

(** X2. The planner is greedy: when no track of the catalog has a negative
    size, every track it could have admitted is either in the plan or
    larger than the space that remains when it has finished. *)
Theorem planner_greedy sample c catalog budget tracks0 t :
  sized catalog → t ∈ catalog → eligible c t →
  let st := admission sample c catalog budget tracks0 in
  persistent_id t ∈ plan st ∨ (space st < size t)%Z.
Proof.
  intros Hs Hin [Hex Hel] st. unfold st, admission.
  set (st1 := main_pass (excludes c) (includes c) catalog
                {| space := budget; plan := tracks0; admitted := [] |}).
  destruct (random_fill c) eqn:Hfill.
  - by apply random_fill_loop_greedy.
  - destruct Hel as [Hinc|?]; [|done]. by apply main_pass_greedy.
Qed.

(** X3. When no size is negative and the budget covers the sizes of all the
    tracks the planner could admit, it admits every one of them; without
    random fill the space that remains is the budget minus their sizes. *)
Theorem planner_complete sample c catalog budget tracks0 :
  sized catalog →
  (total_size (filter (eligible c) catalog) ≤ budget)%Z →
  let st := admission sample c catalog budget tracks0 in
  (∀ t, t ∈ catalog → eligible c t → persistent_id t ∈ plan st)
  ∧ (random_fill c = false →
     space st = (budget - total_size (filter (eligible c) catalog))%Z).
Proof.
  intros Hs Hfit st. unfold st, admission.
  set (main := λ t, is_filtered (excludes c) t = false
                    ∧ is_filtered (includes c) t = true).
  set (st0 := {| space := budget; plan := tracks0; admitted := [] |}).
  assert (Hmain_le : (total_size (filter main catalog)
                      ≤ total_size (filter (eligible c) catalog))%Z).
  { apply total_size_filter_mono; [done|].
    intros t _ [??]. split; [done|by left]. }
  destruct (main_pass_complete (excludes c) (includes c) catalog st0 Hs)
    as [Hall Hspace]; [simpl; fold main; lia|].
  fold main in Hspace. simpl in Hspace.
  destruct (random_fill c) eqn:Hfill.
  - split; [|done].
    intros t Hin [Hex _].
    apply random_fill_loop_complete; [done|done| |done|done].
    rewrite Hspace.
    pose proof (total_size_filter_split main
                  (λ t, is_filtered (excludes c) t = false
                        ∧ persistent_id t
                          ∉ plan (main_pass (excludes c) (includes c)
                                    catalog st0))
                  (eligible c) catalog Hs) as Hsplit.
    assert (total_size (filter main catalog)
            + total_size
                (filter (λ t, is_filtered (excludes c) t = false
                              ∧ persistent_id t
                                ∉ plan (main_pass (excludes c) (includes c)
                                          catalog st0)) catalog)
            ≤ total_size (filter (eligible c) catalog))%Z; [|lia].
    apply Hsplit.
    + intros t' Hin' [Hex' Hinc'] [_ Hnot]. apply Hnot. by apply Hall.
    + intros t' _ [??]. split; [done|by left].
    + intros t' _ [??]. split; [done|by right].
  - split.
    + intros t Hin [Hex [Hinc|?]]; [by apply Hall|congruence].
    + intros _. rewrite Hspace. do 2 f_equal.
      apply list_filter_iff. intros t. unfold main, eligible.
      rewrite Hfill. naive_solver.
Qed.

(** With 1000 bytes, the second track (500) does not fit behind the first
    (600). *)
Lemma planner_greedy_witness :
  let st := admission (λ _, 0%nat) Scenario.flat
              [Scenario.track1; Scenario.track2] 1000 ∅ in
  persistent_id Scenario.track2 ∈ plan st
  ∨ (space st < size Scenario.track2)%Z.
Proof.
  apply (planner_greedy (λ _, 0%nat) Scenario.flat
           [Scenario.track1; Scenario.track2] 1000 ∅ Scenario.track2).
  - intros t Hin. apply elem_of_cons in Hin as [->|Hin]; [by vm_compute|].
    apply elem_of_cons in Hin as [->|Hin]; [by vm_compute|].
    by apply elem_of_nil in Hin.
  - right. left.
  - split; [reflexivity|left; reflexivity].
Defined.

(** With 2000 bytes both tracks are planned and 900 bytes remain. *)
Lemma planner_complete_witness :
  let st := admission (λ _, 0%nat) Scenario.flat
              [Scenario.track1; Scenario.track2] 2000 ∅ in
  (∀ t, t ∈ [Scenario.track1; Scenario.track2] → eligible Scenario.flat t →
        persistent_id t ∈ plan st)
  ∧ (random_fill Scenario.flat = false →
     space st
     = (2000 - total_size (filter (eligible Scenario.flat)
                             [Scenario.track1; Scenario.track2]))%Z).
Proof.
  apply (planner_complete (λ _, 0%nat) Scenario.flat
           [Scenario.track1; Scenario.track2] 2000 ∅).
  - intros t Hin. apply elem_of_cons in Hin as [->|Hin]; [by vm_compute|].
    apply elem_of_cons in Hin as [->|Hin]; [by vm_compute|].
    by apply elem_of_nil in Hin.
  - by vm_compute.
Defined.

Section Accounting.
Variable DEFAULT_LIBRARY_FILE_PATH : path.
Local Open Scope Z_scope.

Abbreviation ready2 := (state_file_ready DEFAULT_LIBRARY_FILE_PATH).
Abbreviation store2 := (store_at DEFAULT_LIBRARY_FILE_PATH).
Abbreviation pruned2 := (pruned DEFAULT_LIBRARY_FILE_PATH).
Abbreviation budget2 := (effective_budget DEFAULT_LIBRARY_FILE_PATH).

Lemma sizes_on_disk_Permutation σ l1 l2 :
  l1 ≡ₚ l2 → sizes_on_disk σ l1 = sizes_on_disk σ l2.
Proof. unfold sizes_on_disk. induction 1; simpl; lia. Qed.

(** Entries without a file weigh nothing: leaving them out does not change
    the sum. *)
Lemma sizes_on_disk_present σ (m : gmap string path) :
  sizes_on_disk σ (map_to_list (filter (λ kv, present σ kv.2) m))
  = sizes_on_disk σ (map_to_list m).
Proof.
  induction m as [|k v m Hk _ IH] using map_first_key_ind.
  - by rewrite map_filter_empty.
  - rewrite (sizes_on_disk_Permutation σ _ _ (map_to_list_insert m k v Hk)).
    rewrite map_filter_insert. destruct (decide (present σ (k, v).2)) as [Hp|Hp].
    + rewrite (sizes_on_disk_Permutation σ _ _
                 (map_to_list_insert _ k v
                    (proj2 (map_lookup_filter_None _ m k) (or_introl Hk)))).
      simpl. by rewrite IH.
    + rewrite delete_id by done. rewrite IH. simpl.
      unfold present in Hp. simpl in Hp.
      apply eq_None_not_Some in Hp. rewrite Hp. simpl. lia.
Qed.

(** Two machines that agree on what the space accountant looks at. *)
Lemma effective_budget_same σ σ' :
  files (world σ') = files (world σ) →
  destination (config (self σ')) = destination (config (self σ)) →
  f_bavail (world σ') = f_bavail (world σ) →
  f_frsize (world σ') = f_frsize (world σ) →
  sizes_on_disk σ' (map_to_list (store2 σ'))
  = sizes_on_disk σ (map_to_list (store2 σ)) →
  budget2 σ' = budget2 σ.
Proof.
  intros Hf Hd Hb Hs Hsum. unfold effective_budget.
  by rewrite Hb, Hs, Hsum.
Qed.

Lemma sizes_on_disk_same σ σ' l :
  files (world σ') = files (world σ) →
  destination (config (self σ')) = destination (config (self σ)) →
  sizes_on_disk σ' l = sizes_on_disk σ l.
Proof.
  intros Hf Hd. unfold sizes_on_disk, full_library_path. by rewrite Hf, Hd.
Qed.

Lemma present_same σ σ' rel :
  files (world σ') = files (world σ) →
  destination (config (self σ')) = destination (config (self σ)) →
  present σ' rel ↔ present σ rel.
Proof.
  intros Hf Hd. unfold present, full_library_path. by rewrite Hf, Hd.
Qed.

Lemma stored_twice value value' σ :
  stored DEFAULT_LIBRARY_FILE_PATH value'
    (stored DEFAULT_LIBRARY_FILE_PATH value σ)
  = stored DEFAULT_LIBRARY_FILE_PATH value' σ.
Proof.
  unfold stored. simpl. f_equal. unfold with_library_files. simpl. f_equal.
  by rewrite insert_insert_eq.
Qed.

(** The machine [calculate_space] leaves. *)
Definition accounted (σ : Machine) : Machine :=
  written DEFAULT_LIBRARY_FILE_PATH (pruned2 σ)
    (opened DEFAULT_LIBRARY_FILE_PATH σ).

Lemma accounted_facts σ :
  state_file_reachable DEFAULT_LIBRARY_FILE_PATH σ →
  ready2 (accounted σ)
  ∧ store2 (accounted σ) = pruned2 σ
  ∧ files (world (accounted σ)) = files (world σ)
  ∧ destination (config (self (accounted σ))) = destination (config (self σ))
  ∧ f_bavail (world (accounted σ)) = f_bavail (world σ)
  ∧ f_frsize (world (accounted σ)) = f_frsize (world σ)
  ∧ tracks (self (accounted σ)) = tracks (self σ)
  ∧ itunes (self (accounted σ)) = itunes (self σ)
  ∧ excludes (config (self (accounted σ))) = excludes (config (self σ))
  ∧ includes (config (self (accounted σ))) = includes (config (self σ))
  ∧ random_fill (config (self (accounted σ))) = random_fill (config (self σ))
  ∧ log (world (accounted σ)) = log (world σ).
Proof.
  intros Hr.
  pose proof (opened_ready _ σ Hr) as Hready.
  assert (Hr' : state_file_reachable DEFAULT_LIBRARY_FILE_PATH
                  (opened DEFAULT_LIBRARY_FILE_PATH σ)) by (left; apply Hready).
  destruct (opened_world DEFAULT_LIBRARY_FILE_PATH σ)
    as (Hfiles & _ & _ & Hbavail & Hfrsize & Hlog).
  destruct (opened_self DEFAULT_LIBRARY_FILE_PATH σ)
    as (_ & Hit & Htr & Hsp & Hdest & Hex & Hinc & _ & Hfill & _).
  unfold accounted.
  split; [by apply written_ready|]. split; [by apply written_store|].
  unfold written. simpl.
  rewrite (opened_idem _ (opened DEFAULT_LIBRARY_FILE_PATH σ)) by done.
  by repeat split.
Qed.

End Accounting.



Lemma admission_ext sample c c' catalog budget tracks0 :
  excludes c' = excludes c → includes c' = includes c →
  random_fill c' = random_fill c →
  admission sample c' catalog budget tracks0
  = admission sample c catalog budget tracks0.
Proof. intros Hex Hinc Hfill. unfold admission. by rewrite Hex, Hinc, Hfill. Qed.

(** The machine [generate_sync_list] hands to the reconciler: the space
    is accounted for, the playlists are resolved, the plan is made. *)
Definition drafted (state_file : path) (sample : nat → nat) (σ : Machine)
  : Machine :=
  let σa := accounted state_file σ in
  let c := resolved (itunes (self σa)) (config (self σa)) in
  {| self := with_tracks (with_config (self σa) c)
               (plan (admission sample c (Itunes.tracks (itunes (self σa)))
                        (effective_budget state_file σ) (tracks (self σa))));
     world := world σa |}.

Lemma generate_sync_list_drafted state_file sample delete_callback
    error_callback σ :
  state_file_reachable state_file σ →
  let c := resolved (itunes (self σ)) (config (self σ)) in
  let st := admission sample c (Itunes.tracks (itunes (self σ)))
              (effective_budget state_file σ) (tracks (self σ)) in
  let σb := drafted state_file sample σ in
  generate_sync_list state_file sample delete_callback error_callback σ
  = _clean_sync_list state_file delete_callback error_callback σb
  ∧ state_file_ready state_file σb
  ∧ store_at state_file σb = pruned state_file σ
  ∧ tracks (self σb) = plan st
  ∧ itunes (self σb) = itunes (self σ)
  ∧ excludes (config (self σb)) = excludes c
  ∧ includes (config (self σb)) = includes c
  ∧ destination (config (self σb)) = destination (config (self σ))
  ∧ files (world σb) = files (world σ).
Proof.
  intros Hr c st σb.
  destruct (accounted_facts state_file σ Hr)
    as ([Hpath Hfile] & Hstore & Hfiles & Hdest & _ & _ & Htr & Hit & Hex
        & Hinc & Hfill & _).
  split; [by rewrite generate_sync_list_run|].
  unfold σb, drafted.
  set (σa := accounted state_file σ) in *. clearbody σa.
  set (ca := resolved (itunes (self σa)) (config (self σa))).
  assert (Hsp : ∀ t, state_path state_file (with_tracks (with_config (self σa) ca) t)
                     = state_path state_file (self σa)) by done.
  split; [split; simpl; [by rewrite Hsp, <- Hpath|by rewrite Hsp]|].
  split; [rewrite <- Hstore; unfold store_at; simpl; by rewrite Hsp|].
  simpl. split.
  { rewrite Hit, Htr. f_equal. apply admission_ext; unfold ca, c, resolved;
      simpl; by rewrite ?Hit, ?Hex, ?Hinc, ?Hfill. }
  unfold ca, c, resolved. simpl. by rewrite Hit, Hex, Hinc.
Qed.



Section ReconcilerCalls.
Variable DEFAULT_LIBRARY_FILE_PATH : path.
Variables delete_callback error_callback : bool.

Abbreviation clean_loop2 :=
  (_clean_sync_list_loop delete_callback error_callback).

(** What the reconciler tells the callbacks about one entry of the store,
    for the plan and the files it starts from: nothing for a planned
    entry; for any other the deletion, with the track of the catalog when
    the identifier is known there and the recorded path otherwise, or the
    absence of the file. *)
Definition entry_calls (h : Hibiki) (fs : gmap path Z)
    (entry : string * path) : list Event :=
  if bool_decide (entry.1 ∈ tracks h) then []
  else
    match fs !! join (destination (config h)) entry.2 with
    | Some _ =>
        if delete_callback
        then [before_delete
                match track_by_persistent_id (itunes h) entry.1 with
                | Some data => OfTrack data
                | None => OfPath entry.2
                end]
        else []
    | None =>
        if error_callback
        then [error (OfPath (join (destination (config h)) entry.2))
                FileNotFoundError]
        else []
    end.

Lemma flat_map_agree {A B} (f g : A → list B) l :
  (∀ x, x ∈ l → f x = g x) → flat_map f l = flat_map g l.
Proof.
  induction l as [|x l IH]; intros Hfg; simpl; [done|].
  rewrite Hfg by (by left). rewrite IH; [done|].
  intros y Hy. apply Hfg. by right.
Qed.

Lemma clean_loop_removed_call k rel l library σ size :
  k ∉ tracks (self σ) →
  files (world σ) !! join (destination (config (self σ))) rel = Some size →
  ∃ w', files w'
        = delete (join (destination (config (self σ))) rel) (files (world σ))
        ∧ log w' = log (world σ)
                   ++ entry_calls (self σ) (files (world σ)) (k, rel)
        ∧ clean_loop2 ((k, rel) :: l) library σ
          = clean_loop2 l (delete k library) {| self := self σ; world := w' |}.
Proof.
  intros Hk Hf. simpl. unfold mbind at 1, M_bind at 1, get_self at 1.
  rewrite bool_decide_false by done.
  unfold mbind at 1, M_bind at 1, get_world at 1. unfold remove. rewrite Hf.
  unfold mbind at 1 2, M_bind at 1 2, put_world at 1. rewrite callback_run.
  simpl. eexists. split; [|split; [|done]].
  - by destruct delete_callback.
  - unfold entry_calls. simpl. rewrite bool_decide_false by done. rewrite Hf.
    destruct delete_callback; simpl; [done|by rewrite (right_id_L [] (++))].
Qed.

(** The paths recorded for the entries outside the plan are distinct. *)
Definition distinct_targets (plan : gset string) (l : list (string * path))
  : Prop :=
  ∀ k rel k' rel',
    (k, rel) ∈ l → (k', rel') ∈ l → k ∉ plan → k' ∉ plan → k ≠ k' →
    rel ≠ rel'.

Lemma clean_loop_calls l : NoDup l.*1 → ∀ library σ library' σ',
  distinct_targets (tracks (self σ)) l →
  clean_loop2 l library σ = (Return library', σ') →
  log (world σ')
  = log (world σ) ++ flat_map (entry_calls (self σ) (files (world σ))) l.
Proof.
  induction l as [|[k rel] l IH]; intros Hnodup library σ library' σ' Hdis Hrun.
  - injection Hrun as <- <-. simpl. by rewrite (right_id_L [] (++)).
  - simpl in Hnodup. apply NoDup_cons in Hnodup as [Hk Hnodup].
    assert (Hother : ∀ k' rel', (k', rel') ∈ l → k' ≠ k).
    { intros k' rel' Hin ->. apply Hk. apply list_elem_of_fmap.
      by exists (k, rel'). }
    cbn [flat_map].
    destruct (decide (k ∈ tracks (self σ))) as [Hin|Hout].
    + rewrite clean_loop_wanted in Hrun by done.
      set (σn := {| self := with_tracks (self σ) (tracks (self σ) ∖ {[k]});
                    world := world σ |}) in *.
      assert (Hdisn : distinct_targets (tracks (self σn)) l).
      { simpl. intros k1 r1 k2 r2 H1 H2 Hn1 Hn2.
        apply Hdis; [by right|by right| |].
        - intros ?. apply Hn1. apply elem_of_difference. split; [done|].
          intros Heq%elem_of_singleton. by apply (Hother k1 r1).
        - intros ?. apply Hn2. apply elem_of_difference. split; [done|].
          intros Heq%elem_of_singleton. by apply (Hother k2 r2). }
      rewrite (IH Hnodup library σn library' σ' Hdisn Hrun).
      assert (entry_calls (self σ) (files (world σ)) (k, rel) = []) as ->.
      { unfold entry_calls. simpl. by rewrite bool_decide_true. }
      simpl. f_equal.
      apply flat_map_agree. intros [k' rel'] Hin'. unfold entry_calls. simpl.
      assert (k' ≠ k) by (by apply (Hother k' rel')).
      rewrite (bool_decide_ext (k' ∈ tracks (self σ) ∖ {[k]})
                 (k' ∈ tracks (self σ))) by set_solver.
      done.
    + assert (Hrest : distinct_targets (tracks (self σ)) l).
      { intros k1 r1 k2 r2 H1 H2. apply Hdis; by right. }
      destruct (files (world σ) !! join (destination (config (self σ))) rel)
        as [size|] eqn:Hf.
      * destruct (clean_loop_removed_call k rel l library σ size Hout Hf)
          as (w' & Hfiles & Hlog & Hstep).
        rewrite Hstep in Hrun.
        rewrite (IH Hnodup _ {| self := self σ; world := w' |} library' σ'
                   Hrest Hrun).
        simpl. rewrite Hlog, <- (assoc_L (++)). do 2 f_equal.
        apply flat_map_agree. intros [k' rel'] Hin'. unfold entry_calls. simpl.
        case_bool_decide as Hk'; [done|]. rewrite Hfiles.
        rewrite lookup_delete_ne; [done|].
        intros Heq. apply (inj (join _)) in Heq.
        eapply (Hdis k rel k' rel'); [by left|by right|done|done| |done].
        intros ->. by apply (Hother k' rel').
      * rewrite clean_loop_missing in Hrun by done.
        set (σn := {| self := self σ;
                      world := if error_callback
                               then call (world σ)
                                      (error (OfPath (join (destination
                                         (config (self σ))) rel))
                                         FileNotFoundError)
                               else world σ |}) in *.
        rewrite (IH Hnodup library σn library' σ' Hrest Hrun).
        assert (Hfs : files (world σn) = files (world σ))
          by (simpl; by destruct error_callback).
        rewrite Hfs.
        assert (log (world σn)
                = log (world σ)
                  ++ entry_calls (self σ) (files (world σ)) (k, rel)) as ->.
        { unfold entry_calls. simpl. rewrite bool_decide_false by done.
          rewrite Hf. destruct error_callback; simpl; [done|].
          by rewrite (right_id_L [] (++)). }
        by rewrite <- (assoc_L (++)).
Qed.

End ReconcilerCalls.



Section CopyPhase.
Variable DEFAULT_LIBRARY_FILE_PATH : path.
Variable transfer : iTunesTrack → copy_outcome.
Variables after_callback before_callback error_callback : bool.

Abbreviation ready' := (state_file_ready DEFAULT_LIBRARY_FILE_PATH).
Abbreviation store' := (store_at DEFAULT_LIBRARY_FILE_PATH).
Abbreviation copy_loop' :=
  (copy_tracks_loop DEFAULT_LIBRARY_FILE_PATH transfer after_callback
     before_callback error_callback (PyBool false)).

(** The calls a successful copy of [track] makes to the callbacks. *)
Definition copy_calls (track : iTunesTrack) : list Event :=
  (if before_callback then [before_copy track] else [])
  ++ (if after_callback then [after_copy track] else []).

(** The calls of a whole run in which every copy succeeds. *)
Definition run_calls (planned : gset string) (catalog : list iTunesTrack)
  : list Event :=
  flat_map copy_calls
    (filter (λ track, persistent_id track ∈ planned) catalog).

(** Where [_copy_file] puts a file when the destination is flat. *)
Lemma copy_file_flat track bytes σ :
  use_subfolders (config (self σ)) = false →
  transfer track = Copied bytes →
  _copy_file transfer track σ
  = (Return (join (destination (config (self σ))) [filename track]),
     {| self := self σ;
        world := with_files (world σ)
                   (<[join (destination (config (self σ))) [filename track]
                      := bytes]> (files (world σ))) |}).
Proof.
  intros Hflat Hcopied. unfold _copy_file. rewrite Hcopied.
  unfold target_directory, mbind, M_bind, get_self, get_world, put_world,
    mret, M_ret. simpl. by rewrite Hflat.
Qed.

(** One turn of the loop for a planned track whose copy succeeds, with the
    calls it makes and, on a flat destination, the place it writes to. *)
Lemma copy_loop_turn track bytes rest tests previous σ :
  persistent_id track ∈ tracks (self σ) →
  ready' σ →
  transfer track = Copied bytes →
  ∃ rel σ',
    copy_loop' tests (track :: rest) previous σ
    = copy_loop' (S tests) rest
        (Some (join (destination (config (self σ))) rel)) σ'
    ∧ ready' σ'
    ∧ store' σ' = <[persistent_id track := rel]> (store' σ)
    ∧ files (world σ')
      = <[join (destination (config (self σ))) rel := bytes]> (files (world σ))
    ∧ config (self σ') = config (self σ)
    ∧ tracks (self σ') = tracks (self σ)
    ∧ itunes (self σ') = itunes (self σ)
    ∧ log (world σ') = log (world σ) ++ copy_calls track
    ∧ (use_subfolders (config (self σ)) = false → rel = [filename track]).
Proof.
  intros Hin Hready Hcopied.
  set (σa := {| self := self σ;
                world := if before_callback
                         then call (world σ) (before_copy track)
                         else world σ |}).
  assert (Hsa : same_store σ σa)
    by (split; simpl; [done|]; by destruct before_callback).
  assert (Hcopy : ∃ rel σb,
            _copy_file transfer track σa
            = (Return (join (destination (config (self σa))) rel), σb)
            ∧ files (world σb)
              = <[join (destination (config (self σa))) rel := bytes]>
                  (files (world σa))
            ∧ library_files (world σb) = library_files (world σa)
            ∧ log (world σb) = log (world σa)
            ∧ config (self σb) = config (self σa)
            ∧ tracks (self σb) = tracks (self σa)
            ∧ itunes (self σb) = itunes (self σa)
            ∧ (use_subfolders (config (self σ)) = false →
               rel = [filename track])).
  { destruct (use_subfolders (config (self σ))) eqn:Hsub.
    - destruct (copy_file_copied transfer track bytes σa Hcopied)
        as (rel & σb & H1 & H2 & H3 & H4 & H5 & H6 & H7).
      exists rel, σb. by repeat (split; [done|]).
    - exists [filename track]. eexists.
      rewrite (copy_file_flat track bytes σa Hsub Hcopied).
      by repeat (split; [reflexivity|]). }
  destruct Hcopy
    as (rel & σb & Hcopy & Hfiles & Hlib & Hlog & Hconfig & Htracks & Hitunes
        & Hflat).
  assert (Hsb : same_store σa σb) by done.
  assert (Hrb : ready' σb).
  { eapply same_store_ready; [exact Hsb|]. by eapply same_store_ready. }
  set (σc := stored DEFAULT_LIBRARY_FILE_PATH
               (<[persistent_id track := rel]> (store' σb)) σb).
  set (σd := {| self := self σc;
                world := if after_callback
                         then call (world σc) (after_copy track)
                         else world σc |}).
  assert (Hsd : same_store σc σd)
    by (split; simpl; [done|]; by destruct after_callback).
  exists rel, σd.
  split; [|split; [|split; [|split; [|split; [|split; [|split; [|split]]]]]]].
  - simpl. unfold mbind at 1, M_bind at 1, get_self at 1.
    rewrite bool_decide_true by done.
    unfold mbind at 1, M_bind at 1. rewrite callback_run. fold σa.
    unfold mbind at 1, M_bind at 1, try. rewrite Hcopy.
    unfold mbind at 1, M_bind at 1.
    replace (destination (config (self σa)))
      with (destination (config (self σb))) by (by rewrite Hconfig).
    rewrite (mark_file_run DEFAULT_LIBRARY_FILE_PATH track rel σb Hrb).
    fold σc. unfold mbind at 1, M_bind at 1. rewrite callback_run. fold σd.
    by rewrite Hconfig.
  - eapply same_store_ready; [exact Hsd|]. by apply stored_ready.
  - rewrite (same_store_store _ σc σd Hsd). unfold σc.
    rewrite stored_store. f_equal.
    rewrite (same_store_store _ σa σb Hsb).
    by rewrite (same_store_store _ σ σa Hsa).
  - transitivity (files (world σb)); [by destruct after_callback|].
    rewrite Hfiles. simpl. by destruct before_callback.
  - simpl. by rewrite Hconfig.
  - simpl. by rewrite Htracks.
  - simpl. by rewrite Hitunes.
  - unfold copy_calls. rewrite (assoc_L (++)).
    transitivity (log (world σc)
                  ++ (if after_callback then [after_copy track] else [])).
    { simpl. destruct after_callback; simpl; [done|by rewrite (right_id_L [] (++))]. }
    f_equal. transitivity (log (world σb)); [done|]. rewrite Hlog. simpl.
    destruct before_callback; simpl; [done|by rewrite (right_id_L [] (++))].
  - done.
Qed.

(** The calls of the loop when every copy succeeds. *)
Lemma copy_loop_calls l : ∀ tests previous σ,
  ready' σ →
  (∀ t, t ∈ l → ∃ bytes, transfer t = Copied bytes) →
  ∃ σ',
    copy_loop' tests l previous σ = (Return (), σ')
    ∧ log (world σ') = log (world σ) ++ run_calls (tracks (self σ)) l.
Proof.
  induction l as [|track rest IH]; intros tests previous σ Hready Hall.
  - exists σ. split; [done|]. unfold run_calls. simpl.
    by rewrite (right_id_L [] (++)).
  - assert (Hrest : ∀ t, t ∈ rest → ∃ bytes, transfer t = Copied bytes)
      by (intros t Ht; apply Hall; by right).
    unfold run_calls. rewrite filter_cons.
    destruct (decide (persistent_id track ∈ tracks (self σ))) as [Hin|Hout].
    + destruct (Hall track) as [bytes Hcopied]; [by left|].
      destruct (copy_loop_turn track bytes rest tests previous σ
                  Hin Hready Hcopied)
        as (rel & σ1 & Hstep & Hr1 & _ & _ & _ & Ht1 & _ & Hlog1 & _).
      destruct (IH (S tests)
                  (Some (join (destination (config (self σ))) rel)) σ1
                  Hr1 Hrest) as (σ' & Hrun & Hlog').
      exists σ'. rewrite Hstep. split; [done|].
      rewrite Hlog', Hlog1, Ht1. simpl. unfold run_calls.
      by rewrite (assoc_L (++)).
    + rewrite copy_loop_skip by done.
      destruct (IH (S tests) previous σ Hready Hrest) as (σ' & Hrun & Hlog').
      by exists σ'.
Qed.

(** With an end signal that is falsy at the call, [copy_tracks] is the
    loop over the catalog with the flag down. *)
Lemma copy_tracks_falsy end_signal σ :
  truthy end_signal 0 = false →
  copy_tracks DEFAULT_LIBRARY_FILE_PATH transfer after_callback
    before_callback error_callback end_signal σ
  = copy_loop' 1 (Itunes.tracks (itunes (self σ))) None σ.
Proof.
  intros Hfalsy. unfold copy_tracks, mbind, M_bind, get_self.
  by rewrite Hfalsy.
Qed.

End CopyPhase.

(** X7. A copy phase in which every copy succeeds and the end signal is
    falsy at the call returns normally; every track of the catalog whose
    identifier is planned then has an entry in the state store whose file
    exists under the destination; entries that were in the store stay, no
    entry appears for anything else, every entry still has its file; and
    the plan itself is left as it was (copying does not consume it). *)
Theorem copy_tracks_records state_file transfer after_callback
    before_callback error_callback end_signal σ :
  state_file_ready state_file σ →
  consistent state_file σ →
  (∀ t, t ∈ Itunes.tracks (itunes (self σ)) →
        ∃ bytes, transfer t = Copied bytes) →
  truthy end_signal 0 = false →
  ∃ σ',
    copy_tracks state_file transfer after_callback before_callback
      error_callback end_signal σ = (Return (), σ')
    ∧ tracks (self σ') = tracks (self σ)
    ∧ (∀ t, t ∈ Itunes.tracks (itunes (self σ)) →
            persistent_id t ∈ tracks (self σ) →
            ∃ rel, store_at state_file σ' !! persistent_id t = Some rel
                   ∧ is_Some (files (world σ')
                              !! join (destination (config (self σ))) rel))
    ∧ (∀ k, is_Some (store_at state_file σ !! k) →
            is_Some (store_at state_file σ' !! k))
    ∧ (∀ k, is_Some (store_at state_file σ' !! k) →
            is_Some (store_at state_file σ !! k)
            ∨ (k ∈ tracks (self σ)
               ∧ ∃ t, t ∈ Itunes.tracks (itunes (self σ))
                      ∧ persistent_id t = k))
    ∧ consistent state_file σ'.
Proof.
  intros Hready Hcons Hall Hfalsy.
  rewrite copy_tracks_falsy by done.
  destruct (copy_loop_copied state_file transfer after_callback
              before_callback error_callback
              (Itunes.tracks (itunes (self σ))) 1 None σ Hready Hcons Hall)
    as (σ' & Hrun & _ & Hcons' & Hc' & Ht' & _ & Hkeep & Hnew & Hold).
  exists σ'. split; [done|]. split; [done|].
  split; [|split; [done|split; [done|done]]].
  intros t Hin Hplanned. destruct (Hnew t Hin Hplanned) as [rel Hrel].
  exists rel. split; [done|]. rewrite <- Hc'. by eapply Hcons'.
Qed.

(** X8. In such a copy phase the callbacks are called for the planned
    tracks only, in catalog order: [before_callback] then [after_callback]
    for each (those that are registered), and [error_callback] never. *)
Theorem copy_tracks_callbacks state_file transfer after_callback
    before_callback error_callback end_signal σ :
  state_file_ready state_file σ →
  (∀ t, t ∈ Itunes.tracks (itunes (self σ)) →
        ∃ bytes, transfer t = Copied bytes) →
  truthy end_signal 0 = false →
  ∃ σ',
    copy_tracks state_file transfer after_callback before_callback
      error_callback end_signal σ = (Return (), σ')
    ∧ log (world σ')
      = log (world σ)
        ++ run_calls after_callback before_callback (tracks (self σ))
             (Itunes.tracks (itunes (self σ))).
Proof.
  intros Hready Hall Hfalsy. rewrite copy_tracks_falsy by done.
  by apply copy_loop_calls.
Qed.

(** X9. On a flat destination two planned tracks with the same file name
    are written to the same path: after both copies the destination holds
    one file with the bytes of the second track, and the state store
    records that one path for both identifiers. *)
Theorem same_filename_overwrites state_file transfer after_callback
    before_callback error_callback t1 t2 b1 b2 tests previous σ :
  use_subfolders (config (self σ)) = false →
  state_file_ready state_file σ →
  persistent_id t1 ∈ tracks (self σ) →
  persistent_id t2 ∈ tracks (self σ) →
  filename t1 = filename t2 →
  transfer t1 = Copied b1 → transfer t2 = Copied b2 →
  ∃ σ',
    copy_tracks_loop state_file transfer after_callback before_callback
      error_callback (PyBool false) tests [t1; t2] previous σ
    = (Return (), σ')
    ∧ files (world σ')
      = <[join (destination (config (self σ))) [filename t2] := b2]>
          (files (world σ))
    ∧ store_at state_file σ'
      = <[persistent_id t2 := [filename t2]]>
          (<[persistent_id t1 := [filename t2]]> (store_at state_file σ)).
Proof.
  intros Hflat Hready Hin1 Hin2 Hname Hc1 Hc2.
  destruct (copy_loop_turn state_file transfer after_callback before_callback
              error_callback t1 b1 [t2] tests previous σ Hin1 Hready Hc1)
    as (rel1 & σ1 & Hstep1 & Hr1 & Hs1 & Hf1 & Hconf1 & Ht1 & _ & _ & Hrel1).
  rewrite (Hrel1 Hflat) in *. rewrite <- Ht1 in Hin2.
  destruct (copy_loop_turn state_file transfer after_callback before_callback
              error_callback t2 b2 [] (S tests)
              (Some (join (destination (config (self σ))) [filename t1])) σ1
              Hin2 Hr1 Hc2)
    as (rel2 & σ2 & Hstep2 & Hr2 & Hs2 & Hf2 & Hconf2 & _ & _ & _ & Hrel2).
  rewrite Hrel2 in * by (by rewrite Hconf1).
  exists σ2. rewrite Hstep1, Hstep2. split; [done|]. split.
  - rewrite Hf2, Hf1, Hconf1, Hname. by rewrite insert_insert_eq.
  - by rewrite Hs2, Hs1, Hname.
Qed.

(** Both tracks of scenario A's catalog, planned on an empty destination
    with room for both. *)
Lemma copy_tracks_records_witness :
  let σ := planned [Scenario.track1; Scenario.track2] in
  ∃ σ',
    copy_tracks Scenario.state_file Scenario.all_copied true true true PyNone σ
    = (Return (), σ')
    ∧ tracks (self σ') = tracks (self σ)
    ∧ is_Some (store_at Scenario.state_file σ' !! "id2").
Proof.
  intros σ.
  destruct (copy_tracks_records Scenario.state_file Scenario.all_copied
              true true true PyNone σ)
    as (σ' & Hrun & Htracks & Hnew & _).
  - split; [vm_compute; reflexivity|]. vm_compute. by eexists.
  - intros k rel Hk. exfalso. revert Hk.
    assert (store_at Scenario.state_file σ = ∅) as ->
      by (vm_compute; reflexivity).
    by rewrite lookup_empty.
  - intros t _. by eexists.
  - reflexivity.
  - exists σ'. split; [exact Hrun|]. split; [exact Htracks|].
    destruct (Hnew Scenario.track2) as (rel & Hrel & _).
    + right. left.
    + apply (bool_decide_unpack _). vm_compute. exact I.
    + exists rel. exact Hrel.
Defined.

Lemma copy_tracks_callbacks_witness :
  let σ := planned [Scenario.track1; Scenario.track2] in
  ∃ σ',
    copy_tracks Scenario.state_file Scenario.all_copied true true true PyNone σ
    = (Return (), σ')
    ∧ log (world σ')
      = [before_copy Scenario.track1; after_copy Scenario.track1;
         before_copy Scenario.track2; after_copy Scenario.track2].
Proof.
  intros σ.
  destruct (copy_tracks_callbacks Scenario.state_file Scenario.all_copied
              true true true PyNone σ) as (σ' & Hrun & Hlog).
  - split; [vm_compute; reflexivity|]. vm_compute. by eexists.
  - intros t _. by eexists.
  - reflexivity.
  - exists σ'. split; [exact Hrun|]. rewrite Hlog. vm_compute. reflexivity.
Defined.

(** Two tracks of different artists whose files are both called
    [song.mp3]. *)
Lemma same_filename_overwrites_witness :
  let t1 := Scenario.track 7 "id7" "Ayumi" 300 "song.mp3" in
  let t2 := Scenario.track 8 "id8" "Boris" 200 "song.mp3" in
  let σ := {| self := with_tracks
                        (Core.new
                           (set_library_path Scenario.flat
                              ["mnt"; ".hibiki"; "library"])
                           (Scenario.catalog [t1; t2])) {["id7"; "id8"]};
              world := Scenario.synced_world 1000 [] [] |} in
  ∃ σ',
    copy_tracks_loop Scenario.state_file Scenario.all_copied true true true
      (PyBool false) 1 [t1; t2] None σ = (Return (), σ')
    ∧ files (world σ') = {[ ["mnt"; "song.mp3"] := 200%Z ]}
    ∧ store_at Scenario.state_file σ'
      = {[ "id7" := ["song.mp3"]; "id8" := ["song.mp3"] ]}.
Proof.
  intros t1 t2 σ.
  destruct (same_filename_overwrites Scenario.state_file Scenario.all_copied
              true true true t1 t2 300 200 1 None σ)
    as (σ' & Hrun & Hfiles & Hstore).
  - reflexivity.
  - split; [vm_compute; reflexivity|]. vm_compute. by eexists.
  - apply (bool_decide_unpack _). vm_compute. exact I.
  - apply (bool_decide_unpack _). vm_compute. exact I.
  - reflexivity.
  - reflexivity.
  - reflexivity.
  - exists σ'. split; [exact Hrun|]. split.
    + rewrite Hfiles. vm_compute. reflexivity.
    + rewrite Hstore. vm_compute. reflexivity.
Defined.





Lemma first_with_id_spec pid l :
  match first_with_id pid l with
  | Some t =>
      ∃ before after,
        l = before ++ t :: after ∧ persistent_id t = pid
        ∧ ∀ t', t' ∈ before → persistent_id t' ≠ pid
  | None => ∀ t, t ∈ l → persistent_id t ≠ pid
  end.
Proof.
  induction l as [|t l IH]; simpl.
  - intros t Hin. by apply elem_of_nil in Hin.
  - case_bool_decide as Hid.
    + exists [], l. split; [done|]. split; [done|].
      intros t' Hin. by apply elem_of_nil in Hin.
    + destruct (first_with_id pid l) as [t0|].
      * destruct IH as (before & after & -> & Hpid & Hbefore).
        exists (t :: before), after. split; [done|]. split; [done|].
        intros t' Hin. apply elem_of_cons in Hin as [->|Hin]; [done|].
        by apply Hbefore.
      * intros t' Hin. apply elem_of_cons in Hin as [->|Hin]; [done|].
        by apply IH.
Qed.

(** X12. [track_by_persistent_id] returns the first track of the catalog,
    in catalog order, that carries the identifier, and [None] exactly when
    no track of the catalog carries it. *)
Theorem track_by_persistent_id_first lib pid :
  match track_by_persistent_id lib pid with
  | Some t =>
      ∃ before after,
        Itunes.tracks lib = before ++ t :: after ∧ persistent_id t = pid
        ∧ ∀ t', t' ∈ before → persistent_id t' ≠ pid
  | None => ∀ t, t ∈ Itunes.tracks lib → persistent_id t ≠ pid
  end.
Proof. apply first_with_id_spec. Qed.

Lemma elem_of_selected pls (names : gset string) id :
  id ∈ selected pls names
  ↔ ∃ p, p ∈ pls ∧ playlist_name p ∈ names ∧ id ∈ playlist_tracks p.
Proof.
  induction pls as [|p pls IH]; simpl.
  - split; [by intros ?%elem_of_empty|].
    intros (p & Hin & _). by apply elem_of_nil in Hin.
  - rewrite elem_of_union, IH. split.
    + intros [Hin|(p' & Hin & ?)].
      * case_bool_decide; [|by apply elem_of_empty in Hin].
        exists p. split; [by left|]. split; [done|].
        by apply elem_of_list_to_set in Hin.
      * exists p'. split; [by right|done].
    + intros (p' & Hin & Hname & Hid).
      apply elem_of_cons in Hin as [->|Hin].
      * left. rewrite bool_decide_true by done. by apply elem_of_list_to_set.
      * right. by exists p'.
Qed.

(** X13. Resolving the playlists of a filter object adds to its track ids
    exactly the ids listed by the playlists of the catalog whose names the
    object selects; it removes none and changes nothing else, so that it
    never lets through a track that was filtered before; and resolving a
    second time changes nothing. *)
Theorem get_playlist_tracks_resolves lib f :
  let f' := get_playlist_tracks lib f in
  (∀ id, id ∈ Config.tracks f'
         ↔ id ∈ Config.tracks f
           ∨ ∃ p, p ∈ Itunes.playlists lib
                  ∧ playlist_name p ∈ Config.playlists f
                  ∧ id ∈ playlist_tracks p)
  ∧ albums f' = albums f ∧ artists f' = artists f ∧ genres f' = genres f
  ∧ Config.playlists f' = Config.playlists f
  ∧ filter_filename f' = filter_filename f
  ∧ (∀ t, is_filtered f t = true → is_filtered f' t = true)
  ∧ get_playlist_tracks lib f' = f'.
Proof.
  intros f'. unfold f', get_playlist_tracks.
  rewrite get_playlist_tracks_loop_selected. simpl.
  split; [|split; [done|split; [done|split; [done|split; [done|split;
    [done|split]]]]]].
  - intros id. by rewrite elem_of_union, elem_of_selected.
  - intros t. unfold is_filtered. simpl.
    destruct (name_in (album t) (albums f)); [done|].
    destruct (name_in (artist t) (artists f)); [done|].
    destruct (name_in (genre t) (genres f)); [done|].
    case_bool_decide as Hin; [|done]. intros _.
    rewrite bool_decide_true; [done|]. apply elem_of_union. by left.
  - rewrite <- get_playlist_tracks_loop_selected.
    apply (get_playlist_tracks_idem lib f).
Qed.

Section ListingFacts.
Import Listing.
Variable lower : string → string.

Lemma compare_not_Gt_trans a : ∀ b c,
  String.compare a b ≠ Gt → String.compare b c ≠ Gt → String.compare a c ≠ Gt.
Proof.
  induction a as [|x a IH]; intros [|y b] [|z c]; simpl; try done.
  unfold Ascii.compare.
  destruct (N.compare_spec (N_of_ascii x) (N_of_ascii y)) as [Hxy|Hxy|Hxy];
    destruct (N.compare_spec (N_of_ascii y) (N_of_ascii z)) as [Hyz|Hyz|Hyz];
    destruct (N.compare_spec (N_of_ascii x) (N_of_ascii z)) as [Hxz|Hxz|Hxz];
    try done; try lia.
  apply IH.
Qed.

Lemma key_le_trans x y z :
  key_le lower x y = true → key_le lower y z = true → key_le lower x z = true.
Proof.
  unfold key_le, String.leb. intros Hxy Hyz.
  pose proof (compare_not_Gt_trans (lower x) (lower y) (lower z)) as Ht.
  destruct (String.compare (lower x) (lower y)); try done;
    destruct (String.compare (lower y) (lower z)); try done;
    destruct (String.compare (lower x) (lower z)); try done;
    exfalso; by apply Ht.
Qed.

Lemma key_le_total x y : key_le lower x y = true ∨ key_le lower y x = true.
Proof. apply String.leb_total. Qed.

Lemma insert_by_key_Permutation x l : insert_by_key lower x l ≡ₚ x :: l.
Proof.
  induction l as [|y l IH]; simpl; [done|].
  destruct (key_le lower x y); [done|]. rewrite IH. apply Permutation_swap.
Qed.

Lemma sorted_Permutation l : sorted lower l ≡ₚ l.
Proof.
  induction l as [|x l IH]; simpl; [done|].
  by rewrite insert_by_key_Permutation, IH.
Qed.

Abbreviation in_order := (λ x y, key_le lower x y = true).

Lemma insert_by_key_sorted x l :
  StronglySorted in_order l → StronglySorted in_order (insert_by_key lower x l).
Proof.
  induction 1 as [|y l Hl IH Hy]; simpl.
  - by repeat constructor.
  - destruct (key_le lower x y) eqn:Hxy.
    + constructor; [by constructor|]. constructor; [done|].
      eapply Forall_impl; [exact Hy|]. intros z Hz. simpl in *.
      by eapply key_le_trans.
    + constructor; [done|]. rewrite insert_by_key_Permutation.
      constructor; [|done].
      destruct (key_le_total x y) as [?|?]; [congruence|done].
Qed.

Lemma sorted_sorted l : StronglySorted in_order (sorted lower l).
Proof.
  induction l as [|x l IH]; simpl; [constructor|].
  by apply insert_by_key_sorted.
Qed.

Lemma elem_of_items (attribute : iTunesTrack → option string) l : ∀ items n,
  n ∈ foldl (λ items track, add_item items (attribute track)) items l
  ↔ n ∈ items ∨ (n ≠ "" ∧ ∃ t, t ∈ l ∧ attribute t = Some n).
Proof.
  induction l as [|t l IH]; intros items n; simpl.
  - split; [by left|]. intros [?|(_ & t & Hin & _)]; [done|].
    by apply elem_of_nil in Hin.
  - rewrite IH. unfold add_item. split.
    + intros [Hin|(Hne & t' & Hin & Ht')].
      * destruct (attribute t) as [[|c s]|] eqn:Hat; try by left.
        apply elem_of_union in Hin as [?|Hin]; [by left|].
        apply elem_of_singleton in Hin as ->.
        right. split; [done|]. exists t. split; [by left|done].
      * right. split; [done|]. exists t'. split; [by right|done].
    + intros [Hin|(Hne & t' & Hin & Ht')].
      * left. destruct (attribute t) as [[|c s]|]; try done.
        apply elem_of_union. by left.
      * apply elem_of_cons in Hin as [->|Hin].
        -- left. rewrite Ht'. destruct n as [|c s]; [done|].
           apply elem_of_union. right. by apply elem_of_singleton.
        -- right. split; [done|]. by exists t'.
Qed.

Lemma elem_of_names l : ∀ (names : gset string) n,
  n ∈ foldl (λ names playlist, names ∪ {[playlist_name playlist]}) names l
  ↔ n ∈ names ∨ ∃ p, p ∈ l ∧ playlist_name p = n.
Proof.
  induction l as [|p l IH]; intros names n; simpl.
  - split; [by left|]. intros [?|(p & Hin & _)]; [done|].
    by apply elem_of_nil in Hin.
  - rewrite IH, elem_of_union, elem_of_singleton. split.
    + intros [[?| ->]|(p' & Hin & Hp')].
      * by left.
      * right. exists p. split; [by left|done].
      * right. exists p'. split; [by right|done].
    + intros [?|(p' & Hin & Hp')]; [by left; left|].
      apply elem_of_cons in Hin as [->|Hin]; [by left; right|].
      right. by exists p'.
Qed.


(** A listing: without repetition, in the order of the lower-cased names,
    and holding exactly the names that satisfy [P]. *)
Definition lists (r : list string) (P : string → Prop) : Prop :=
  NoDup r ∧ StronglySorted in_order r ∧ ∀ n, n ∈ r ↔ P n.

Lemma sorted_elements_lists (names : gset string) (P : string → Prop) :
  (∀ n, n ∈ names ↔ P n) → lists (sorted lower (elements names)) P.
Proof.
  intros HP. split; [|split].
  - rewrite sorted_Permutation. apply NoDup_elements.
  - apply sorted_sorted.
  - intros n. rewrite sorted_Permutation, elem_of_elements. apply HP.
Qed.

Lemma get_all_track_info_lists attribute lib :
  lists (_get_all_track_info lower attribute lib)
    (λ n, n ≠ "" ∧ ∃ t, t ∈ Itunes.tracks lib ∧ attribute t = Some n).
Proof.
  apply sorted_elements_lists. intros n. rewrite elem_of_items.
  split; [|by right]. intros [Hin|?]; [|done]. by apply elem_of_empty in Hin.
Qed.

End ListingFacts.

(** X14. The listings the selection screens are built from: each of
    [all_albums], [all_artists] and [all_genres] holds exactly the values
    of that attribute over the tracks of the catalog that are neither
    missing nor empty, and [all_playlists] exactly the names of the
    playlists; each value is listed once, and the list is in the order of
    the lower-cased values. *)
Theorem listings_complete_and_sorted lower lib :
  lists lower (Listing.all_albums lower lib)
    (λ n, n ≠ "" ∧ ∃ t, t ∈ Itunes.tracks lib ∧ album t = Some n)
  ∧ lists lower (Listing.all_artists lower lib)
      (λ n, n ≠ "" ∧ ∃ t, t ∈ Itunes.tracks lib ∧ artist t = Some n)
  ∧ lists lower (Listing.all_genres lower lib)
      (λ n, n ≠ "" ∧ ∃ t, t ∈ Itunes.tracks lib ∧ genre t = Some n)
  ∧ lists lower (Listing.all_playlists lower lib)
      (λ n, ∃ p, p ∈ Itunes.playlists lib ∧ playlist_name p = n).
Proof.
  split; [apply get_all_track_info_lists|].
  split; [apply get_all_track_info_lists|].
  split; [apply get_all_track_info_lists|].
  apply sorted_elements_lists. intros n. rewrite elem_of_names.
  split; [|by right]. intros [Hin|?]; [|done]. by apply elem_of_empty in Hin.
Qed.

Lemma name_in_union x (s : gset string) n :
  name_in x s = true → name_in x (s ∪ {[n]}) = true.
Proof.
  destruct x as [m|]; simpl; [|done]. intros Hin%bool_decide_eq_true.
  apply bool_decide_eq_true. set_solver.
Qed.

Lemma name_in_added (s : gset string) n : name_in (Some n) (s ∪ {[n]}) = true.
Proof. simpl. apply bool_decide_eq_true. set_solver. Qed.

(** X15. The rules of a filter object only widen until they are cleared:
    a track that is filtered stays filtered when a name is added to any
    group; a track whose album, artist or genre is the added name is
    filtered from then on; a playlist name filters nothing by itself, but
    once the playlists are resolved every track listed by a playlist of
    that name is filtered; and after [clear] no track is filtered. *)
Theorem rules_widen f name t :
  (is_filtered f t = true →
   is_filtered (Filters.add_album f name) t = true
   ∧ is_filtered (Filters.add_artist f name) t = true
   ∧ is_filtered (Filters.add_genre f name) t = true
   ∧ is_filtered (Filters.add_playlist f name) t = true)
  ∧ (album t = Some name → is_filtered (Filters.add_album f name) t = true)
  ∧ (artist t = Some name → is_filtered (Filters.add_artist f name) t = true)
  ∧ (genre t = Some name → is_filtered (Filters.add_genre f name) t = true)
  ∧ is_filtered (Filters.add_playlist f name) t = is_filtered f t
  ∧ (∀ lib p,
       p ∈ Itunes.playlists lib → playlist_name p = name →
       track_id t ∈ playlist_tracks p →
       is_filtered (get_playlist_tracks lib (Filters.add_playlist f name)) t
       = true)
  ∧ is_filtered (Filters.clear f) t = false.
Proof.
  unfold is_filtered, Filters.add_album, Filters.add_artist,
    Filters.add_genre, Filters.add_playlist. simpl.
  split; [|split; [|split; [|split; [|split; [done|split]]]]].
  - intros Hf. repeat split.
    + destruct (name_in (album t) (albums f)) eqn:Ha;
        [by rewrite (name_in_union _ _ _ Ha)|].
      by destruct (name_in (album t) (albums f ∪ {[name]})).
    + destruct (name_in (album t) (albums f)); [done|].
      destruct (name_in (artist t) (artists f)) eqn:Ha;
        [by rewrite (name_in_union _ _ _ Ha)|].
      by destruct (name_in (artist t) (artists f ∪ {[name]})).
    + destruct (name_in (album t) (albums f)); [done|].
      destruct (name_in (artist t) (artists f)); [done|].
      destruct (name_in (genre t) (genres f)) eqn:Ha;
        [by rewrite (name_in_union _ _ _ Ha)|].
      by destruct (name_in (genre t) (genres f ∪ {[name]})).
    + done.
  - intros ->. by rewrite name_in_added.
  - intros ->. rewrite name_in_added. by destruct (name_in _ _).
  - intros ->. rewrite name_in_added. by repeat destruct (name_in _ _).
  - intros lib p Hp Hname Hid. unfold get_playlist_tracks.
    rewrite get_playlist_tracks_loop_selected. simpl.
    repeat (destruct (name_in _ _); [done|]).
    rewrite bool_decide_true; [done|]. apply elem_of_union. right.
    apply elem_of_selected. exists p. split; [done|]. split; [|done].
    rewrite Hname. set_solver +.
  - by destruct (album t), (artist t), (genre t).
Qed.

Section FilterFiles.
Import Files Filters.

Lemma serialize_lookup f :
  serialize f !! "albums"
  = (if bool_decide (0 < base.size (albums f)) then Some (elements (albums f))
     else None)
  ∧ serialize f !! "artists"
    = (if bool_decide (0 < base.size (artists f))
       then Some (elements (artists f)) else None)
  ∧ serialize f !! "genres"
    = (if bool_decide (0 < base.size (genres f))
       then Some (elements (genres f)) else None)
  ∧ serialize f !! "playlists"
    = (if bool_decide (0 < base.size (Config.playlists f))
       then Some (elements (Config.playlists f)) else None).
Proof.
  unfold serialize. simpl.
  repeat split; repeat case_bool_decide; by simplify_map_eq.
Qed.

(** What [set(items)] makes of a group that [serialize] wrote or left
    out. *)
Lemma group_restored (items : gset string) :
  list_to_set
    (default []
       (if bool_decide (0 < base.size items) then Some (elements items)
        else None))
  = items.
Proof.
  case_bool_decide as Hsize; simpl.
  - apply list_to_set_elements_L.
  - symmetry. apply leibniz_equiv, size_empty_inv. lia.
Qed.


(** The path [save_to_file] and [load_from_file] work on. *)
Definition chosen_path (c : HibikiConfig) (f : HibikiConfigFilters)
    (path_arg : option path) : path :=
  match path_arg with
  | Some (x :: l) => x :: l
  | _ => filters_path c f
  end.

Lemma save_to_file_saved w c f path_arg w' :
  save_to_file w c f path_arg = (Return (), w') →
  open_for_writing (dirs w) (regular_files w) (chosen_path c f path_arg) = None
  ∧ w' = with_filter_files w
           (<[chosen_path c f path_arg := Groups (serialize f)]>
              (filter_files w)).
Proof.
  unfold save_to_file. fold (chosen_path c f path_arg).
  destruct (open_for_writing _ _ _); [discriminate|].
  intros [= <-]. done.
Qed.

End FilterFiles.

(** X16. The filter rules survive a round trip through their file:
    whenever [save_to_file] returns normally, [load_from_file] on the same
    path, into any filter object of the same file name, returns normally
    and sets the four groups to those of the saved object, empty groups
    included; the track ids resolved from the playlists are not stored,
    and the loading object keeps its own. *)
Theorem filters_round_trip w c f path_arg w' f0 :
  Filters.save_to_file w c f path_arg = (Return (), w') →
  filter_filename f0 = filter_filename f →
  ∃ f',
    load_from_file w' c f0 path_arg = (Return (), f')
    ∧ albums f' = albums f ∧ artists f' = artists f ∧ genres f' = genres f
    ∧ Config.playlists f' = Config.playlists f
    ∧ Config.tracks f' = Config.tracks f0
    ∧ filter_filename f' = filter_filename f0.
Proof.
  intros Hsave Hname. apply save_to_file_saved in Hsave as [_ ->].
  unfold load_from_file. fold (chosen_path c f0 path_arg).
  assert (chosen_path c f0 path_arg = chosen_path c f path_arg) as ->.
  { unfold chosen_path, filters_path. by rewrite Hname. }
  simpl. rewrite lookup_insert_eq.
  eexists. split; [reflexivity|]. simpl.
  destruct (serialize_lookup f) as (-> & -> & -> & ->).
  by rewrite !group_restored.
Qed.

(** The include rules of the flat scenario, saved under the default path
    and loaded into a fresh filter object. *)
Lemma filters_round_trip_witness :
  let w := Os.with_dirs (Scenario.empty_world 1000)
             {[ ["mnt"]; ["mnt"; ".hibiki"] ]} in
  let f := includes Scenario.flat in
  ∃ f',
    load_from_file (Filters.save_to_file w Scenario.flat f None).2
      Scenario.flat (new_filters "includes") None = (Return (), f')
    ∧ artists f' = {["Ayumi"]}.
Proof.
  intros w f.
  assert (Hsaved : (Filters.save_to_file w Scenario.flat f None).1 = Return ())
    by (vm_compute; reflexivity).
  destruct (Filters.save_to_file w Scenario.flat f None) as [r w'] eqn:Hsave.
  simpl in Hsaved. subst r.
  destruct (filters_round_trip w Scenario.flat f None w'
              (new_filters "includes") Hsave eq_refl)
    as (f' & Hload & _ & Hartists & _).
  exists f'. split; [exact Hload|]. rewrite Hartists. vm_compute. reflexivity.
Defined.

Section ConfigFiles.
Import Files.
Variable DEFAULT_CONFIG_FILE_PATH : path.

Abbreviation load := (Settings.load_config_file DEFAULT_CONFIG_FILE_PATH).
Abbreviation save := (Settings.save_config_file DEFAULT_CONFIG_FILE_PATH).
Abbreviation chosen := (Settings.path_or_default DEFAULT_CONFIG_FILE_PATH).

(** The settings with the four values of [s'] and the destination of
    [s]. *)
Definition with_values (s s' : Settings.Settings) : Settings.Settings :=
  {| Settings.destination := Settings.destination s;
     Settings.itunes_path := Settings.itunes_path s';
     Settings.max_file_count := Settings.max_file_count s';
     Settings.random_fill := Settings.random_fill s';
     Settings.use_subfolders := Settings.use_subfolders s' |}.

Lemma save_config_file_saved d s path_arg d' :
  save d s path_arg = (Settings.Ok (), d') →
  ∃ p, chosen s path_arg = Settings.Ok p
       ∧ Settings.config_files d'
         = <[p := Settings.Object (Settings.dumped s)]>
             (Settings.config_files d).
Proof.
  unfold Settings.save_config_file.
  destruct (chosen s path_arg) as [p|]; [|discriminate].
  destruct (Settings.config_folder s) as [folder|]; [|discriminate].
  destruct (if Settings.exists_ d folder then _ else _) as [ds|];
    [|discriminate].
  destruct (open_for_writing _ _ p); [discriminate|].
  intros [= <-]. by exists p.
Qed.

Lemma load_dumped d s s0 p path_arg :
  chosen s0 path_arg = Settings.Ok p →
  Settings.config_files d !! p = Some (Settings.Object (Settings.dumped s)) →
  load d s0 path_arg = Settings.Ok (with_values s0 s).
Proof.
  intros Hp Hfile. unfold Settings.load_config_file. rewrite Hp.
  assert (Settings.exists_ d p = true) as ->.
  { unfold Settings.exists_, exists_. apply orb_true_iff. right.
    apply bool_decide_eq_true, elem_of_dom. by eexists. }
  simpl. rewrite Hfile. unfold Settings.dumped, with_values.
  by simplify_map_eq.
Qed.

End ConfigFiles.

(** X17. The settings survive a round trip through the config file:
    whenever [save_config_file] returns normally, [load_config_file] for
    the same path, into a configuration with any other values of the four
    settings, returns normally and sets [itunes_path], [max_file_count],
    [random_fill] and [use_subfolders] to the saved values; loading into
    the configuration that was saved changes nothing. *)
Theorem settings_round_trip DEFAULT_CONFIG_FILE_PATH d s path_arg d' s0 :
  Settings.save_config_file DEFAULT_CONFIG_FILE_PATH d s path_arg
  = (Settings.Ok (), d') →
  Settings.destination s0 = Settings.destination s →
  Settings.load_config_file DEFAULT_CONFIG_FILE_PATH d' s0 path_arg
  = Settings.Ok (with_values s0 s)
  ∧ Settings.load_config_file DEFAULT_CONFIG_FILE_PATH d' s path_arg
    = Settings.Ok s.
Proof.
  intros Hsave Hdest.
  apply save_config_file_saved in Hsave as (p & Hp & Hfiles).
  assert (Hfile : Settings.config_files d' !! p
                  = Some (Settings.Object (Settings.dumped s)))
    by (rewrite Hfiles; apply lookup_insert_eq).
  split.
  - apply (load_dumped _ d' s s0 p); [|done].
    unfold Settings.path_or_default, Settings.config_path in *.
    by rewrite Hdest.
  - rewrite (load_dumped _ d' s s p path_arg Hp Hfile). by destruct s.
Qed.

(** The settings of a fresh configuration for [/mnt], saved under the
    default path on a destination without a [.hibiki] folder, and loaded
    into a configuration whose settings differ. *)
Lemma settings_round_trip_witness :
  let d := {| Settings.world := Scenario.empty_world 1000;
              Settings.config_files := ∅ |} in
  let s := {| Settings.destination := Some ["mnt"];
              Settings.itunes_path := Settings.JString "Library.xml";
              Settings.max_file_count := Settings.JInt 2;
              Settings.random_fill := Settings.JBool false;
              Settings.use_subfolders := Settings.JBool true |} in
  let s0 := with_values s Settings.initial in
  let d' := (Settings.save_config_file [".hibiki"; "config"] d s None).2 in
  Settings.load_config_file [".hibiki"; "config"] d' s0 None = Settings.Ok s.
Proof.
  intros d s s0 d'.
  assert (Hsaved : (Settings.save_config_file [".hibiki"; "config"] d s None).1
                   = Settings.Ok ()) by (vm_compute; reflexivity).
  unfold d'.
  destruct (Settings.save_config_file [".hibiki"; "config"] d s None)
    as [r d1] eqn:Hsave.
  simpl in Hsaved. subst r.
  exact (proj1 (settings_round_trip [".hibiki"; "config"] d s None d1 s0
                  Hsave eq_refl)).
Defined.

(** X18. [load_config_file] raises a configuration error exactly when the
    file does not exist or is not JSON (a missing config file is a
    configuration error, unlike a missing filter file); when it returns
    normally the destination is as before, each of the four settings has
    the value the file gives for its key and keeps its value when the
    file lacks the key, and loading the same file again changes
    nothing. *)
Theorem load_config_file_outcomes DEFAULT_CONFIG_FILE_PATH d s path_arg :
  ((∃ message,
      Settings.load_config_file DEFAULT_CONFIG_FILE_PATH d s path_arg
      = Settings.Error (Settings.Raised (InvalidConfigError message)))
   ↔ ∃ p, Settings.path_or_default DEFAULT_CONFIG_FILE_PATH s path_arg
          = Settings.Ok p
          ∧ (Settings.exists_ d p = false
             ∨ Settings.config_files d !! p = Some Settings.Unreadable))
  ∧ (∀ s',
       Settings.load_config_file DEFAULT_CONFIG_FILE_PATH d s path_arg
       = Settings.Ok s' →
       Settings.destination s' = Settings.destination s
       ∧ (∃ p data,
            Settings.path_or_default DEFAULT_CONFIG_FILE_PATH s path_arg
            = Settings.Ok p
            ∧ Settings.config_files d !! p = Some (Settings.Object data)
            ∧ Settings.itunes_path s'
              = default (Settings.itunes_path s) (data !! "itunes_path")
            ∧ Settings.max_file_count s'
              = default (Settings.max_file_count s) (data !! "max_file_count")
            ∧ Settings.random_fill s'
              = default (Settings.random_fill s) (data !! "random_fill")
            ∧ Settings.use_subfolders s'
              = default (Settings.use_subfolders s)
                  (data !! "use_subfolders"))
       ∧ Settings.load_config_file DEFAULT_CONFIG_FILE_PATH d s' path_arg
         = Settings.Ok s').
Proof.
  unfold Settings.load_config_file.
  destruct (Settings.path_or_default DEFAULT_CONFIG_FILE_PATH s path_arg)
    as [p|e] eqn:Hp.
  2:{ split.
      - split; [|by intros (? & ? & _)].
        intros [m Hm]. unfold Settings.path_or_default, Settings.config_path in Hp.
        destruct path_arg as [[|??]|]; destruct (Settings.destination s);
          congruence.
      - intros s' ?. discriminate. }
  destruct (Settings.exists_ d p) eqn:Hex; simpl.
  2:{ split; [|intros s' ?; discriminate].
      split; [|by eexists]. intros _. exists p. split; [done|by left]. }
  destruct (Settings.config_files d !! p) as [[| |data]|] eqn:Hfile.
  - split; [|intros s' ?; discriminate].
    split; [|by eexists]. intros _. exists p. split; [done|by right].
  - split; [|intros s' ?; discriminate].
    split; [intros [? ?]; discriminate|].
    intros (p' & [= <-] & [?|?]); congruence.
  - split.
    + split; [intros [? ?]; discriminate|].
      intros (p' & [= <-] & [?|?]); congruence.
    + intros s' [= <-]. simpl. split; [done|]. split.
      * exists p, data. by repeat split.
      * assert (Settings.path_or_default DEFAULT_CONFIG_FILE_PATH
                  {| Settings.destination := Settings.destination s;
                     Settings.itunes_path :=
                       default (Settings.itunes_path s) (data !! "itunes_path");
                     Settings.max_file_count :=
                       default (Settings.max_file_count s)
                         (data !! "max_file_count");
                     Settings.random_fill :=
                       default (Settings.random_fill s) (data !! "random_fill");
                     Settings.use_subfolders :=
                       default (Settings.use_subfolders s)
                         (data !! "use_subfolders") |} path_arg
                = Settings.Ok p) as ->.
        { rewrite <- Hp. unfold Settings.path_or_default, Settings.config_path.
          done. }
        rewrite Hex. simpl. rewrite Hfile. f_equal. f_equal;
          by destruct (data !! _).
  - split; [|intros s' ?; discriminate].
    split; [intros [? ?]; discriminate|].
    intros (p' & [= <-] & [?|?]); congruence.
Qed.





Section SelectionScreens.
Import Files Filters Listing Cli.

Lemma source_of_add c o g v o' g' :
  source_of (add c o g v) o' g'
  = if bool_decide (o' = o ∧ g' = g) then source_of c o g ∪ {[v]}
    else source_of c o' g'.
Proof. by destruct o, g, o', g'. Qed.

Lemma source_of_clear_source c o g o' g' :
  source_of (clear_source c o g) o' g'
  = if bool_decide (o' = o ∧ g' = g) then ∅ else source_of c o' g'.
Proof. by destruct o, g, o', g'. Qed.

Lemma source_of_added o g (l : list CheckBox) : ∀ c o' g',
  source_of (foldl (λ c box, add c o g (label box)) c l) o' g'
  = if bool_decide (o' = o ∧ g' = g)
    then source_of c o g ∪ list_to_set (label <$> l)
    else source_of c o' g'.
Proof.
  induction l as [|box l IH]; intros c o' g'; simpl.
  - case_bool_decide as H; [|done]. destruct H as [-> ->]. set_solver +.
  - rewrite IH, !source_of_add.
    case_bool_decide as H; [|done]. destruct H as [-> ->].
    rewrite bool_decide_true by done. set_solver +.
Qed.

(** The labels of the boxes [generate_checkboxes] ticks. *)
Lemma checked_boxes c option :
  list_to_set (label <$> checked (boxes c option))
  =@{gset string}
  source_of c (of_owner option) (of_group option)
  ∩ list_to_set (items option).
Proof.
  apply set_eq. intros n.
  rewrite elem_of_intersection, !elem_of_list_to_set, list_elem_of_fmap.
  unfold checked, boxes. split.
  - intros (box & -> & Hbox). apply list_elem_of_filter in Hbox as [Hstate Hbox].
    apply list_elem_of_fmap in Hbox as (choice & -> & Hchoice). simpl in *.
    split; [|done]. by apply bool_decide_eq_true in Hstate.
  - intros [Hsource Hitem].
    exists {| label := n;
              state := bool_decide (n ∈ source_of c (of_owner option)
                                          (of_group option)) |}.
    split; [done|]. apply list_elem_of_filter. split.
    + simpl. by apply bool_decide_eq_true.
    + apply list_elem_of_fmap. by exists n.
Qed.

Lemma open_copy_keeps p r p' :
  open_copy p = (r, p') →
  index p' = index p ∧ options p' = options p ∧ body p' = body p
  ∧ config p' = config p ∧ r ≠ Raises IndexError
  ∧ (r = Done () → copies p' = S (copies p)).
Proof.
  unfold open_copy.
  destruct (save_to_file _ _ (includes _) _) as [[[]|e] w].
  - destruct (save_to_file _ _ (excludes _) _) as [[[]|e] w'];
      intros [= <- <-]; simpl; by repeat split.
  - intros [= <- <-]; simpl. by repeat split.
Qed.


(** The prompt after the user has set the boxes to [b]. *)
Definition toggled (p : SelectionPrompt) (b : list CheckBox)
  : SelectionPrompt :=
  {| index := index p; item_count := item_count p; options := options p;
     selected := selected p; body := b; config := config p;
     world := world p; copies := copies p |}.

Lemma generate_checkboxes_shown p option :
  options p !! index p = Some option →
  generate_checkboxes p
  = (Done (),
     {| index := index p; item_count := length (items option);
        options := options p;
        selected := selected p
                    + Z.of_nat (length (checked (boxes (config p) option)));
        body := boxes (config p) option;
        config := clear_source (config p) (of_owner option) (of_group option);
        world := world p; copies := copies p |}).
Proof. intros Hoption. unfold generate_checkboxes. by rewrite Hoption. Qed.

(** [save] on a screen that exists: the ticked labels are added, and the
    next screen, or the copy screen, is opened. *)
Lemma save_on_screen p option :
  options p !! index p = Some option →
  save p
  = generate_checkboxes
      {| index := S (index p); item_count := item_count p;
         options := options p; selected := 0; body := body p;
         config := foldl (λ c box, add c (of_owner option) (of_group option)
                                     (label box))
                     (config p) (checked (body p));
         world := world p; copies := copies p |}.
Proof.
  intros Hoption. unfold save. rewrite Hoption. by destruct (checked (body p)).
Qed.

Lemma generate_checkboxes_source p r p' o g :
  generate_checkboxes p = (r, p') →
  (∀ next, options p !! index p = Some next →
           ¬ (o = of_owner next ∧ g = of_group next)) →
  source_of (config p') o g = source_of (config p) o g.
Proof.
  unfold generate_checkboxes. intros Hgen Hnext.
  destruct (options p !! index p) as [next|].
  - injection Hgen as <- <-. simpl. rewrite source_of_clear_source.
    rewrite bool_decide_false; [done|]. by apply Hnext.
  - apply open_copy_keeps in Hgen as (_ & _ & _ & -> & _). done.
Qed.

Lemma generate_checkboxes_index p r p' :
  generate_checkboxes p = (r, p') →
  index p' = index p ∧ options p' = options p.
Proof.
  unfold generate_checkboxes. intros Hgen.
  destruct (options p !! index p) as [next|].
  - by injection Hgen as <- <-.
  - by apply open_copy_keeps in Hgen as (-> & -> & _).
Qed.

End SelectionScreens.

(** X21. Passing a selection screen rewrites the group it is about: the
    screen is drawn with a box for each name the catalog lists, ticked
    when the name is in the group, and the group is emptied; [save] then
    puts back the labels of the ticked boxes. The group therefore ends up
    holding exactly the ticked labels, and, when the user changes no box,
    the names it held that the catalog still lists: a rule for a name the
    catalog no longer lists is dropped. *)
Theorem passing_a_screen p option b :
  Cli.options p !! Cli.index p = Some option →
  (∀ next, Cli.options p !! S (Cli.index p) = Some next →
           ¬ (Cli.of_owner option = Cli.of_owner next
              ∧ Cli.of_group option = Cli.of_group next)) →
  let shown := (Cli.generate_checkboxes p).2 in
  let group c := Cli.source_of c (Cli.of_owner option) (Cli.of_group option) in
  (Cli.generate_checkboxes p).1 = Cli.Done ()
  ∧ Cli.body shown = Cli.boxes (Cli.config p) option
  ∧ group (Cli.config shown) = ∅
  ∧ group (Cli.config (Cli.save (toggled shown b)).2)
    = list_to_set (Cli.label <$> Cli.checked b)
  ∧ group (Cli.config (Cli.save shown).2)
    = group (Cli.config p) ∩ list_to_set (Cli.items option).
Proof.
  intros Hoption Hnext shown group.
  unfold shown. clear shown.
  rewrite (generate_checkboxes_shown p option Hoption). simpl.
  split; [done|]. split; [done|].
  assert (Hcleared : group (Cli.clear_source (Cli.config p)
                              (Cli.of_owner option) (Cli.of_group option)) = ∅).
  { unfold group. rewrite source_of_clear_source.
    by rewrite bool_decide_true. }
  split; [done|].
  assert (Hsaved : ∀ b',
            group (Cli.config
                     (Cli.save
                        {| Cli.index := Cli.index p;
                           Cli.item_count := length (Cli.items option);
                           Cli.options := Cli.options p;
                           Cli.selected :=
                             Cli.selected p
                             + Z.of_nat (length (Cli.checked
                                                   (Cli.boxes (Cli.config p)
                                                      option)));
                           Cli.body := b';
                           Cli.config :=
                             Cli.clear_source (Cli.config p)
                               (Cli.of_owner option) (Cli.of_group option);
                           Cli.world := Cli.world p;
                           Cli.copies := Cli.copies p |}).2)
            = list_to_set (Cli.label <$> Cli.checked b')).
  { intros b'. rewrite (save_on_screen _ option) by done. simpl.
    destruct (Cli.generate_checkboxes _) as [r p2] eqn:Hgen.
    unfold group. cbn [snd].
    rewrite (generate_checkboxes_source _ _ _ _ _ Hgen) by (simpl; auto).
    cbn [Cli.config]. rewrite source_of_added. rewrite bool_decide_true by done.
    fold (group (Cli.clear_source (Cli.config p) (Cli.of_owner option)
                   (Cli.of_group option))).
    rewrite Hcleared. set_solver +. }
  split.
  - unfold toggled. simpl. apply Hsaved.
  - rewrite Hsaved. apply checked_boxes.
Qed.

Section Skipping.
Import Files Filters Listing Cli.
Variable lower : string → string.
Variable lib : iTunesLibrary.

(** Whether [skip] has come back within the turns it was given. *)
Definition returns (r : option (returned unit * SelectionPrompt)) : bool :=
  match r with
  | Some (Done _, _) => true
  | _ => false
  end.

Lemma listed_facts i o :
  listed lower lib !! i = Some o →
  (i < 8)%nat
  ∧ (i < 7 → ¬ (Excludes = of_owner o ∧ Playlists = of_group o))%nat
  ∧ (i = 7%nat →
     items o = all_playlists lower lib
     ∧ of_owner o = Excludes ∧ of_group o = Playlists).
Proof.
  do 8 (destruct i as [|i];
        [intros [= <-]; simpl; split; [lia|];
         split; [intros ? [??]; first [lia|congruence]
                |intros ?; first [lia|done]]|]).
  intros Hi. discriminate.
Qed.

(** No box of the last screen is or will be ticked. *)
Definition nothing_to_tick (p : SelectionPrompt) : Prop :=
  options p = listed lower lib
  ∧ (index p < 7 →
     ∀ n, n ∈ all_playlists lower lib → n ∉ playlists (excludes (config p)))%nat
  ∧ (7 ≤ index p → checked (body p) = [])%nat.

Lemma boxes_unticked c option :
  (∀ n, n ∈ items option →
        n ∉ source_of c (of_owner option) (of_group option)) →
  checked (boxes c option) = [].
Proof.
  intros Hnone. unfold checked, boxes.
  induction (items option) as [|choice l IH]; [done|]. simpl.
  rewrite filter_cons. simpl.
  rewrite bool_decide_false by (apply Hnone; by left).
  rewrite decide_False by done. apply IH.
  intros n Hn. apply Hnone. by right.
Qed.

Lemma save_nothing_to_tick p :
  nothing_to_tick p →
  ∃ r p', save p = (r, p') ∧ r ≠ Raises IndexError
          ∧ (r = Done () → nothing_to_tick p').
Proof.
  intros (Hopts & Hearly & Hlate).
  destruct (options p !! index p) as [option|] eqn:Hoption.
  - rewrite (save_on_screen p option Hoption).
    rewrite Hopts in Hoption.
    destruct (listed_facts _ _ Hoption) as (Hlt & Hother & Hlast).
    set (c := foldl (λ c box, add c (of_owner option) (of_group option)
                                (label box)) (config p) (checked (body p))).
    destruct (decide (index p = 7%nat)) as [H7|H7].
    + (* the last screen: the copy screen is opened *)
      unfold generate_checkboxes. simpl. rewrite Hopts, H7. simpl.
      destruct (open_copy _) as [r p'] eqn:Hopen.
      apply open_copy_keeps in Hopen as (Hi & Ho & Hb & _ & Hr & _).
      simpl in *. exists r, p'. split; [done|]. split; [done|].
      intros _. split; [by rewrite Ho|]. split; [rewrite Hi; lia|].
      intros _. rewrite Hb. apply Hlate. lia.
    + (* an earlier screen: the next one is drawn *)
      assert (Hc : source_of c Excludes Playlists
                   = playlists (excludes (config p))).
      { unfold c. rewrite source_of_added. rewrite bool_decide_false; [done|].
        apply Hother. lia. }
      destruct (lookup_lt_is_Some_2 (listed lower lib) (S (index p)))
        as [next Hnext]; [simpl; lia|].
      destruct (listed_facts _ _ Hnext) as (_ & Hother' & Hlast').
      rewrite (generate_checkboxes_shown _ next) by (simpl; by rewrite Hopts).
      simpl. eexists _, _. split; [reflexivity|]. split; [done|].
      intros _. split; [done|]. simpl. split.
      * intros Hlt' n Hn. 
        change (n ∉ source_of (clear_source c (of_owner next) (of_group next))
                      Excludes Playlists).
        rewrite source_of_clear_source. rewrite bool_decide_false; [|by apply Hother'].
        rewrite Hc. apply Hearly; [lia|done].
      * intros Hge. assert (S (index p) = 7%nat) as Hs by lia.
        destruct (Hlast' Hs) as (Hitems & Ho & Hg).
        apply boxes_unticked. rewrite Hitems, Ho, Hg, Hc.
        apply Hearly. lia.
  - (* past the last screen: the copy screen is opened again *)
    assert (Hge : (8 ≤ index p)%nat).
    { apply lookup_ge_None in Hoption. by rewrite Hopts in Hoption. }
    unfold save. rewrite Hoption, Hlate by lia.
    unfold generate_checkboxes. simpl.
    assert (options p !! S (index p) = None) as ->.
    { apply lookup_ge_None. rewrite Hopts. simpl. lia. }
    destruct (open_copy _) as [r p'] eqn:Hopen.
    apply open_copy_keeps in Hopen as (Hi & Ho & Hb & _ & Hr & _).
    simpl in *. exists r, p'. split; [done|]. split; [done|].
    intros _. split; [by rewrite Ho|]. split; [rewrite Hi; lia|].
    intros _. rewrite Hb. apply Hlate. lia.
Qed.

Lemma skip_nothing_to_tick fuel : ∀ p,
  nothing_to_tick p → returns (skip fuel p) = false.
Proof.
  induction fuel as [|fuel IH]; intros p Hp; [done|]. simpl.
  destruct (save_nothing_to_tick p Hp) as (r & p' & -> & Hr & Hnext).
  destruct r as [[]|[|e]]; [by apply IH, Hnext|done|done].
Qed.

End Skipping.



(** The include rules name an artist of the catalog and one it no longer
    lists; the first screen is passed without a change. *)
Lemma passing_a_screen_witness :
  let lib := Scenario.catalog [Scenario.track1] in
  let c := Scenario.configuration (Scenario.filters "excludes" [] [])
             (Scenario.filters "includes" ["Ayumi"; "Gone"] [])
             false 0 false in
  let p := {| Cli.index := 0; Cli.item_count := 0;
              Cli.options := Cli.listed (λ s, s) lib; Cli.selected := 0;
              Cli.body := []; Cli.config := c;
              Cli.world := Scenario.empty_world 1000; Cli.copies := 0 |} in
  Cli.source_of (Cli.config (Cli.save (Cli.generate_checkboxes p).2).2)
    Cli.Includes Cli.Artists
  = {["Ayumi"]}.
Proof.
  intros lib c p.
  destruct (passing_a_screen p
              {| Cli.title := "INCLUDE ARTISTS";
                 Cli.items := Listing.all_artists (λ s, s) lib;
                 Cli.of_owner := Cli.Includes; Cli.of_group := Cli.Artists |} [])
    as (_ & _ & _ & _ & Hsaved).
  - reflexivity.
  - intros next [= <-]. simpl. intros [_ ?]. discriminate.
  - etransitivity; [exact Hsaved|]. vm_compute. reflexivity.
Defined.
